(** * vitest-probe: the scoped event-delivery engine

    A shallow embedding of [src/index.ts] (the Node engine),
    [src/browser.ts] (the browser stub) and [src/directive.ts] (the build
    plugin), followed by the properties of the engine: scope routing, FIFO
    hand-off, the bounded buffer, time-outs, disposal and the isolation of
    failing subscribers; and by those of the plugin: which ids it takes, and
    when it adds the import.

    The engine is single-threaded: every callback runs to completion.  Module
    level variables ([subscribers], the [AsyncLocalStorage] cell), the
    closures created by [getProbe], the promises handed out by [next] and the
    host's timer table are gathered in one explicit [World] that every
    operation threads through. *)

From Stdlib Require Import Ascii QArith Qround Lqa.
From stdpp Require Import base option list gmap strings pretty sorting.

(** ** Data model *)

(** A [symbol] (scope tag), a promise and a timer handle are compared by
    identity only; each is a number drawn from its own allocator. *)
Abbreviation symbol := nat.
Abbreviation promise_id := nat.
Abbreviation timer_id := nat.

(** Payloads are opaque to the engine; a few JavaScript values are enough to
    write the scenarios down. *)
Inductive Value :=
  | VUndefined
  | VNumber (n : Z)
  | VString (s : string).

(** [ProbeEvent]: what a producer passed and what a consumer sees. *)
Record ProbeEvent := mkProbeEvent { label : string; value : Value }.

(** [InternalEvent = ProbeEvent & { __scope?: symbol }]. *)
Record InternalEvent := mkInternalEvent {
  e_label : string;
  e_value : Value;
  __scope : option symbol
}.

(** [new Error(message)]. *)
Record Error := mkError { message : string }.

(** How a call ends: it returns, or it throws. *)
Inductive Completion (A : Type) :=
  | Normal (a : A)
  | Throw (err : Error).
Arguments Normal {A} a.
Arguments Throw {A} err.

(** A JavaScript number as [bufferSize] may be given: a rational (every
    finite double is one), an infinity, or [NaN]. *)
Inductive number :=
  | Finite (q : Q)
  | PosInfinity
  | NegInfinity
  | NaN.

Definition integer (z : Z) : number := Finite (inject_Z z).

(** [n >= b] and [n <= b] for a length [n] and a number [b]; a comparison
    with [NaN] is false. *)
Definition length_ge (n : nat) (b : number) : bool :=
  match b with
  | Finite q => Qle_bool q (inject_Z (Z.of_nat n))
  | PosInfinity => false
  | NegInfinity => true
  | NaN => false
  end.

Definition length_le (n : nat) (b : number) : bool :=
  match b with
  | Finite q => Qle_bool (inject_Z (Z.of_nat n)) q
  | PosInfinity => true
  | NegInfinity => false
  | NaN => false
  end.

(** The options object of [getProbe]; a delay is an integer here, a buffer
    size any number.  A user filter is taken to be a function of the public
    event alone: it returns a boolean or throws, and does not call back into
    the engine. *)
Module Opts.
Record t := mk {
  timeoutMs : option Z;
  filter : option (ProbeEvent → Completion bool);
  bufferSize : option number
}.
End Opts.

(** An entry of [pending]: [resolve] and [reject] are the two faces of one
    promise, so the entry keeps the promise and the timer handle. *)
Record Waiter := mkWaiter { promise : promise_id; timer : timer_id }.

(** The variables a [getProbe] call closes over. *)
Record Probe := mkProbe {
  opts : option Opts.t;
  bufferSize : number;
  timeoutDefault : Z;
  scope : symbol;
  queue : list ProbeEvent;
  pending : list Waiter
}.

(** A promise is pending until [resolve] or [reject] settles it, once. *)
Inductive PromiseState :=
  | Pending
  | Fulfilled (e : ProbeEvent)
  | Rejected (err : Error).

(** The callback given to [setTimeout] in [next]: it closes over the probe's
    [pending], the promise's [resolve]/[reject] and [ms]. *)
Record Timer := mkTimer { t_owner : symbol; t_promise : promise_id; t_ms : Z }.

(** Everything the engine and its host keep between two calls. *)
Record World := mkWorld {
  subscribers : option (list symbol);   (* Set<Subscriber> | undefined, in insertion order;
                                           a subscriber is the [sub] closure of the probe
                                           with that scope *)
  als : option symbol;                  (* als.getStore()?.scope *)
  probes : gmap nat Probe;              (* the closures created so far, by scope *)
  promises : gmap nat PromiseState;
  timers : gmap nat Timer;              (* scheduled and neither fired nor cleared *)
  fresh_symbol : nat;
  fresh_promise : nat;
  fresh_timer : nat
}.

(** The module has just been loaded: no registry, no context, no probe. *)
Definition init_world : World :=
  mkWorld None None ∅ ∅ ∅ 0 0 0.

(** *** Field updates *)

Definition set_subscribers (s : option (list symbol)) (w : World) : World :=
  mkWorld s (als w) (probes w) (promises w) (timers w)
          (fresh_symbol w) (fresh_promise w) (fresh_timer w).

Definition set_als (s : option symbol) (w : World) : World :=
  mkWorld (subscribers w) s (probes w) (promises w) (timers w)
          (fresh_symbol w) (fresh_promise w) (fresh_timer w).

Definition set_probe (sc : symbol) (p : Probe) (w : World) : World :=
  mkWorld (subscribers w) (als w) (<[sc := p]> (probes w)) (promises w) (timers w)
          (fresh_symbol w) (fresh_promise w) (fresh_timer w).

Definition set_promises (ps : gmap nat PromiseState) (w : World) : World :=
  mkWorld (subscribers w) (als w) (probes w) ps (timers w)
          (fresh_symbol w) (fresh_promise w) (fresh_timer w).

Definition set_timers (ts : gmap nat Timer) (w : World) : World :=
  mkWorld (subscribers w) (als w) (probes w) (promises w) ts
          (fresh_symbol w) (fresh_promise w) (fresh_timer w).

Definition set_queue (q : list ProbeEvent) (p : Probe) : Probe :=
  mkProbe (opts p) (bufferSize p) (timeoutDefault p) (scope p) q (pending p).

Definition set_pending (ws : list Waiter) (p : Probe) : Probe :=
  mkProbe (opts p) (bufferSize p) (timeoutDefault p) (scope p) (queue p) ws.

(** ** Host primitives *)

(** [new Promise(...)]: a fresh promise in the given state. *)
Definition new_promise (st : PromiseState) (w : World) : promise_id * World :=
  (fresh_promise w,
   mkWorld (subscribers w) (als w) (probes w)
           (<[fresh_promise w := st]> (promises w)) (timers w)
           (fresh_symbol w) (S (fresh_promise w)) (fresh_timer w)).

(** [resolve(v)] / [reject(err)]: only a pending promise changes state. *)
Definition settle (pr : promise_id) (st : PromiseState)
    (ps : gmap nat PromiseState) : gmap nat PromiseState :=
  match ps !! pr with
  | Some Pending => <[pr := st]> ps
  | _ => ps
  end.

Definition resolve (pr : promise_id) (e : ProbeEvent) (w : World) : World :=
  set_promises (settle pr (Fulfilled e) (promises w)) w.

Definition reject (pr : promise_id) (err : Error) (w : World) : World :=
  set_promises (settle pr (Rejected err) (promises w)) w.

Definition setTimeout (cb : Timer) (w : World) : timer_id * World :=
  (fresh_timer w,
   mkWorld (subscribers w) (als w) (probes w) (promises w)
           (<[fresh_timer w := cb]> (timers w))
           (fresh_symbol w) (fresh_promise w) (S (fresh_timer w))).

Definition clearTimeout (t : timer_id) (w : World) : World :=
  set_timers (delete t (timers w)) w.

(** [Symbol('probe-scope')]. *)
Definition new_symbol (w : World) : symbol * World :=
  (fresh_symbol w,
   mkWorld (subscribers w) (als w) (probes w) (promises w) (timers w)
           (S (fresh_symbol w)) (fresh_promise w) (fresh_timer w)).

(** [als.run({ scope }, fn)] for a body that runs to completion: the cell
    holds [sc] during [fn] and the caller's value afterwards. *)
Definition als_run {A} (ctx : option symbol) (fn : World → A * World)
    (w : World) : A * World :=
  let saved := als w in
  let '(a, w') := fn (set_als ctx w) in
  (a, set_als saved w').

Definition currentScope (w : World) : option symbol := als w.

(** [try { c } catch { }]. *)
Definition try_catch (c : World → Completion unit * World)
    (w : World) : Completion unit * World :=
  match c w with
  | (Throw _, w') => (Normal tt, w')
  | r => r
  end.

(** [for (const s of xs) body(s)]: a throw leaves the loop. *)
Fixpoint for_of {X} (xs : list X) (body : X → World → Completion unit * World)
    (w : World) : Completion unit * World :=
  match xs with
  | [] => (Normal tt, w)
  | x :: rest =>
      match body x w with
      | (Normal _, w') => for_of rest body w'
      | (Throw err, w') => (Throw err, w')
      end
  end.

(** [xs.findIndex(pred)], with [None] for -1. *)
Fixpoint findIndex {X} (pred : X → bool) (xs : list X) : option nat :=
  match xs with
  | [] => None
  | x :: rest => if pred x then Some 0 else S <$> findIndex pred rest
  end.

(** [xs.splice(i, 1)], for the array left behind. *)
Definition splice1 {X} (i : nat) (xs : list X) : list X :=
  take i xs ++ drop (S i) xs.

(** [a ?? b]. *)
Definition nullish {X} (a : option X) (b : X) : X :=
  match a with Some x => x | None => b end.

(** ** The engine, [src/index.ts] *)

(** [opts?.filter && !opts.filter(ev)]: [Normal true] when the event is to be
    dropped, and the filter's exception when it throws. *)
Definition filtered_out (o : option Opts.t) (ev : ProbeEvent) : Completion bool :=
  match o ≫= Opts.filter with
  | None => Normal false
  | Some f =>
      match f ev with
      | Normal b => Normal (negb b)
      | Throw err => Throw err
      end
  end.

(** The delivery callback of the probe with scope [sc]. *)
Definition sub (sc : symbol) (e : InternalEvent) (w : World) : Completion unit * World :=
  match probes w !! sc with
  | None => (Normal tt, w)
  | Some p =>
      if bool_decide (__scope e ≠ Some (scope p)) then (Normal tt, w) else
      let ev := mkProbeEvent (e_label e) (e_value e) in
      match filtered_out (opts p) ev with
      | Throw err => (Throw err, w)
      | Normal true => (Normal tt, w)
      | Normal false =>
          match pending p with
          | wt :: rest =>
              let w := set_probe sc (set_pending rest p) w in
              let w := clearTimeout (timer wt) w in
              (Normal tt, resolve (promise wt) ev w)
          | [] =>
              let q := if length_ge (length (queue p)) (bufferSize p)
                       then tail (queue p) else queue p in
              (Normal tt, set_probe sc (set_queue (q ++ [ev]) p) w)
          end
      end
  end.

(** [next(timeoutMs?)]; the result is the promise it returns.  (A scope
    without a closure is no handle the engine gave out; the promise then
    stays pending.) *)
Definition next (sc : symbol) (timeoutMs : option Z) (w : World) : promise_id * World :=
  match probes w !! sc with
  | None => new_promise Pending w
  | Some p =>
      match queue p with
      | ev :: q =>
          let '(pr, w) := new_promise Pending w in
          let w := set_probe sc (set_queue q p) w in
          (pr, resolve pr ev w)
      | [] =>
          let '(pr, w) := new_promise Pending w in
          let ms := nullish timeoutMs (timeoutDefault p) in
          let '(t, w) := setTimeout (mkTimer sc pr ms) w in
          (pr, set_probe sc (set_pending (pending p ++ [mkWaiter pr t]) p) w)
      end
  end.

(** [new Error(`Probe timeout after ${ms}ms`)]. *)
Definition timeout_error (ms : Z) : Error :=
  mkError ("Probe timeout after " +:+ pretty ms +:+ "ms").

(** The host runs the callback of timer [t]; a timer that was cleared or has
    already fired runs nothing. *)
Definition fire (t : timer_id) (w : World) : World :=
  match timers w !! t with
  | None => w
  | Some cb =>
      let w := set_timers (delete t (timers w)) w in
      let w :=
        match probes w !! t_owner cb with
        | None => w
        | Some p =>
            match findIndex (λ x, bool_decide (promise x = t_promise cb)) (pending p) with
            | Some i => set_probe (t_owner cb) (set_pending (splice1 i (pending p)) p) w
            | None => w
            end
        end in
      reject (t_promise cb) (timeout_error (t_ms cb)) w
  end.

(** [new Error('Probe disposed')]. *)
Definition disposed_error : Error := mkError "Probe disposed".

(** [for (const p of pending.splice(0)) { clearTimeout(p.timer); p.reject(...) }],
    over the waiters taken out of [pending]. *)
Definition dispose_loop (w : World) (ws : list Waiter) : World :=
  foldl (λ w wt, reject (promise wt) disposed_error (clearTimeout (timer wt) w)) w ws.

(** [dispose()]: out of the registry, every waiter rejected with its timer
    cleared, the buffer emptied. *)
Definition dispose (sc : symbol) (w : World) : World :=
  match probes w !! sc with
  | None => w
  | Some p =>
      let w := set_subscribers (filter (λ s, s ≠ sc) <$> subscribers w) w in
      let w := set_probe sc (set_pending [] p) w in
      let w := dispose_loop w (pending p) in
      match probes w !! sc with
      | None => w
      | Some p => set_probe sc (set_queue [] p) w
      end
  end.

(** [run(fn)]: [als.run({ scope }, fn)]. *)
Definition run {A} (sc : symbol) (fn : World → A * World) (w : World) : A * World :=
  als_run (Some sc) fn w.

(** One step of the async iterator: [await next()]. *)
Definition iterator_next (sc : symbol) (w : World) : promise_id * World :=
  next sc None w.

(** The object [getProbe] returns: the closures of a probe, or the stub of a
    build without tests. *)
Inductive Handle :=
  | StubHandle
  | ProbeHandle (sc : symbol).

Definition outside_tests_error : Error := mkError "getProbe() used outside tests".

(** [const fail = async () => { throw ... }]: a promise rejected at once. *)
Definition fail (w : World) : promise_id * World :=
  new_promise (Rejected outside_tests_error) w.

Section Build.
(** [declare const __TEST__: boolean], fixed by the build. *)
Variable __TEST__ : bool.

Definition _emitImpl (l : string) (v : Value) (w : World) : Completion unit * World :=
  if __TEST__ then
    match subscribers w with
    | None => (Normal tt, w)
    | Some [] => (Normal tt, w)
    | Some subs =>
        let e := mkInternalEvent l v (currentScope w) in
        for_of subs (λ s, try_catch (sub s e)) w
    end
  else (Normal tt, w).

Definition probeEmit := _emitImpl.

Definition getProbe (o : option Opts.t) (w : World) : Completion Handle * World :=
  if negb __TEST__ then (Normal StubHandle, w) else
  let w := match subscribers w with
           | None => set_subscribers (Some []) w
           | Some _ => w
           end in
  let bufferSize := nullish (o ≫= Opts.bufferSize) (integer 100) in
  let timeoutDefault := nullish (o ≫= Opts.timeoutMs) 1000%Z in
  let '(sc, w) := new_symbol w in
  let w := set_probe sc (mkProbe o bufferSize timeoutDefault sc [] []) w in
  let subs := nullish (subscribers w) [] in
  let w := if bool_decide (sc ∈ subs) then w
           else set_subscribers (Some (subs ++ [sc])) w in
  (Normal (ProbeHandle sc), w).
End Build.

(** The methods of a handle. *)
Definition handle_next (h : Handle) (timeoutMs : option Z) (w : World) : promise_id * World :=
  match h with
  | StubHandle => fail w
  | ProbeHandle sc => next sc timeoutMs w
  end.

Definition handle_dispose (h : Handle) (w : World) : World :=
  match h with
  | StubHandle => w
  | ProbeHandle sc => dispose sc w
  end.

Definition handle_run {A} (h : Handle) (fn : World → A * World) (w : World) : A * World :=
  match h with
  | StubHandle => fn w
  | ProbeHandle sc => run sc fn w
  end.

Definition handle_iterator_next (h : Handle) (w : World) : promise_id * World :=
  match h with
  | StubHandle => fail w
  | ProbeHandle sc => iterator_next sc w
  end.

(** ** The browser stub, [src/browser.ts] *)
Module Browser.
Definition probeEmit (l : string) (v : Value) (w : World) : Completion unit * World :=
  (Normal tt, w).

Definition getProbe_error : Error :=
  mkError "vitest-probe: getProbe() is Node‑only and cannot be used in the browser.".

Definition getProbe (w : World) : Completion Handle * World :=
  (Throw getProbe_error, w).
End Browser.

(** ** Runs of the engine

    What test code and the host can do to a test build, one completed call
    at a time.  An emission carries the context it runs in: the scope of the
    [run] call it is a continuation of, or none. *)
Inductive op :=
  | OGetProbe (o : option Opts.t)
  | OEmit (ctx : option symbol) (l : string) (v : Value)
  | ONext (sc : symbol) (timeoutMs : option Z)
  | ODispose (sc : symbol)
  | OFire (t : timer_id).

(** [probeEmit(l, v)] called where the ambient context is [ctx]. *)
Definition emit_in (ctx : option symbol) (l : string) (v : Value) (w : World) : World :=
  snd (als_run ctx (probeEmit true l v) w).

(** One operation, and a run of them from left to right. *)
Definition step (o : op) (w : World) : World :=
  match o with
  | OGetProbe o => snd (getProbe true o w)
  | OEmit ctx l v => emit_in ctx l v w
  | ONext sc ms => snd (next sc ms w)
  | ODispose sc => dispose sc w
  | OFire t => fire t w
  end.

Definition exec (tr : list op) (w : World) : World := foldl (flip step) w tr.

(** Several emissions in the scope of one probe, and several [next] calls in
    a row. *)
Definition emits (sc : symbol) (es : list ProbeEvent) (w : World) : World :=
  foldl (λ w e, emit_in (Some sc) (label e) (value e) w) w es.

Fixpoint nexts (sc : symbol) (n : nat) (w : World) : list promise_id * World :=
  match n with
  | 0 => ([], w)
  | S n =>
      let '(pr, w) := next sc None w in
      let '(prs, w) := nexts sc n w in
      (pr :: prs, w)
  end.

(** The promises returned by the [next] calls a run makes on probe [sc], in
    call order. *)
Fixpoint calls_of (sc : symbol) (tr : list op) (w : World) : list promise_id :=
  match tr with
  | [] => []
  | o :: tr =>
      match o with
      | ONext sc' ms => if bool_decide (sc' = sc) then [fst (next sc' ms w)] else []
      | _ => []
      end ++ calls_of sc tr (step o w)
  end.

(** The events a run emits in the scope of probe [sc], in emission order. *)
Definition emitted (sc : symbol) (tr : list op) : list ProbeEvent :=
  omap (λ o, match o with
             | OEmit (Some sc') l v =>
                 if bool_decide (sc' = sc) then Some (mkProbeEvent l v) else None
             | _ => None
             end) tr.

(** The event a promise was resolved with, if it was. *)
Definition fulfilled_with (w : World) (pr : promise_id) : option ProbeEvent :=
  match promises w !! pr with
  | Some (Fulfilled e) => Some e
  | _ => None
  end.

(** What the listed calls have resolved to, in call order. *)
Definition received (calls : list promise_id) (w : World) : list ProbeEvent :=
  omap (fulfilled_with w) calls.

(** Operations that cannot take the waiter with timer [t] away from probe
    [sc] by themselves: all but disposing the probe and the firing of [t]. *)
Definition spares (sc : symbol) (t : timer_id) (o : op) : bool :=
  match o with
  | ODispose sc' => bool_decide (sc' ≠ sc)
  | OFire t' => bool_decide (t' ≠ t)
  | _ => true
  end.

(** Operations that emit nothing in the scope of probe [sc]. *)
Definition silent (sc : symbol) (o : op) : bool :=
  match o with
  | OEmit (Some sc') _ _ => bool_decide (sc' ≠ sc)
  | _ => true
  end.

(** A filter that says no to every event. *)
Definition rejects_all (p : Probe) : Prop :=
  ∀ ev, filtered_out (opts p) ev = Normal true.

(** ** Invariants *)

(** [buffer] and [pending] are never both non-empty. *)
Definition exclusive (w : World) : Prop :=
  ∀ sc p, probes w !! sc = Some p → queue p = [] ∨ pending p = [].

(** An accepted event: the filter, if any, returns true on it. *)
Definition accepts (p : Probe) (ev : ProbeEvent) : Prop :=
  filtered_out (opts p) ev = Normal false.

(** The least length from which [length_ge] holds, if there is one: the
    ceiling of a finite number. *)
Definition evict_from (b : number) : option Z :=
  match b with
  | Finite q => Some (Qceiling q)
  | NegInfinity => Some 0%Z
  | PosInfinity | NaN => None
  end.

Definition queue_bounded (b : number) (q : list ProbeEvent) : Prop :=
  ∀ t, evict_from b = Some t → (Z.of_nat (length q) ≤ Z.max 1 t)%Z.

(** Every closure is stored under its own scope. *)
Definition scopes_ok (w : World) : Prop :=
  ∀ sc p, probes w !! sc = Some p → scope p = sc.

(** The shape of every world the engine can reach: waiters and live timers
    correspond one to one, a waiter's promise is pending and belongs to no
    other waiter, the allocators are ahead of everything allocated, and a
    buffer holds accepted events only, and no more than one beyond the
    length at which a push starts to evict. *)
Record wf (w : World) : Prop := mk_wf {
  wf_scope : scopes_ok w;
  wf_symbol_fresh : ∀ sc, is_Some (probes w !! sc) → sc < fresh_symbol w;
  wf_subscribed : ∀ subs sc, subscribers w = Some subs → sc ∈ subs → is_Some (probes w !! sc);
  wf_subs_nodup : ∀ subs, subscribers w = Some subs → NoDup subs;
  wf_waiter_timer : ∀ sc p wt, probes w !! sc = Some p → wt ∈ pending p →
    ∃ ms, timers w !! timer wt = Some (mkTimer sc (promise wt) ms);
  wf_timer_waiter : ∀ t cb, timers w !! t = Some cb →
    ∃ p, probes w !! t_owner cb = Some p ∧ mkWaiter (t_promise cb) t ∈ pending p;
  wf_timer_promise : ∀ t cb, timers w !! t = Some cb →
    promises w !! t_promise cb = Some Pending;
  wf_promise_inj : ∀ t1 t2 cb1 cb2, timers w !! t1 = Some cb1 → timers w !! t2 = Some cb2 →
    t_promise cb1 = t_promise cb2 → t1 = t2;
  wf_pending_sorted : ∀ sc p, probes w !! sc = Some p →
    StronglySorted lt (promise <$> pending p);
  wf_promise_fresh : ∀ pr, is_Some (promises w !! pr) → pr < fresh_promise w;
  wf_timer_fresh : ∀ t, is_Some (timers w !! t) → t < fresh_timer w;
  wf_exclusive : exclusive w;
  wf_queue_accepted : ∀ sc p, probes w !! sc = Some p → Forall (accepts p) (queue p);
  wf_queue_bound : ∀ sc p, probes w !! sc = Some p →
    queue_bounded (bufferSize p) (queue p)
}.

(** The worlds a test build reaches from the start of the process. *)
Definition reachable (w : World) : Prop := ∃ tr, w = exec tr init_world.

(** The callback of probe [sc] is in the registry. *)
Definition subscribed (sc : symbol) (w : World) : Prop :=
  ∃ subs, subscribers w = Some subs ∧ sc ∈ subs.

(** What links the calls made so far on probe [sc] (their promises [cs], in
    call order) to the events [E] emitted so far in its scope: what the calls
    have received followed by what is buffered is a subsequence of [E]; no
    call younger than a waiter has received anything; and a call that is
    still pending is a waiter. *)
Record fifo_inv (sc : symbol) (w : World) (cs : list promise_id)
    (E : list ProbeEvent) : Prop := mk_fifo_inv {
  fi_wf : wf w;
  fi_probe : is_Some (probes w !! sc);
  fi_order : ∀ p, probes w !! sc = Some p → received cs w ++ queue p `sublist_of` E;
  fi_tail : ∀ p wt pr, probes w !! sc = Some p → wt ∈ pending p → pr ∈ cs →
    promise wt ≤ pr → fulfilled_with w pr = None;
  fi_fresh : ∀ pr, pr ∈ cs → pr < fresh_promise w;
  fi_pending : ∀ p pr, probes w !! sc = Some p → pr ∈ cs →
    promises w !! pr = Some Pending → pr ∈ promise <$> pending p;
  fi_sorted : StronglySorted lt cs
}.

(** Operations that do not dispose probe [sc]. *)
Definition keeps (sc : symbol) (o : op) : bool :=
  match o with
  | ODispose sc' => bool_decide (sc' ≠ sc)
  | _ => true
  end.

(** Nothing was lost so far: the probe, of options [o0] and buffer size [N],
    is registered, its waiters are calls of the run, and what the calls have
    received followed by what is buffered is exactly [E]. *)
Definition lossless_inv (sc : symbol) (o0 : option Opts.t) (N : number) (w : World)
    (cs : list promise_id) (E : list ProbeEvent) : Prop :=
  fifo_inv sc w cs E ∧ subscribed sc w ∧
  ∃ p, probes w !! sc = Some p ∧ opts p = o0 ∧ bufferSize p = N ∧
       received cs w ++ queue p = E ∧
       ∀ wt, wt ∈ pending p → promise wt ∈ cs.

(** The ways a call of [sub] can go: it ignores the event (wrong scope, or
    the filter said no), the filter throws, the oldest waiter gets the event,
    or the event is buffered. *)
Inductive sub_case (sc : symbol) (e : InternalEvent) (w : World) : Prop :=
  | SubIgnored :
      sub sc e w = (Normal tt, w) → sub_case sc e w
  | SubThrows err :
      sub sc e w = (Throw err, w) → sub_case sc e w
  | SubHandoff p wt rest :
      probes w !! sc = Some p → __scope e = Some (scope p) →
      accepts p (mkProbeEvent (e_label e) (e_value e)) →
      pending p = wt :: rest → sub_case sc e w
  | SubBuffer p :
      probes w !! sc = Some p → __scope e = Some (scope p) →
      accepts p (mkProbeEvent (e_label e) (e_value e)) →
      pending p = [] → sub_case sc e w.

Global Instance Waiter_eq_dec : EqDecision Waiter.
Proof. solve_decision. Defined.

Global Instance Value_eq_dec : EqDecision Value.
Proof. solve_decision. Defined.

Global Instance ProbeEvent_eq_dec : EqDecision ProbeEvent.
Proof. solve_decision. Defined.

(** ** Scenarios *)

(** Options: a default time-out of 50 ms; a filter that turns every event
    down; a buffer of [n] events. *)
Definition probe50 : option Opts.t := Some (Opts.mk (Some 50%Z) None None).

Definition never : option Opts.t :=
  Some (Opts.mk (Some 50%Z) (Some (λ _, Normal false)) None).

Definition buffer_of (n : Z) : option Opts.t :=
  Some (Opts.mk None None (Some (integer n))).

(** A probe whose filter throws, registered before a probe without filter. *)
Definition throwing_first : World :=
  exec [OGetProbe (Some (Opts.mk None (Some (λ _, Throw (mkError "boom"))) None));
        OGetProbe None] init_world.

(** One probe with two [next] calls waiting. *)
Definition two_waiters : World :=
  exec [OGetProbe None; ONext 0 None; ONext 0 (Some 5%Z)] init_world.

(** Two probes, the second with a [next] call waiting. *)
Definition two_probes : World :=
  exec [OGetProbe None; OGetProbe None; ONext 1 None] init_world.

Definition ev_a : ProbeEvent := mkProbeEvent "t" (VString "a").
Definition ev_b : ProbeEvent := mkProbeEvent "t" (VString "b").

(** A probe with a buffer of two that has seen three events, and a probe
    with one [next] call waiting. *)
Definition three_into_two : World :=
  exec [OGetProbe (buffer_of 2); OEmit (Some 0) "x" (VNumber 1);
        OEmit (Some 0) "x" (VNumber 2); OEmit (Some 0) "x" (VNumber 3)] init_world.

(** Options with any number as [bufferSize], and the probe above with a
    [bufferSize] of 1.5. *)
Definition buffer_of_number (b : number) : option Opts.t :=
  Some (Opts.mk None None (Some b)).

Definition three_into_half : World :=
  exec [OGetProbe (buffer_of_number (Finite (3 # 2))); OEmit (Some 0) "x" (VNumber 1);
        OEmit (Some 0) "x" (VNumber 2); OEmit (Some 0) "x" (VNumber 3)] init_world.

Definition one_waiter : World := exec [OGetProbe None; ONext 0 None] init_world.

Definition ev_x (n : Z) : ProbeEvent := mkProbeEvent "x" (VNumber n).

(** A filter that lets the values 1 and 3 through, and a probe with it that
    has seen 2 and 3. *)
Definition odd_only : option Opts.t :=
  Some (Opts.mk None
          (Some (λ e, Normal (bool_decide (value e = VNumber 1 ∨ value e = VNumber 3))))
          None).

Definition seen_two_three : World :=
  exec [OGetProbe odd_only; OEmit (Some 0) "x" (VNumber 2);
        OEmit (Some 0) "x" (VNumber 3)] init_world.

(** A run on a fresh probe in which one call is served at once, one times
    out, and two events are buffered before the last call. *)
Definition busy_run : list op :=
  [ONext 0 None; OEmit (Some 0) "x" (VNumber 1); ONext 0 (Some 5%Z); OFire 1;
   OEmit (Some 0) "x" (VNumber 2); OEmit (Some 0) "x" (VNumber 3); ONext 0 None].

(** * The build plugin ([src/directive.ts])

    The plugin rewrites full-line directives [// #probe(...)] into calls and
    adds the import of [probeEmit].  A string is its sequence of characters.
    What the host computes is taken as given: the working directory and the
    [node:path] functions, the matches [lineRe] finds in a source text, and
    the text a [MagicString] makes of the edits it is asked for; [transform]
    returns those edits. *)
Module Directive.

(** ** Host strings *)

(** [s.startsWith(p)], [s.includes(sub)], [s.endsWith(suf)]. *)
Fixpoint startsWith (p s : string) : bool :=
  match p, s with
  | EmptyString, _ => true
  | String a p', String b s' => Ascii.eqb a b && startsWith p' s'
  | String _ _, EmptyString => false
  end.

Fixpoint includes (sub s : string) : bool :=
  startsWith sub s ||
  match s with
  | String _ s' => includes sub s'
  | EmptyString => false
  end.

Fixpoint endsWith (suf s : string) : bool :=
  String.eqb suf s ||
  match s with
  | String _ s' => endsWith suf s'
  | EmptyString => false
  end.

(** [s.indexOf(c)] for a one-character [c]: [-1] when [c] does not occur. *)
Fixpoint indexOf (c : Ascii.ascii) (s : string) : Z :=
  match s with
  | EmptyString => -1
  | String a s' =>
      if Ascii.eqb a c then 0
      else let i := indexOf c s' in if (i <? 0)%Z then -1 else i + 1
  end%Z.

(** [s.split(c)[0]]: what comes before the first [c]. *)
Fixpoint split_head (c : Ascii.ascii) (s : string) : string :=
  match s with
  | EmptyString => EmptyString
  | String a s' => if Ascii.eqb a c then EmptyString else String a (split_head c s')
  end.

(** [s.replace(/c/g, d)] for one-character [c] and [d]. *)
Fixpoint replace_all (c d : Ascii.ascii) (s : string) : string :=
  match s with
  | EmptyString => EmptyString
  | String a s' => String (if Ascii.eqb a c then d else a) (replace_all c d s')
  end.

(** ** Regular expressions without repetition

    Enough of the pattern language for [extsRE]; [matcher r s k] holds when
    [r] matches a prefix of the rest [s] of the input and [k] accepts what
    is left, and [test] tries every start position, as [RegExp.prototype.test]
    does for a pattern without flags. *)
Inductive regex :=
  | Chr (c : Ascii.ascii)
  | Seq (r1 r2 : regex)
  | Alt (r1 r2 : regex)
  | Opt (r : regex)
  | Eol.

Fixpoint matcher (r : regex) (s : string) (k : string → bool) : bool :=
  match r with
  | Chr c =>
      match s with
      | String a s' => Ascii.eqb a c && k s'
      | EmptyString => false
      end
  | Seq r1 r2 => matcher r1 s (λ s', matcher r2 s' k)
  | Alt r1 r2 => matcher r1 s k || matcher r2 s k
  | Opt r => matcher r s k || k s
  | Eol =>
      match s with
      | EmptyString => k s
      | String _ _ => false
      end
  end.

Fixpoint test (r : regex) (s : string) : bool :=
  matcher r s (λ _, true) ||
  match s with
  | String _ s' => test r s'
  | EmptyString => false
  end.

(** ** Module-level helpers *)

(** [/\.(m|c)?(t|j)sx?$/] *)
Definition extsRE : regex :=
  Seq (Chr ".") (Seq (Opt (Alt (Chr "m") (Chr "c")))
    (Seq (Alt (Chr "t") (Chr "j")) (Seq (Chr "s") (Seq (Opt (Chr "x")) Eol))))%char.

Definition norm (p : string) : string := replace_all "\"%char "/"%char p.

Definition isVirtual (id : string) : bool :=
  startsWith (String Ascii.zero EmptyString) id || includes "?" id.

Definition cleanId (id : string) : string := split_head "?"%char id.

(** ** The plugin *)

(** [include] is a function, a regular expression or a string; [exclude] a
    regular expression or a function.  A user function and the [test] of a
    user expression are taken to be functions of the id alone (the
    expression carries no [g] or [y] flag). *)
Inductive IncludeOpt :=
  | IncludeFn (f : string → bool)
  | IncludeRe (re_test : string → bool)
  | IncludeStr (s : string).

Inductive ExcludeOpt :=
  | ExcludeRe (re_test : string → bool)
  | ExcludeFn (f : string → bool).

Record ProbeDirectiveOptions := mkOptions {
  probeIdent : option string;
  directive : option string;
  include : option IncludeOpt;
  exclude : option ExcludeOpt;
  keepDefaultExcludes : option bool
}.

(** One result of [lineRe.exec(code)]: [m.index], [lineRe.lastIndex] after
    it, and the two groups. *)
Record Match := mkMatch {
  m_index : nat;
  m_lastIndex : nat;
  m_1 : option string;
  m_2 : option string
}.

(** The calls [transform] makes on its [MagicString]. *)
Inductive Edit :=
  | Overwrite (start stop : nat) (content : string)
  | AppendLeft (index : nat) (content : string).

Definition newline : string := String "010"%char EmptyString.

(** [code.startsWith('#!') ? (code.indexOf('\n') + 1 || 0) : 0] *)
Definition shebangEnd (code : string) : Z :=
  if startsWith "#!" code
  then let i := (indexOf "010"%char code + 1)%Z in if (i =? 0)%Z then 0%Z else i
  else 0%Z.

Definition defaultExcludePred (id : string) : bool :=
  includes "/node_modules/" (norm id) || isVirtual id.

Section plugin.
(** The host: [process.cwd()], [path.isAbsolute], [path.join]; and the
    successive results of [lineRe.exec] on a source text, up to the [null]
    that ends the loop (the pattern is built from [opts.directive]). *)
Variable process_cwd : string.
Variable path_isAbsolute : string → bool.
Variable path_join : string → string → string.
Variable lineRe_exec : string → list Match.
Variable opts : ProbeDirectiveOptions.

Definition probeIdent' : string := nullish (probeIdent opts) "__PROBE__".
Definition cwd : string := norm process_cwd.

Definition includePred (id : string) : bool :=
  match include opts with
  | Some (IncludeFn f) => f id
  | Some (IncludeRe re_test) => re_test (norm id)
  | Some (IncludeStr inc) =>
      let base := norm (if path_isAbsolute inc then inc else path_join cwd inc) in
      let baseWithSlash := if endsWith "/" base then base else base +:+ "/" in
      test extsRE id && startsWith baseWithSlash (norm id)
  | None =>
      let base := norm (path_join cwd "src" +:+ "/") in
      test extsRE id && startsWith base (norm id)
  end.

Definition userExcludePred (id : string) : bool :=
  match exclude opts with
  | Some (ExcludeRe re_test) => re_test (norm id)
  | Some (ExcludeFn f) => f id
  | None => false
  end.

Definition keepDefaults : bool := nullish (keepDefaultExcludes opts) true.

Definition excludePred (id : string) : bool :=
  if keepDefaults then defaultExcludePred id || userExcludePred id
  else userExcludePred id.

Definition rewrite_call (m : Match) : Edit :=
  Overwrite (m_index m) (m_lastIndex m)
    (nullish (m_1 m) "" +:+ probeIdent' +:+ "(" +:+ nullish (m_2 m) "" +:+ ");").

Definition import_line : string :=
  "import { probeEmit as " +:+ probeIdent' +:+ " } from 'vitest-probe';" +:+ newline.

(** [transform(code, id)] with the set [injected] it closes over: the edits
    whose result it returns ([None] for [undefined]), and the set after it. *)
Definition transform (code id : string) (injected : gset string)
    : option (list Edit) * gset string :=
  if negb (test extsRE id) then (None, injected) else
  if negb (includePred id) || excludePred id then (None, injected) else
  let ms := lineRe_exec code in
  let edits := rewrite_call <$> ms in
  if bool_decide (ms = []) then (None, injected) else
  let cid := cleanId id in
  if bool_decide (cid ∉ injected)
  then (Some (edits ++ [AppendLeft (Z.to_nat (shebangEnd code)) import_line]),
        {[cid]} ∪ injected)
  else (Some edits, injected).

(** Successive calls of [transform] on one plugin instance. *)
Fixpoint transforms (calls : list (string * string)) (injected : gset string)
    : list (option (list Edit)) * gset string :=
  match calls with
  | [] => ([], injected)
  | (code, id) :: rest =>
      let '(r, injected) := transform code id injected in
      let '(rs, injected) := transforms rest injected in
      (r :: rs, injected)
  end.

End plugin.

End Directive.

(** The twelve endings [extsRE] stands for. *)
Definition script_extensions : list string :=
  [".ts"; ".js"; ".tsx"; ".jsx"; ".mts"; ".mjs"; ".mtsx"; ".mjsx";
   ".cts"; ".cjs"; ".ctsx"; ".cjsx"].

(** A pattern that names neither slash. *)
Fixpoint slash_free (r : Directive.regex) : bool :=
  match r with
  | Directive.Chr c => negb (Ascii.eqb c "\") && negb (Ascii.eqb c "/")
  | Directive.Seq r1 r2 | Directive.Alt r1 r2 => slash_free r1 && slash_free r2
  | Directive.Opt r => slash_free r
  | Directive.Eol => true
  end.

(** Does a result carry the import line? *)
Definition is_append (e : Directive.Edit) : bool :=
  match e with
  | Directive.AppendLeft _ _ => true
  | Directive.Overwrite _ _ _ => false
  end.

Definition has_import (r : option (list Directive.Edit)) : bool :=
  match r with
  | Some edits => existsb is_append edits
  | None => false
  end.

(** A POSIX host, a source text of one directive line with the match
    [lineRe] finds in it, and two passes over one file. *)
Definition posix_isAbsolute (p : string) : bool := Directive.startsWith "/" p.
Definition join_segments (a b : string) : string := a +:+ "/" +:+ b.
Definition one_directive : string := "// #probe('seen', 1)".
Definition exec_one (code : string) : list Directive.Match :=
  if String.eqb code one_directive
  then [Directive.mkMatch 0 20 (Some "") (Some "'seen', 1")]
  else [].
Definition default_options : Directive.ProbeDirectiveOptions :=
  Directive.mkOptions None None None None None.
Definition two_passes : list (string * string) :=
  [(one_directive, "/work/src/a.ts"); (one_directive, "/work/src/a.ts")].
Definition rewritten : Directive.Edit :=
  Directive.Overwrite 0 20 "__PROBE__('seen', 1);".
Definition imported : Directive.Edit :=
  Directive.AppendLeft 0
    ("import { probeEmit as __PROBE__ } from 'vitest-probe';" +:+ Directive.newline).

(** * Properties *)

(** ** Numbers against lengths *)

Lemma length_ge_spec n b :
  length_ge n b
  = match evict_from b with
    | Some t => bool_decide (t ≤ Z.of_nat n)%Z
    | None => false
    end.
Proof.
  destruct b as [q| | |]; simpl; [|done|by rewrite bool_decide_true by lia|done].
  apply eq_true_iff_eq. rewrite Qle_bool_iff, bool_decide_eq_true. split.
  - intros H. apply Qceiling_resp_le in H. by rewrite Qceiling_Z in H.
  - intros H. eapply Qle_trans; [apply Qle_ceiling|]. by rewrite Zle_Qle in H.
Qed.

Lemma length_ge_integer n z :
  length_ge n (integer z) = bool_decide (z ≤ Z.of_nat n)%Z.
Proof. rewrite length_ge_spec. simpl. by rewrite Qceiling_Z. Qed.

Lemma length_ge_mono n m b : n ≤ m → length_ge n b = true → length_ge m b = true.
Proof.
  rewrite !length_ge_spec. destruct (evict_from b); [|done].
  rewrite !bool_decide_eq_true. lia.
Qed.

Lemma queue_bounded_le b (q q' : list ProbeEvent) :
  length q' ≤ length q → queue_bounded b q → queue_bounded b q'.
Proof. intros Hle H t Ht. specialize (H t Ht). lia. Qed.

Lemma queue_bounded_nil b : queue_bounded b [].
Proof. intros t _. simpl. lia. Qed.

(** What a push makes of a bounded buffer is bounded. *)
Lemma queue_bounded_push b (q : list ProbeEvent) ev :
  queue_bounded b q →
  queue_bounded b ((if length_ge (length q) b then tail q else q) ++ [ev]).
Proof.
  intros H t Ht. specialize (H t Ht). rewrite length_ge_spec, Ht.
  case_bool_decide; rewrite length_app; simpl; [|lia].
  destruct q; simpl in *; lia.
Qed.

Lemma length_le_mono n m b : n ≤ m → length_le m b = true → length_le n b = true.
Proof.
  intros Hnm. destruct b as [q| | |]; simpl; try done.
  rewrite !Qle_bool_iff. intros H. eapply Qle_trans; [|exact H].
  rewrite <-Zle_Qle. lia.
Qed.

(** A length that is at most [b] is below [b] once diminished by one. *)
Lemma length_le_not_ge n b : length_le (S n) b = true → length_ge n b = false.
Proof.
  destruct b as [q| | |]; simpl; try done.
  rewrite Qle_bool_iff. intros H. apply not_true_is_false.
  rewrite Qle_bool_iff. intros H'.
  pose proof (Qle_trans _ _ _ H H') as H''. rewrite <-Zle_Qle in H''. lia.
Qed.

(** ** Promises *)

Lemma settle_lookup_ne pr pr' st (ps : gmap nat PromiseState) :
  pr ≠ pr' → settle pr st ps !! pr' = ps !! pr'.
Proof.
  intros Hne. unfold settle.
  destruct (ps !! pr) as [[| |]|]; try done.
  by rewrite lookup_insert_ne.
Qed.

Lemma settle_lookup_pending pr st (ps : gmap nat PromiseState) :
  ps !! pr = Some Pending → settle pr st ps !! pr = Some st.
Proof. intros H. unfold settle. rewrite H. apply lookup_insert_eq. Qed.

Lemma settle_settled pr st (ps : gmap nat PromiseState) :
  ps !! pr ≠ Some Pending → settle pr st ps = ps.
Proof. intros H. unfold settle. by destruct (ps !! pr) as [[| |]|]. Qed.

Lemma settle_is_Some pr st (ps : gmap nat PromiseState) x :
  is_Some (settle pr st ps !! x) ↔ is_Some (ps !! x).
Proof.
  unfold settle. destruct (ps !! pr) as [[| |]|] eqn:E; try done.
  destruct (decide (pr = x)) as [->|Hne].
  - rewrite lookup_insert_eq, E. split; eauto.
  - by rewrite lookup_insert_ne.
Qed.

(** A settled promise keeps its state for ever. *)
Lemma settle_keeps pr st (ps : gmap nat PromiseState) x s :
  ps !! x = Some s → s ≠ Pending → settle pr st ps !! x = Some s.
Proof.
  intros Hx Hs. destruct (decide (pr = x)) as [->|Hne].
  - rewrite settle_settled; [done|]. rewrite Hx. congruence.
  - by rewrite settle_lookup_ne.
Qed.

(** ** The broadcast loop *)

(** With every call wrapped in [try]/[catch], the loop runs every callback,
    in order, each on the state the one before left, and ends normally. *)
Lemma for_of_try_catch {X} (xs : list X) (body : X → World → Completion unit * World) w :
  for_of xs (λ x, try_catch (body x)) w
  = (Normal tt, foldl (λ w x, snd (body x w)) w xs).
Proof.
  revert w. induction xs as [|x xs IH]; intros w; simpl; [done|].
  unfold try_catch at 1. destruct (body x w) as [[[]|err] w']; simpl; apply IH.
Qed.

Lemma for_of_throw {X} (x : X) (xs : list X) body w err w' :
  body x w = (Throw err, w') → for_of (x :: xs) body w = (Throw err, w').
Proof. intros H. simpl. by rewrite H. Qed.

Lemma set_als_restore w c : set_als (als w) (set_als c w) = w.
Proof. by destruct w. Qed.

(** ** The delivery callback, case by case *)

Lemma sub_unknown sc e w : probes w !! sc = None → sub sc e w = (Normal tt, w).
Proof. intros H. unfold sub. by rewrite H. Qed.

Lemma sub_other_scope sc e w p :
  probes w !! sc = Some p → __scope e ≠ Some (scope p) → sub sc e w = (Normal tt, w).
Proof. intros H Hs. unfold sub. rewrite H. by rewrite bool_decide_true. Qed.

Lemma sub_filtered sc e w p :
  probes w !! sc = Some p → __scope e = Some (scope p) →
  filtered_out (opts p) (mkProbeEvent (e_label e) (e_value e)) = Normal true →
  sub sc e w = (Normal tt, w).
Proof.
  intros H Hs Hf. unfold sub. rewrite H.
  rewrite bool_decide_false by (intros Hn; by apply Hn). by rewrite Hf.
Qed.

Lemma sub_filter_throws sc e w p err :
  probes w !! sc = Some p → __scope e = Some (scope p) →
  filtered_out (opts p) (mkProbeEvent (e_label e) (e_value e)) = Throw err →
  sub sc e w = (Throw err, w).
Proof.
  intros H Hs Hf. unfold sub. rewrite H.
  rewrite bool_decide_false by (intros Hn; by apply Hn). by rewrite Hf.
Qed.

Lemma sub_handoff sc e w p wt rest :
  probes w !! sc = Some p → __scope e = Some (scope p) →
  accepts p (mkProbeEvent (e_label e) (e_value e)) →
  pending p = wt :: rest →
  sub sc e w =
    (Normal tt,
     resolve (promise wt) (mkProbeEvent (e_label e) (e_value e))
       (clearTimeout (timer wt) (set_probe sc (set_pending rest p) w))).
Proof.
  intros H Hs Hf Hp. unfold sub. rewrite H.
  rewrite bool_decide_false by (intros Hn; by apply Hn).
  unfold accepts in Hf. by rewrite Hf, Hp.
Qed.

Lemma sub_buffer sc e w p :
  probes w !! sc = Some p → __scope e = Some (scope p) →
  accepts p (mkProbeEvent (e_label e) (e_value e)) →
  pending p = [] →
  sub sc e w =
    (Normal tt,
     set_probe sc
       (set_queue ((if length_ge (length (queue p)) (bufferSize p)
                    then tail (queue p) else queue p)
                   ++ [mkProbeEvent (e_label e) (e_value e)]) p) w).
Proof.
  intros H Hs Hf Hp. unfold sub. rewrite H.
  rewrite bool_decide_false by (intros Hn; by apply Hn).
  unfold accepts in Hf. by rewrite Hf, Hp.
Qed.

Lemma sub_cases sc e w : sub_case sc e w.
Proof.
  destruct (probes w !! sc) as [p|] eqn:Hp.
  2: { apply SubIgnored. by apply sub_unknown. }
  destruct (decide (__scope e = Some (scope p))) as [Hs|Hs].
  2: { apply SubIgnored. by eapply sub_other_scope. }
  destruct (filtered_out (opts p) (mkProbeEvent (e_label e) (e_value e)))
    as [[|]|err] eqn:Hf.
  - apply SubIgnored. by eapply sub_filtered.
  - destruct (pending p) as [|wt rest] eqn:Hq.
    + by eapply SubBuffer.
    + by eapply SubHandoff.
  - eapply SubThrows. by eapply sub_filter_throws.
Qed.

(** ** Well-formed worlds *)

Lemma StronglySorted_sublist {A} (R : relation A) (l k : list A) :
  l `sublist_of` k → StronglySorted R k → StronglySorted R l.
Proof.
  induction 1 as [|x l k Hlk IH|x l k Hlk IH]; intros Hs.
  - constructor.
  - apply StronglySorted_inv in Hs as [Hs Hall]. constructor; [by apply IH|].
    rewrite Forall_forall in Hall |- *. intros y Hy. apply Hall.
    by eapply elem_of_sublist.
  - apply StronglySorted_inv in Hs as [Hs _]. by apply IH.
Qed.

Lemma sorted_promise_inj (ws : list Waiter) wt1 wt2 :
  StronglySorted lt (promise <$> ws) → wt1 ∈ ws → wt2 ∈ ws →
  promise wt1 = promise wt2 → wt1 = wt2.
Proof.
  induction ws as [|w0 ws IH]; intros Hs H1 H2 Heq; [by apply elem_of_nil in H1|].
  rewrite fmap_cons in Hs. apply StronglySorted_inv in Hs as [Hs Hall].
  rewrite Forall_forall in Hall.
  apply elem_of_cons in H1 as [->|H1]; apply elem_of_cons in H2 as [->|H2].
  - done.
  - exfalso. assert (promise w0 < promise wt2); [|lia].
    apply Hall. by apply list_elem_of_fmap_2.
  - exfalso. assert (promise w0 < promise wt1); [|lia].
    apply Hall. by apply list_elem_of_fmap_2.
  - by apply IH.
Qed.

Lemma wf_init : wf init_world.
Proof.
  split; unfold scopes_ok, exclusive; simpl; intros;
    try (by rewrite lookup_empty in *);
    try (match goal with H : is_Some (∅ !! _) |- _ =>
           rewrite lookup_empty in H; by destruct H end);
    try done.
Qed.

(** Two waiters with the same timer are the same waiter. *)
Lemma wf_timer_inj w sc p wt1 wt2 :
  wf w → probes w !! sc = Some p → wt1 ∈ pending p → wt2 ∈ pending p →
  timer wt1 = timer wt2 → wt1 = wt2.
Proof.
  intros Hwf Hp H1 H2 Heq.
  destruct (wf_waiter_timer _ Hwf _ _ _ Hp H1) as [ms1 E1].
  destruct (wf_waiter_timer _ Hwf _ _ _ Hp H2) as [ms2 E2].
  rewrite Heq, E2 in E1. injection E1 as Hpr _.
  eapply sorted_promise_inj; eauto using wf_pending_sorted.
Qed.

(** Waiters of different probes have different promises. *)
Lemma wf_promise_owner w sc1 p1 wt1 sc2 p2 wt2 :
  wf w → probes w !! sc1 = Some p1 → wt1 ∈ pending p1 →
  probes w !! sc2 = Some p2 → wt2 ∈ pending p2 →
  promise wt1 = promise wt2 → sc1 = sc2.
Proof.
  intros Hwf Hp1 H1 Hp2 H2 Heq.
  destruct (wf_waiter_timer _ Hwf _ _ _ Hp1 H1) as [ms1 E1].
  destruct (wf_waiter_timer _ Hwf _ _ _ Hp2 H2) as [ms2 E2].
  pose proof (wf_promise_inj _ Hwf _ _ _ _ E1 E2 Heq) as Ht.
  rewrite Ht, E2 in E1. by injection E1.
Qed.

(** Taking waiters of one probe away, together with their timers, keeps a
    world well formed, whatever happens to the promises of the waiters taken
    away. *)
Lemma wf_remove w w' sc p p' :
  wf w → probes w !! sc = Some p →
  probes w' = <[sc := p']> (probes w) →
  scope p' = scope p →
  pending p' `sublist_of` pending p →
  (queue p' = [] ∨ pending p' = []) →
  Forall (accepts p') (queue p') →
  queue_bounded (bufferSize p') (queue p') →
  (∀ t cb, timers w' !! t = Some cb → timers w !! t = Some cb) →
  (∀ wt, wt ∈ pending p' → timers w' !! timer wt = timers w !! timer wt) →
  (∀ wt, wt ∈ pending p → wt ∉ pending p' → timers w' !! timer wt = None) →
  (∀ t cb, timers w !! t = Some cb → t_owner cb ≠ sc → timers w' !! t = Some cb) →
  (∀ pr, is_Some (promises w' !! pr) → is_Some (promises w !! pr)) →
  (∀ pr, (∀ wt, wt ∈ pending p → wt ∉ pending p' → promise wt ≠ pr) →
         promises w' !! pr = promises w !! pr) →
  (∀ subs', subscribers w' = Some subs' →
     ∃ subs, subscribers w = Some subs ∧ subs' `sublist_of` subs) →
  fresh_symbol w' = fresh_symbol w →
  fresh_promise w' = fresh_promise w →
  fresh_timer w' = fresh_timer w →
  wf w'.
Proof.
  intros Hwf Hp Hprobes Hscope Hsub Hexcl Hacc Hbound
         Ht1 Ht2 Ht3 Ht4 Hpr1 Hpr2 Hsubs Hf1 Hf2 Hf3.
  assert (Hlk : ∀ sc' q, probes w' !! sc' = Some q →
            (sc' = sc ∧ q = p') ∨ (sc' ≠ sc ∧ probes w !! sc' = Some q)).
  { intros sc' q. rewrite Hprobes. destruct (decide (sc = sc')) as [->|Hne].
    - rewrite lookup_insert_eq. intros [= <-]. by left.
    - rewrite lookup_insert_ne by done. intros. right. split; [congruence|done]. }
  split.
  - intros sc' q Hq. destruct (Hlk _ _ Hq) as [[-> ->]|[_ Hq']].
    + rewrite Hscope. by eapply wf_scope.
    + by eapply wf_scope.
  - intros sc' [q Hq]. rewrite Hf1. apply (wf_symbol_fresh _ Hwf).
    destruct (Hlk _ _ Hq) as [[-> ->]|[_ Hq']]; eauto.
  - intros subs' sc' Hs Hin. destruct (Hsubs _ Hs) as (subs & Hs0 & Hsl).
    assert (is_Some (probes w !! sc')) as [q Hq].
    { eapply wf_subscribed; eauto. by eapply elem_of_sublist. }
    rewrite Hprobes. destruct (decide (sc = sc')) as [->|Hne].
    + rewrite lookup_insert_eq. eauto.
    + rewrite lookup_insert_ne by done. eauto.
  - intros subs' Hs. destruct (Hsubs _ Hs) as (subs & Hs0 & Hsl).
    eapply sublist_NoDup; [|done]. by eapply wf_subs_nodup.
  - intros sc' q wt Hq Hin. destruct (Hlk _ _ Hq) as [[-> ->]|[Hne Hq']].
    + rewrite Ht2 by done. eapply wf_waiter_timer; eauto.
      by eapply elem_of_sublist.
    + destruct (wf_waiter_timer _ Hwf _ _ _ Hq' Hin) as [ms E].
      exists ms. by apply Ht4.
  - intros t cb Hcb. pose proof (Ht1 _ _ Hcb) as Hcb0.
    destruct (wf_timer_waiter _ Hwf _ _ Hcb0) as (q & Hq & Hin).
    destruct (decide (t_owner cb = sc)) as [Heq|Hne].
    + exists p'. rewrite Hprobes, Heq, lookup_insert_eq. split; [done|].
      rewrite Heq, Hp in Hq. injection Hq as <-.
      destruct (decide (mkWaiter (t_promise cb) t ∈ pending p')) as [|Hnin]; [done|].
      specialize (Ht3 _ Hin Hnin). simpl in Ht3. congruence.
    + exists q. by rewrite Hprobes, lookup_insert_ne.
  - intros t cb Hcb. pose proof (Ht1 _ _ Hcb) as Hcb0.
    rewrite Hpr2; [by eapply wf_timer_promise|].
    intros wt Hin Hnin Heq.
    destruct (wf_waiter_timer _ Hwf _ _ _ Hp Hin) as [ms E].
    assert (timer wt = t) as <-.
    { eapply (wf_promise_inj _ Hwf); eauto. }
    rewrite (Ht3 _ Hin Hnin) in Hcb. done.
  - intros t1 t2 cb1 cb2 H1 H2. eapply (wf_promise_inj _ Hwf); eauto.
  - intros sc' q Hq. destruct (Hlk _ _ Hq) as [[-> ->]|[Hne Hq']].
    + eapply StronglySorted_sublist; [|by eapply wf_pending_sorted].
      by apply fmap_sublist.
    + by eapply wf_pending_sorted.
  - intros pr Hpr. rewrite Hf2. eapply wf_promise_fresh; eauto.
  - intros t [cb Hcb]. rewrite Hf3. eapply wf_timer_fresh; eauto.
  - intros sc' q Hq. destruct (Hlk _ _ Hq) as [[-> ->]|[Hne Hq']]; [done|].
    by eapply wf_exclusive.
  - intros sc' q Hq. destruct (Hlk _ _ Hq) as [[-> ->]|[Hne Hq']]; [done|].
    by eapply wf_queue_accepted.
  - intros sc' q Hq. destruct (Hlk _ _ Hq) as [[-> ->]|[Hne Hq']]; [done|].
    by eapply wf_queue_bound.
Qed.

Lemma sorted_head_fresh (wt : Waiter) (rest : list Waiter) :
  StronglySorted lt (promise <$> (wt :: rest)) → wt ∉ rest.
Proof.
  rewrite fmap_cons. intros Hs Hin.
  apply StronglySorted_inv in Hs as [_ Hall]. rewrite Forall_forall in Hall.
  assert (promise wt < promise wt); [|lia].
  apply Hall. by apply list_elem_of_fmap_2.
Qed.

Lemma sorted_middle_fresh (wt : Waiter) (l1 l2 : list Waiter) :
  StronglySorted lt (promise <$> (l1 ++ wt :: l2)) → wt ∉ l1 ++ l2.
Proof.
  rewrite fmap_app, fmap_cons. intros Hs Hin.
  apply StronglySorted_app in Hs as (Hlt & _ & Hs2).
  apply StronglySorted_inv in Hs2 as [_ Hall]. rewrite Forall_forall in Hall.
  apply elem_of_app in Hin as [Hin|Hin].
  - assert (promise wt < promise wt); [|lia].
    apply Hlt; [by apply list_elem_of_fmap_2|]. apply elem_of_cons. by left.
  - assert (promise wt < promise wt); [|lia].
    apply Hall. by apply list_elem_of_fmap_2.
Qed.

(** *** [findIndex] and [splice] *)

Lemma findIndex_Some {X} (pred : X → bool) xs i :
  findIndex pred xs = Some i →
  ∃ x, xs !! i = Some x ∧ pred x = true ∧
       xs = take i xs ++ x :: drop (S i) xs.
Proof.
  revert i. induction xs as [|y xs IH]; intros i; simpl; [done|].
  destruct (pred y) eqn:Hy.
  - intros [= <-]. exists y. simpl. by rewrite drop_0.
  - destruct (findIndex pred xs) as [j|] eqn:Hj; simpl; [|done].
    intros [= <-]. destruct (IH j eq_refl) as (x & Hx & Hpx & Heq).
    exists x. simpl. split; [done|]. split; [done|]. by rewrite <-Heq.
Qed.

Lemma findIndex_None {X} (pred : X → bool) xs x :
  findIndex pred xs = None → x ∈ xs → pred x = false.
Proof.
  induction xs as [|y xs IH]; simpl; [by intros _ ?%elem_of_nil|].
  destruct (pred y) eqn:Hy; [done|].
  destruct (findIndex pred xs) eqn:Hj; simpl; [done|].
  intros _ [->|Hin]%elem_of_cons; [done|]. by apply IH.
Qed.

(** *** The loop of [dispose] *)

Lemma dispose_loop_frame w ws :
  subscribers (dispose_loop w ws) = subscribers w ∧
  als (dispose_loop w ws) = als w ∧
  probes (dispose_loop w ws) = probes w ∧
  fresh_symbol (dispose_loop w ws) = fresh_symbol w ∧
  fresh_promise (dispose_loop w ws) = fresh_promise w ∧
  fresh_timer (dispose_loop w ws) = fresh_timer w.
Proof.
  revert w. induction ws as [|wt ws IH]; intros w; [done|].
  simpl. destruct (IH (reject (promise wt) disposed_error (clearTimeout (timer wt) w)))
    as (-> & -> & -> & -> & -> & ->). done.
Qed.

Lemma dispose_loop_timers w ws t :
  timers (dispose_loop w ws) !! t
  = if decide (t ∈ timer <$> ws) then None else timers w !! t.
Proof.
  revert w. induction ws as [|wt ws IH]; intros w; simpl; [done|].
  unfold dispose_loop in IH. rewrite IH. simpl.
  destruct (decide (t ∈ timer <$> ws)) as [Hin|Hnin].
  - rewrite decide_True; [done|]. apply elem_of_cons. by right.
  - destruct (decide (timer wt = t)) as [<-|Hne].
    + rewrite lookup_delete_eq. rewrite decide_True; [done|]. apply elem_of_cons. by left.
    + rewrite lookup_delete_ne by done. rewrite decide_False; [done|].
      intros [?|?]%elem_of_cons; [congruence|done].
Qed.

Lemma dispose_loop_promises_other w ws pr :
  pr ∉ promise <$> ws → promises (dispose_loop w ws) !! pr = promises w !! pr.
Proof.
  revert w. induction ws as [|wt ws IH]; intros w Hnin; simpl; [done|].
  rewrite fmap_cons in Hnin. apply not_elem_of_cons in Hnin as [Hne Hnin].
  unfold dispose_loop in IH. rewrite IH by done. simpl.
  by rewrite settle_lookup_ne.
Qed.

Lemma dispose_loop_promises_dom w ws pr :
  is_Some (promises (dispose_loop w ws) !! pr) ↔ is_Some (promises w !! pr).
Proof.
  revert w. induction ws as [|wt ws IH]; intros w; simpl; [done|].
  unfold dispose_loop in IH. rewrite IH. simpl. apply settle_is_Some.
Qed.

Lemma dispose_loop_keeps w ws pr s :
  promises w !! pr = Some s → s ≠ Pending →
  promises (dispose_loop w ws) !! pr = Some s.
Proof.
  revert w. induction ws as [|wt ws IH]; intros w Hs Hne; simpl; [done|].
  unfold dispose_loop in IH. apply IH; [|done]. simpl. by apply settle_keeps.
Qed.

Lemma dispose_loop_rejects w ws wt :
  wt ∈ ws → promises w !! promise wt = Some Pending →
  promises (dispose_loop w ws) !! promise wt = Some (Rejected disposed_error).
Proof.
  revert w. induction ws as [|w0 ws IH]; intros w Hin Hp; [by apply elem_of_nil in Hin|].
  simpl. destruct (decide (promise w0 = promise wt)) as [Heq|Hne].
  - apply dispose_loop_keeps; [|done]. simpl. rewrite Heq. by apply settle_lookup_pending.
  - apply elem_of_cons in Hin as [->|Hin]; [done|].
    unfold dispose_loop in IH. apply IH; [done|]. simpl. by rewrite settle_lookup_ne.
Qed.

Lemma dispose_unfold sc w p :
  probes w !! sc = Some p →
  dispose sc w =
    set_probe sc (set_queue [] (set_pending [] p))
      (dispose_loop
         (set_probe sc (set_pending [] p)
            (set_subscribers (filter (λ s, s ≠ sc) <$> subscribers w) w))
         (pending p)).
Proof.
  intros H. unfold dispose. rewrite H.
  destruct (dispose_loop_frame
              (set_probe sc (set_pending [] p)
                 (set_subscribers (filter (λ s, s ≠ sc) <$> subscribers w) w))
              (pending p)) as (_ & _ & Hpr & _).
  rewrite Hpr. simpl. by rewrite lookup_insert_eq.
Qed.

(** *** Each operation keeps the world well formed *)

Lemma wf_handoff w sc p wt rest ev :
  wf w → probes w !! sc = Some p → pending p = wt :: rest →
  wf (resolve (promise wt) ev
        (clearTimeout (timer wt) (set_probe sc (set_pending rest p) w))).
Proof.
  intros Hwf Hp Hpend.
  pose proof (wf_pending_sorted _ Hwf _ _ Hp) as Hsorted. rewrite Hpend in Hsorted.
  pose proof (sorted_head_fresh _ _ Hsorted) as Hfresh.
  assert (Hwt : wt ∈ pending p) by (rewrite Hpend; apply elem_of_cons; by left).
  destruct (wf_waiter_timer _ Hwf _ _ _ Hp Hwt) as [ms Hms].
  eapply (wf_remove w _ sc p (set_pending rest p)); try done; simpl.
  - rewrite Hpend. by apply sublist_cons.
  - left. destruct (wf_exclusive _ Hwf _ _ Hp) as [?|Hq]; [done|]. congruence.
  - by apply (wf_queue_accepted _ Hwf _ _ Hp).
  - by apply (wf_queue_bound _ Hwf _ _ Hp).
  - intros t cb [_ H]%lookup_delete_Some. done.
  - intros wt' Hin. apply lookup_delete_ne. intros Heq.
    assert (wt = wt'); [|congruence].
    eapply wf_timer_inj; eauto. rewrite Hpend. apply elem_of_cons. by right.
  - intros wt' Hin Hnin. rewrite Hpend in Hin.
    apply elem_of_cons in Hin as [->|?]; [|done]. apply lookup_delete_eq.
  - intros t cb Hcb Hne. rewrite lookup_delete_ne; [done|].
    intros <-. rewrite Hms in Hcb. injection Hcb as <-. done.
  - intros pr. apply settle_is_Some.
  - intros pr Hpr. apply settle_lookup_ne. by apply Hpr.
  - intros subs' ->. eauto.
Qed.

(** A probe whose [pending] is kept may change its buffer freely as long as
    one of the two stays empty. *)
Lemma wf_set_queue w sc p q :
  wf w → probes w !! sc = Some p → (q = [] ∨ pending p = []) →
  Forall (accepts p) q →
  queue_bounded (bufferSize p) q →
  wf (set_probe sc (set_queue q p) w).
Proof.
  intros Hwf Hp Hq Hacc Hbound.
  eapply (wf_remove w _ sc p (set_queue q p)); try done; simpl; eauto.
Qed.

Lemma wf_set_promises w ps :
  wf w →
  (∀ t cb, timers w !! t = Some cb → ps !! t_promise cb = Some Pending) →
  (∀ pr, is_Some (ps !! pr) → pr < fresh_promise w) →
  wf (set_promises ps w).
Proof. intros [] H1 H2. by split. Qed.

Lemma wf_settle_free w pr st :
  wf w → (∀ t cb, timers w !! t = Some cb → t_promise cb ≠ pr) →
  wf (set_promises (settle pr st (promises w)) w).
Proof.
  intros Hwf Hfree. apply wf_set_promises; [done|..].
  - intros t cb Hcb. rewrite settle_lookup_ne by (intros Heq; by eapply Hfree).
    by eapply wf_timer_promise.
  - intros x Hx%settle_is_Some. by eapply wf_promise_fresh.
Qed.

Lemma wf_timer_promise_lt w t cb :
  wf w → timers w !! t = Some cb → t_promise cb < fresh_promise w.
Proof.
  intros Hwf Hcb. eapply wf_promise_fresh; [done|].
  by rewrite (wf_timer_promise _ Hwf _ _ Hcb).
Qed.

Lemma wf_new_promise w st : wf w → wf (snd (new_promise st w)).
Proof.
  intros Hwf. pose proof Hwf as [].
  split; simpl; try done.
  - intros t cb Hcb. rewrite lookup_insert_ne; [eauto|].
    pose proof (wf_timer_promise_lt _ _ _ Hwf Hcb). lia.
  - intros pr. destruct (decide (fresh_promise w = pr)) as [<-|Hne]; [lia|].
    rewrite lookup_insert_ne by done. intros H.
    pose proof (wf_promise_fresh0 _ H). lia.
Qed.

Lemma next_immediate sc ms w p ev q :
  probes w !! sc = Some p → queue p = ev :: q →
  next sc ms w =
    (fresh_promise w,
     resolve (fresh_promise w) ev
       (set_probe sc (set_queue q p) (snd (new_promise Pending w)))).
Proof. intros Hp Hq. unfold next. by rewrite Hp, Hq. Qed.

Lemma next_wait sc ms w p :
  probes w !! sc = Some p → queue p = [] →
  next sc ms w =
    (fresh_promise w,
     set_probe sc
       (set_pending (pending p ++ [mkWaiter (fresh_promise w) (fresh_timer w)]) p)
       (snd (setTimeout
               (mkTimer sc (fresh_promise w) (nullish ms (timeoutDefault p)))
               (snd (new_promise Pending w))))).
Proof. intros Hp Hq. unfold next. by rewrite Hp, Hq. Qed.

Lemma wf_next_wait w sc p ms :
  wf w → probes w !! sc = Some p → queue p = [] → wf (snd (next sc ms w)).
Proof.
  intros Hwf Hp Hq. rewrite (next_wait _ _ _ _ Hp Hq). simpl.
  assert (Hlk : ∀ sc' q,
            <[sc := set_pending (pending p ++ [mkWaiter (fresh_promise w) (fresh_timer w)]) p]>
              (probes w) !! sc' = Some q →
            (sc' = sc ∧ q = set_pending (pending p ++ [mkWaiter (fresh_promise w) (fresh_timer w)]) p)
            ∨ (sc' ≠ sc ∧ probes w !! sc' = Some q)).
  { intros sc' q. destruct (decide (sc = sc')) as [->|Hne].
    - rewrite lookup_insert_eq. intros [= <-]. by left.
    - rewrite lookup_insert_ne by done. intros. right. split; [congruence|done]. }
  assert (Hold : ∀ sc' q wt, probes w !! sc' = Some q → wt ∈ pending q →
            timer wt ≠ fresh_timer w ∧ promise wt ≠ fresh_promise w).
  { intros sc' q wt Hq' Hin.
    destruct (wf_waiter_timer _ Hwf _ _ _ Hq' Hin) as [ms' E].
    split.
    - assert (timer wt < fresh_timer w); [|lia]. eapply wf_timer_fresh; eauto.
    - pose proof (wf_timer_promise_lt _ _ _ Hwf E). simpl in *. lia. }
  split; simpl.
  - intros sc' q Hq'. destruct (Hlk _ _ Hq') as [[-> ->]|[_ Hq'']]; simpl;
      by eapply wf_scope.
  - intros sc' [q Hq']. apply (wf_symbol_fresh _ Hwf).
    destruct (Hlk _ _ Hq') as [[-> ->]|[_ Hq'']]; eauto.
  - intros subs sc' Hs Hin. destruct (wf_subscribed _ Hwf _ _ Hs Hin) as [q Hq'].
    destruct (decide (sc = sc')) as [->|Hne].
    + rewrite lookup_insert_eq. eauto.
    + rewrite lookup_insert_ne by done. eauto.
  - by apply wf_subs_nodup.
  - intros sc' q wt Hq' Hin. destruct (Hlk _ _ Hq') as [[-> ->]|[Hne Hq'']].
    + simpl in Hin. apply elem_of_app in Hin as [Hin|Hin].
      * destruct (Hold _ _ _ Hp Hin) as [Ht _]. rewrite lookup_insert_ne by done.
        by eapply wf_waiter_timer.
      * apply list_elem_of_singleton in Hin as ->. simpl.
        rewrite lookup_insert_eq. eauto.
    + destruct (Hold _ _ _ Hq'' Hin) as [Ht _]. rewrite lookup_insert_ne by done.
      by eapply wf_waiter_timer.
  - intros t cb. destruct (decide (fresh_timer w = t)) as [<-|Hne].
    + rewrite lookup_insert_eq. intros [= <-]. simpl.
      eexists. rewrite lookup_insert_eq. split; [done|]. simpl.
      apply elem_of_app. right. by apply list_elem_of_singleton.
    + rewrite lookup_insert_ne by done. intros Hcb.
      destruct (wf_timer_waiter _ Hwf _ _ Hcb) as (q & Hq' & Hin).
      destruct (decide (sc = t_owner cb)) as [Heq|Hne'].
      * rewrite <-Heq in *. rewrite lookup_insert_eq. eexists. split; [done|]. simpl.
        apply elem_of_app. left. congruence.
      * rewrite lookup_insert_ne by done. eauto.
  - intros t cb. destruct (decide (fresh_timer w = t)) as [<-|Hne].
    + rewrite lookup_insert_eq. intros [= <-]. simpl. apply lookup_insert_eq.
    + rewrite lookup_insert_ne by done. intros Hcb.
      pose proof (wf_timer_promise_lt _ _ _ Hwf Hcb).
      rewrite lookup_insert_ne by lia. by eapply wf_timer_promise.
  - intros t1 t2 cb1 cb2.
    destruct (decide (fresh_timer w = t1)) as [<-|Hne1];
      destruct (decide (fresh_timer w = t2)) as [<-|Hne2]; [done|..].
    + rewrite lookup_insert_eq, lookup_insert_ne by done. intros [= <-] Hcb. simpl.
      pose proof (wf_timer_promise_lt _ _ _ Hwf Hcb). lia.
    + rewrite lookup_insert_eq, lookup_insert_ne by done. intros Hcb [= <-]. simpl.
      pose proof (wf_timer_promise_lt _ _ _ Hwf Hcb). lia.
    + rewrite !lookup_insert_ne by done. by eapply wf_promise_inj.
  - intros sc' q Hq'. destruct (Hlk _ _ Hq') as [[-> ->]|[Hne Hq'']].
    + simpl. rewrite fmap_app. apply StronglySorted_app_2.
      * intros x1 x2 Hx1 ->%list_elem_of_singleton.
        apply list_elem_of_fmap in Hx1 as (wt & -> & Hin). simpl.
        destruct (wf_waiter_timer _ Hwf _ _ _ Hp Hin) as [ms' E].
        apply (wf_timer_promise_lt _ _ _ Hwf E).
      * by eapply wf_pending_sorted.
      * repeat constructor.
    + by eapply wf_pending_sorted.
  - intros pr. destruct (decide (fresh_promise w = pr)) as [<-|Hne]; [lia|].
    rewrite lookup_insert_ne by done. intros H.
    pose proof (wf_promise_fresh _ Hwf _ H). lia.
  - intros t. destruct (decide (fresh_timer w = t)) as [<-|Hne]; [lia|].
    rewrite lookup_insert_ne by done. intros H.
    pose proof (wf_timer_fresh _ Hwf _ H). lia.
  - intros sc' q Hq'. destruct (Hlk _ _ Hq') as [[-> ->]|[Hne Hq'']].
    + by left.
    + by eapply wf_exclusive.
  - intros sc' q Hq'. destruct (Hlk _ _ Hq') as [[-> ->]|[Hne Hq'']].
    + by apply (wf_queue_accepted _ Hwf _ _ Hp).
    + by eapply wf_queue_accepted.
  - intros sc' q Hq'. destruct (Hlk _ _ Hq') as [[-> ->]|[Hne Hq'']].
    + by apply (wf_queue_bound _ Hwf _ _ Hp).
    + by eapply wf_queue_bound.
Qed.

Lemma wf_next w sc ms : wf w → wf (snd (next sc ms w)).
Proof.
  intros Hwf. destruct (probes w !! sc) as [p|] eqn:Hp.
  2: { unfold next. rewrite Hp. by apply wf_new_promise. }
  destruct (queue p) as [|ev q] eqn:Hq.
  { by eapply wf_next_wait. }
  rewrite (next_immediate _ _ _ _ _ _ Hp Hq). simpl.
  pose proof (wf_new_promise w Pending Hwf) as Hwf1.
  pose proof (wf_set_queue _ sc p q Hwf1 Hp) as Hwf2.
  pose proof (wf_queue_accepted _ Hwf _ _ Hp) as Hacc.
  pose proof (wf_queue_bound _ Hwf _ _ Hp) as Hbound.
  rewrite Hq in Hacc, Hbound. apply Forall_cons in Hacc as [_ Hacc].
  apply (queue_bounded_le _ _ q) in Hbound; [|simpl; lia].
  unfold resolve. apply wf_settle_free.
  - apply Hwf2; [|done|done]. right. destruct (wf_exclusive _ Hwf _ _ Hp); congruence.
  - simpl. intros t cb Hcb. pose proof (wf_timer_promise_lt _ _ _ Hwf Hcb). lia.
Qed.

(** A timer that is still scheduled belongs to a waiter; firing it takes that
    waiter out of [pending] and rejects its promise. *)
Lemma fire_live w t cb :
  wf w → timers w !! t = Some cb →
  ∃ p l1 l2,
    probes w !! t_owner cb = Some p ∧
    pending p = l1 ++ mkWaiter (t_promise cb) t :: l2 ∧
    fire t w =
      reject (t_promise cb) (timeout_error (t_ms cb))
        (set_probe (t_owner cb) (set_pending (l1 ++ l2) p)
           (set_timers (delete t (timers w)) w)).
Proof.
  intros Hwf Hcb. destruct (wf_timer_waiter _ Hwf _ _ Hcb) as (p & Hp & Hin).
  unfold fire. rewrite Hcb. simpl. rewrite Hp.
  destruct (findIndex (λ x, bool_decide (promise x = t_promise cb)) (pending p))
    as [i|] eqn:Hi.
  - destruct (findIndex_Some _ _ _ Hi) as (x & Hx & Hpx & Hsplit).
    apply bool_decide_eq_true in Hpx.
    assert (x = mkWaiter (t_promise cb) t) as ->.
    { eapply sorted_promise_inj; eauto using wf_pending_sorted.
      by eapply list_elem_of_lookup_2. }
    exists p, (take i (pending p)), (drop (S i) (pending p)). done.
  - pose proof (findIndex_None _ _ _ Hi Hin) as Hf. simpl in Hf.
    by rewrite bool_decide_true in Hf.
Qed.

Lemma fire_dead w t : timers w !! t = None → fire t w = w.
Proof. intros H. unfold fire. by rewrite H. Qed.

Lemma wf_fire w t : wf w → wf (fire t w).
Proof.
  intros Hwf. destruct (timers w !! t) as [cb|] eqn:Hcb.
  2: { by rewrite fire_dead. }
  destruct (fire_live _ _ _ Hwf Hcb) as (p & l1 & l2 & Hp & Hpend & ->).
  pose proof (wf_pending_sorted _ Hwf _ _ Hp) as Hsorted. rewrite Hpend in Hsorted.
  pose proof (sorted_middle_fresh _ _ _ Hsorted) as Hfresh.
  assert (Hwt : mkWaiter (t_promise cb) t ∈ pending p).
  { rewrite Hpend. apply elem_of_app. right. apply elem_of_cons. by left. }
  assert (Hrem : ∀ wt, wt ∈ pending p → wt ∉ l1 ++ l2 → wt = mkWaiter (t_promise cb) t).
  { intros wt Hin Hnin. rewrite Hpend in Hin.
    apply elem_of_app in Hin as [Hin|Hin].
    - exfalso. apply Hnin, elem_of_app. by left.
    - apply elem_of_cons in Hin as [->|Hin]; [done|].
      exfalso. apply Hnin, elem_of_app. by right. }
  eapply (wf_remove w _ (t_owner cb) p (set_pending (l1 ++ l2) p)); try done; simpl.
  - rewrite Hpend. apply sublist_app; [done|]. by apply sublist_cons.
  - left. destruct (wf_exclusive _ Hwf _ _ Hp) as [?|Hq]; [done|].
    rewrite Hq in Hpend. by destruct l1.
  - by apply (wf_queue_accepted _ Hwf _ _ Hp).
  - by apply (wf_queue_bound _ Hwf _ _ Hp).
  - intros t' cb' [_ H]%lookup_delete_Some. done.
  - intros wt' Hin. apply lookup_delete_ne. intros Heq.
    assert (mkWaiter (t_promise cb) t = wt'); [|congruence].
    eapply wf_timer_inj; eauto. rewrite Hpend.
    apply elem_of_app in Hin as [?|?]; apply elem_of_app; [by left|].
    right. apply elem_of_cons. by right.
  - intros wt' Hin Hnin. rewrite (Hrem _ Hin Hnin). simpl. apply lookup_delete_eq.
  - intros t' cb' Hcb' Hne. rewrite lookup_delete_ne; [done|].
    intros <-. congruence.
  - intros pr. apply settle_is_Some.
  - intros pr Hpr. apply settle_lookup_ne.
    apply (Hpr (mkWaiter (t_promise cb) t)); done.
  - intros subs' ->. eauto.
Qed.

Lemma wf_dispose w sc : wf w → wf (dispose sc w).
Proof.
  intros Hwf. destruct (probes w !! sc) as [p|] eqn:Hp.
  2: { unfold dispose. by rewrite Hp. }
  rewrite (dispose_unfold _ _ _ Hp).
  set (w0 := set_probe sc (set_pending [] p)
               (set_subscribers (filter (λ s, s ≠ sc) <$> subscribers w) w)).
  destruct (dispose_loop_frame w0 (pending p)) as (Hs & _ & Hpr & Hf1 & Hf2 & Hf3).
  eapply (wf_remove w _ sc p (set_queue [] (set_pending [] p))); try done; simpl.
  - rewrite Hpr. simpl. by rewrite insert_insert_eq.
  - apply sublist_nil_l.
  - by left.
  - apply queue_bounded_nil.
  - intros t cb. rewrite dispose_loop_timers. by case_decide.
  - intros wt Hin. by apply elem_of_nil in Hin.
  - intros wt Hin _. rewrite dispose_loop_timers. rewrite decide_True; [done|].
    by apply list_elem_of_fmap_2.
  - intros t cb Hcb Hne. rewrite dispose_loop_timers. rewrite decide_False; [done|].
    intros (wt & -> & Hin)%list_elem_of_fmap.
    destruct (wf_waiter_timer _ Hwf _ _ _ Hp Hin) as [ms E].
    rewrite E in Hcb. injection Hcb as <-. done.
  - intros pr. by rewrite dispose_loop_promises_dom.
  - intros pr Hnot. rewrite dispose_loop_promises_other; [done|].
    intros (wt & -> & Hin)%list_elem_of_fmap.
    eapply Hnot; [done| |done]. apply not_elem_of_nil.
  - intros subs'. rewrite Hs. simpl.
    destruct (subscribers w) as [subs|]; simpl; [|done].
    intros [= <-]. exists subs. split; [done|]. apply sublist_filter.
Qed.

Lemma wf_set_als w c : wf w → wf (set_als c w).
Proof. intros []. by split. Qed.

Lemma wf_sub w sc e : wf w → wf (snd (sub sc e w)).
Proof.
  intros Hwf. destruct (sub_cases sc e w) as [E|err E|p wt rest Hp Hs Hf Hq|p Hp Hs Hf Hq].
  - by rewrite E.
  - by rewrite E.
  - rewrite (sub_handoff _ _ _ _ _ _ Hp Hs Hf Hq). by apply wf_handoff.
  - rewrite (sub_buffer _ _ _ _ Hp Hs Hf Hq).
    pose proof (wf_queue_accepted _ Hwf _ _ Hp) as Hacc.
    pose proof (wf_queue_bound _ Hwf _ _ Hp) as Hbound.
    apply wf_set_queue; auto.
    + apply Forall_app. split; [|by apply Forall_singleton].
      destruct (length_ge _ _); [|done]. destruct (queue p); [done|].
      by apply Forall_cons in Hacc as [_ ?].
    + by apply queue_bounded_push.
Qed.

(** In a test build an emission runs every registered callback once, in
    registration order, on the event tagged with the current scope. *)
Lemma emitImpl_test l v w :
  _emitImpl true l v w
  = (Normal tt,
     foldl (λ w' s, snd (sub s (mkInternalEvent l v (currentScope w)) w'))
           w (nullish (subscribers w) [])).
Proof.
  unfold _emitImpl. destruct (subscribers w) as [[|s subs]|] eqn:E; [done| |done].
  exact (for_of_try_catch (s :: subs)
           (λ x, sub x (mkInternalEvent l v (currentScope w))) w).
Qed.

Lemma wf_broadcast e subs w :
  wf w → wf (foldl (λ w' s, snd (sub s e w')) w subs).
Proof.
  revert w. induction subs as [|s subs IH]; intros w Hwf; simpl; [done|].
  by apply IH, wf_sub.
Qed.

Lemma emit_in_unfold ctx l v w :
  emit_in ctx l v w
  = set_als (als w)
      (foldl (λ w' s, snd (sub s (mkInternalEvent l v ctx) w'))
             (set_als ctx w) (nullish (subscribers w) [])).
Proof.
  unfold emit_in, als_run, probeEmit. by rewrite emitImpl_test.
Qed.

Lemma wf_emit_in ctx l v w : wf w → wf (emit_in ctx l v w).
Proof.
  intros Hwf. rewrite emit_in_unfold. by apply wf_set_als, wf_broadcast, wf_set_als.
Qed.

(** In a test build [getProbe] returns a handle on a new scope, registered
    last, with an empty buffer and no waiter. *)
Lemma getProbe_test o w :
  wf w →
  getProbe true o w =
    (Normal (ProbeHandle (fresh_symbol w)),
     mkWorld (Some (nullish (subscribers w) [] ++ [fresh_symbol w])) (als w)
       (<[fresh_symbol w :=
            mkProbe o (nullish (o ≫= Opts.bufferSize) (integer 100))
                    (nullish (o ≫= Opts.timeoutMs) 1000%Z) (fresh_symbol w) [] []]>
          (probes w))
       (promises w) (timers w)
       (S (fresh_symbol w)) (fresh_promise w) (fresh_timer w)).
Proof.
  intros Hwf. unfold getProbe. simpl.
  assert (Hnin : fresh_symbol w ∉ nullish (subscribers w) []).
  { destruct (subscribers w) as [subs|] eqn:E; simpl; [|apply not_elem_of_nil].
    intros Hin. pose proof (wf_symbol_fresh _ Hwf _ (wf_subscribed _ Hwf _ _ E Hin)). lia. }
  destruct (subscribers w) as [subs|] eqn:E; simpl in *.
  - rewrite E. simpl. by rewrite bool_decide_false.
  - done.
Qed.

Lemma wf_getProbe o w : wf w → wf (snd (getProbe true o w)).
Proof.
  intros Hwf. rewrite getProbe_test by done. simpl.
  assert (Hnone : probes w !! fresh_symbol w = None).
  { destruct (probes w !! fresh_symbol w) eqn:E; [|done].
    pose proof (wf_symbol_fresh _ Hwf _ (mk_is_Some _ _ E)). lia. }
  assert (Hlk : ∀ sc q,
    <[fresh_symbol w :=
        mkProbe o (nullish (o ≫= Opts.bufferSize) (integer 100))
                (nullish (o ≫= Opts.timeoutMs) 1000%Z) (fresh_symbol w) [] []]>
      (probes w) !! sc = Some q →
    (sc = fresh_symbol w ∧ pending q = [] ∧ queue q = [] ∧ scope q = sc)
    ∨ (sc ≠ fresh_symbol w ∧ probes w !! sc = Some q)).
  { intros sc q. destruct (decide (fresh_symbol w = sc)) as [<-|Hne].
    - rewrite lookup_insert_eq. intros [= <-]. by left.
    - rewrite lookup_insert_ne by done. intros. right. split; [congruence|done]. }
  split; simpl.
  - intros sc q Hq. destruct (Hlk _ _ Hq) as [(_ & _ & _ & ?)|[_ Hq']]; [done|].
    by eapply wf_scope.
  - intros sc [q Hq]. destruct (Hlk _ _ Hq) as [(-> & _)|[_ Hq']]; [lia|].
    pose proof (wf_symbol_fresh _ Hwf _ (mk_is_Some _ _ Hq')). lia.
  - intros subs sc [= <-] Hin. apply elem_of_app in Hin as [Hin|Hin].
    + destruct (subscribers w) as [subs|] eqn:E; simpl in Hin;
        [|by apply elem_of_nil in Hin].
      destruct (wf_subscribed _ Hwf _ _ E Hin) as [q Hq].
      rewrite lookup_insert_ne; [eauto|]. intros <-. congruence.
    + apply list_elem_of_singleton in Hin as ->. rewrite lookup_insert_eq. eauto.
  - intros subs [= <-]. apply NoDup_app. split; [|split].
    + destruct (subscribers w) as [subs|] eqn:E; simpl; [|constructor].
      by eapply wf_subs_nodup.
    + intros sc Hin ->%list_elem_of_singleton.
      destruct (subscribers w) as [subs|] eqn:E; simpl in Hin;
        [|by apply elem_of_nil in Hin].
      destruct (wf_subscribed _ Hwf _ _ E Hin) as [q Hq]. congruence.
    + apply NoDup_singleton.
  - intros sc q wt Hq Hin. destruct (Hlk _ _ Hq) as [(_ & Hp & _)|[_ Hq']].
    + rewrite Hp in Hin. by apply elem_of_nil in Hin.
    + by eapply wf_waiter_timer.
  - intros t cb Hcb. destruct (wf_timer_waiter _ Hwf _ _ Hcb) as (q & Hq & Hin).
    exists q. rewrite lookup_insert_ne; [done|]. intros Heq. congruence.
  - by apply wf_timer_promise.
  - by apply wf_promise_inj.
  - intros sc q Hq. destruct (Hlk _ _ Hq) as [(_ & Hp & _)|[_ Hq']].
    + rewrite Hp. constructor.
    + by eapply wf_pending_sorted.
  - by apply wf_promise_fresh.
  - by apply wf_timer_fresh.
  - intros sc q Hq. destruct (Hlk _ _ Hq) as [(_ & Hp & _)|[_ Hq']]; [by right|].
    by eapply wf_exclusive.
  - intros sc q Hq. destruct (Hlk _ _ Hq) as [(_ & _ & Hp & _)|[_ Hq']].
    + rewrite Hp. constructor.
    + by eapply wf_queue_accepted.
  - intros sc q Hq. destruct (Hlk _ _ Hq) as [(_ & _ & Hp & _)|[_ Hq']].
    + rewrite Hp. apply queue_bounded_nil.
    + by eapply wf_queue_bound.
Qed.

Lemma wf_step o w : wf w → wf (step o w).
Proof.
  intros Hwf. destruct o; simpl.
  - by apply wf_getProbe.
  - by apply wf_emit_in.
  - by apply wf_next.
  - by apply wf_dispose.
  - by apply wf_fire.
Qed.

Lemma wf_exec tr w : wf w → wf (exec tr w).
Proof.
  revert w. induction tr as [|o tr IH]; intros w Hwf; [done|].
  unfold exec. simpl. apply IH. by apply wf_step.
Qed.

Lemma reachable_wf w : reachable w → wf w.
Proof. intros [tr ->]. apply wf_exec, wf_init. Qed.

(** ** Emission reaches one callback at most *)

Lemma sub_frame sc e w :
  subscribers (snd (sub sc e w)) = subscribers w ∧
  als (snd (sub sc e w)) = als w ∧
  fresh_symbol (snd (sub sc e w)) = fresh_symbol w ∧
  fresh_promise (snd (sub sc e w)) = fresh_promise w ∧
  fresh_timer (snd (sub sc e w)) = fresh_timer w.
Proof.
  destruct (sub_cases sc e w) as [E|err E|p wt rest Hp Hs Hf Hq|p Hp Hs Hf Hq].
  - by rewrite E.
  - by rewrite E.
  - by rewrite (sub_handoff _ _ _ _ _ _ Hp Hs Hf Hq).
  - by rewrite (sub_buffer _ _ _ _ Hp Hs Hf Hq).
Qed.

Lemma sub_set_als sc e c w :
  sub sc e (set_als c w) = (fst (sub sc e w), set_als c (snd (sub sc e w))).
Proof.
  unfold sub. simpl. destruct (probes w !! sc) as [p|]; [|done].
  destruct (bool_decide (__scope e ≠ Some (scope p))); [done|].
  destruct (filtered_out (opts p) _) as [[|]|]; try done.
  by destruct (pending p).
Qed.

Lemma broadcast_set_als e c subs w :
  foldl (λ w' s, snd (sub s e w')) (set_als c w) subs
  = set_als c (foldl (λ w' s, snd (sub s e w')) w subs).
Proof.
  revert w. induction subs as [|s subs IH]; intros w; simpl; [done|].
  rewrite sub_set_als. simpl. apply IH.
Qed.

Lemma broadcast_store e subs w :
  als (foldl (λ w' s, snd (sub s e w')) w subs) = als w.
Proof.
  revert w. induction subs as [|s subs IH]; intros w; simpl; [done|].
  rewrite IH. apply sub_frame.
Qed.

(** The ambient context only decides the tag of the event. *)
Lemma emit_in_broadcast ctx l v w :
  emit_in ctx l v w
  = foldl (λ w' s, snd (sub s (mkInternalEvent l v ctx) w')) w (nullish (subscribers w) []).
Proof.
  rewrite emit_in_unfold, broadcast_set_als.
  set (w' := foldl _ w _).
  assert (als w' = als w) as <- by apply broadcast_store.
  by destruct w'.
Qed.

(** A callback whose scope is not the event's tag leaves the world alone. *)
Lemma sub_foreign sc e w :
  scopes_ok w → __scope e ≠ Some sc → sub sc e w = (Normal tt, w).
Proof.
  intros Hsc Hne. destruct (probes w !! sc) as [p|] eqn:Hp.
  - eapply sub_other_scope; [done|]. by rewrite (Hsc _ _ Hp).
  - by apply sub_unknown.
Qed.

Lemma broadcast_foreign e subs w :
  scopes_ok w → (∀ s, s ∈ subs → __scope e ≠ Some s) →
  foldl (λ w' s, snd (sub s e w')) w subs = w.
Proof.
  intros Hsc. induction subs as [|s subs IH]; intros Hall; simpl; [done|].
  rewrite sub_foreign; [|done|apply Hall; apply elem_of_cons; by left]. simpl.
  apply IH. intros s' Hs'. apply Hall. apply elem_of_cons. by right.
Qed.

Lemma broadcast_single sc e subs w :
  wf w → NoDup subs → __scope e = Some sc →
  foldl (λ w' s, snd (sub s e w')) w subs
  = if bool_decide (sc ∈ subs) then snd (sub sc e w) else w.
Proof.
  intros Hwf Hnd He. revert w Hwf.
  induction subs as [|s subs IH]; intros w Hwf; simpl; [done|].
  apply NoDup_cons in Hnd as [Hnin Hnd].
  destruct (decide (s = sc)) as [->|Hne].
  - rewrite bool_decide_true by (apply elem_of_cons; by left).
    apply broadcast_foreign.
    + by apply wf_scope, wf_sub.
    + intros s Hs. rewrite He. intros [= ->]. done.
  - rewrite sub_foreign; [|by apply wf_scope|rewrite He; congruence]. simpl.
    rewrite IH by done.
    destruct (decide (sc ∈ subs)) as [Hin|Hnin'].
    + rewrite !bool_decide_true; [done| |done]. apply elem_of_cons. by right.
    + rewrite !bool_decide_false; [done| |done].
      intros [?|?]%elem_of_cons; [congruence|done].
Qed.

(** An emission in the scope of a probe is one call of that probe's callback
    if it is still registered, and nothing otherwise. *)
Lemma emit_in_scope sc l v w :
  wf w →
  emit_in (Some sc) l v w
  = if bool_decide (sc ∈ nullish (subscribers w) [])
    then snd (sub sc (mkInternalEvent l v (Some sc)) w) else w.
Proof.
  intros Hwf. rewrite emit_in_broadcast. apply broadcast_single; [done| |done].
  destruct (subscribers w) eqn:E; simpl; [by eapply wf_subs_nodup|constructor].
Qed.

(** An emission outside every [run] changes nothing. *)
Lemma emit_in_no_scope l v w : wf w → emit_in None l v w = w.
Proof.
  intros Hwf. rewrite emit_in_broadcast. apply broadcast_foreign; [by apply wf_scope|done].
Qed.

Lemma subscribed_elem sc w :
  subscribed sc w ↔ sc ∈ nullish (subscribers w) [].
Proof.
  unfold subscribed. destruct (subscribers w) as [subs|]; simpl; split.
  - by intros (? & [= <-] & ?).
  - eauto.
  - by intros (? & ? & ?).
  - by intros ?%elem_of_nil.
Qed.

(** ** A waiter stays until its probe is disposed, its timer fires or an
    event is handed to its probe *)

Lemma waiter_timer_owner w sc p wt sc' p' wt' :
  wf w → probes w !! sc = Some p → wt ∈ pending p →
  probes w !! sc' = Some p' → wt' ∈ pending p' →
  sc' ≠ sc → timer wt' ≠ timer wt.
Proof.
  intros Hwf Hp Hin Hp' Hin' Hne Heq.
  destruct (wf_waiter_timer _ Hwf _ _ _ Hp Hin) as [ms E].
  destruct (wf_waiter_timer _ Hwf _ _ _ Hp' Hin') as [ms' E'].
  rewrite Heq, E in E'. by injection E'.
Qed.

Lemma waiter_survives_step o w sc p wt cb :
  wf w → probes w !! sc = Some p → wt ∈ pending p →
  timers w !! timer wt = Some cb →
  o ≠ ODispose sc → o ≠ OFire (timer wt) →
  (∀ l v, o = OEmit (Some sc) l v → emit_in (Some sc) l v w = w) →
  ∃ p', probes (step o w) !! sc = Some p' ∧ wt ∈ pending p' ∧
        opts p' = opts p ∧ timers (step o w) !! timer wt = Some cb.
Proof.
  intros Hwf Hp Hin Hcb Hnd Hnf Hemit.
  assert (Hsame : ∃ p', probes w !! sc = Some p' ∧ wt ∈ pending p' ∧
            opts p' = opts p ∧ timers w !! timer wt = Some cb) by eauto.
  destruct o as [o|ctx l v|sc' ms|sc'|t]; unfold step.
  - rewrite getProbe_test by done. simpl.
    exists p. rewrite lookup_insert_ne; [done|].
    pose proof (wf_symbol_fresh _ Hwf _ (mk_is_Some _ _ Hp)). lia.
  - destruct ctx as [sc'|]; [|by rewrite emit_in_no_scope].
    destruct (decide (sc' = sc)) as [->|Hne]; [by rewrite Hemit|].
    rewrite emit_in_scope by done. case_bool_decide; [|done].
    destruct (sub_cases sc' (mkInternalEvent l v (Some sc')) w)
      as [E|err E|p' wt' rest Hp' Hs Hf Hq|p' Hp' Hs Hf Hq].
    + by rewrite E.
    + by rewrite E.
    + rewrite (sub_handoff _ _ _ _ _ _ Hp' Hs Hf Hq). simpl.
      exists p. rewrite lookup_insert_ne by done.
      rewrite lookup_delete_ne; [done|].
      apply (waiter_timer_owner w sc p wt sc' p' wt' Hwf Hp Hin Hp'); [|done].
      rewrite Hq. apply elem_of_cons. by left.
    + rewrite (sub_buffer _ _ _ _ Hp' Hs Hf Hq). simpl.
      exists p. by rewrite lookup_insert_ne.
  - pose proof (wf_timer_fresh _ Hwf _ (mk_is_Some _ _ Hcb)) as Hlt.
    destruct (decide (sc' = sc)) as [->|Hne].
    + assert (queue p = []) as Hq.
      { destruct (wf_exclusive _ Hwf _ _ Hp) as [?|Hq]; [done|].
        rewrite Hq in Hin. by apply elem_of_nil in Hin. }
      rewrite (next_wait _ _ _ _ Hp Hq). simpl.
      eexists. rewrite lookup_insert_eq. split; [done|]. simpl.
      split; [apply elem_of_app; by left|]. split; [done|].
      rewrite lookup_insert_ne by lia. done.
    + destruct (probes w !! sc') as [p'|] eqn:Hp'.
      2: { unfold next. rewrite Hp'. simpl. eauto. }
      destruct (queue p') as [|ev q] eqn:Hq.
      * rewrite (next_wait _ _ _ _ Hp' Hq). simpl.
        exists p. rewrite lookup_insert_ne by done.
        rewrite lookup_insert_ne by lia. done.
      * rewrite (next_immediate _ _ _ _ _ _ Hp' Hq). simpl.
        exists p. by rewrite lookup_insert_ne.
  - assert (sc' ≠ sc) as Hne by congruence.
    destruct (probes w !! sc') as [p'|] eqn:Hp'.
    2: { unfold dispose. by rewrite Hp'. }
    rewrite (dispose_unfold _ _ _ Hp'). simpl.
    destruct (dispose_loop_frame
                (set_probe sc' (set_pending [] p')
                   (set_subscribers (filter (λ s, s ≠ sc') <$> subscribers w) w))
                (pending p')) as (_ & _ & -> & _).
    simpl. exists p. rewrite !lookup_insert_ne by done.
    rewrite dispose_loop_timers. simpl. rewrite decide_False; [done|].
    intros (wt' & Heq & Hin')%list_elem_of_fmap.
    eapply (waiter_timer_owner w sc p wt sc' p' wt'); eauto.
  - assert (t ≠ timer wt) as Hne by congruence.
    destruct (timers w !! t) as [cb'|] eqn:Hcb'.
    2: { by rewrite fire_dead. }
    destruct (fire_live _ _ _ Hwf Hcb') as (p' & l1 & l2 & Hp' & Hpend & ->). simpl.
    rewrite lookup_delete_ne by done.
    destruct (decide (t_owner cb' = sc)) as [Heq|Hne'].
    + rewrite Heq in *. rewrite lookup_insert_eq.
      assert (p' = p) as -> by congruence.
      eexists. split; [done|]. simpl. split; [|done].
      rewrite Hpend in Hin. apply elem_of_app in Hin as [?|Hin]; apply elem_of_app;
        [by left|].
      apply elem_of_cons in Hin as [->|?]; [done|by right].
    + exists p. by rewrite lookup_insert_ne.
Qed.

Lemma exec_cons o tr w : exec (o :: tr) w = exec tr (step o w).
Proof. done. Qed.

Lemma exec_app tr1 tr2 w : exec (tr1 ++ tr2) w = exec tr2 (exec tr1 w).
Proof. unfold exec. apply foldl_app. Qed.

Section waiter_survives.
Variables (sc : symbol) (wt : Waiter) (cb : Timer) (o0 : option Opts.t).
(** [I] holds of the worlds on the way, [ok] of the operations allowed;
    between them they make every emission in the scope of [sc] idle. *)
Variables (I : World → Prop) (ok : op → bool).
Hypothesis I_step : ∀ o w, wf w → I w → is_Some (probes w !! sc) → I (step o w).
Hypothesis idle : ∀ w p l v,
  wf w → I w → probes w !! sc = Some p → opts p = o0 →
  ok (OEmit (Some sc) l v) = true → emit_in (Some sc) l v w = w.

Lemma waiter_survives_exec tr w p :
  wf w → I w → probes w !! sc = Some p → opts p = o0 → wt ∈ pending p →
  timers w !! timer wt = Some cb →
  forallb ok tr = true → forallb (spares sc (timer wt)) tr = true →
  ∃ p', probes (exec tr w) !! sc = Some p' ∧ wt ∈ pending p' ∧
        opts p' = o0 ∧ timers (exec tr w) !! timer wt = Some cb ∧
        promises (exec tr w) !! t_promise cb = Some Pending ∧ I (exec tr w).
Proof.
  revert w p. induction tr as [|o tr IH]; intros w p Hwf HI Hp Ho Hin Hcb Hok Hsp.
  { exists p. repeat split; try done. by eapply wf_timer_promise. }
  simpl in Hok, Hsp.
  apply andb_true_iff in Hok as [Hok1 Hok2]. apply andb_true_iff in Hsp as [Hsp1 Hsp2].
  rewrite exec_cons.
  destruct (waiter_survives_step o w sc p wt cb Hwf Hp Hin Hcb) as (p' & Hp' & Hin' & Ho' & Hcb').
  - intros ->. simpl in Hsp1. by rewrite bool_decide_false in Hsp1 by (intros H; by apply H).
  - intros ->. simpl in Hsp1. by rewrite bool_decide_false in Hsp1 by (intros H; by apply H).
  - intros l v ->. by eapply idle.
  - apply (IH _ p'); try done.
    + by apply wf_step.
    + apply I_step; eauto.
    + congruence.
Qed.
End waiter_survives.

(** When a scheduled timer fires, its promise is rejected with the time-out
    error built from the timer's own delay, and its waiter leaves [pending]. *)
Lemma fire_rejects w t cb :
  wf w → timers w !! t = Some cb →
  promises (fire t w) !! t_promise cb = Some (Rejected (timeout_error (t_ms cb))) ∧
  timers (fire t w) !! t = None ∧
  ∃ p', probes (fire t w) !! t_owner cb = Some p' ∧
        mkWaiter (t_promise cb) t ∉ pending p'.
Proof.
  intros Hwf Hcb.
  destruct (fire_live _ _ _ Hwf Hcb) as (p & l1 & l2 & Hp & Hpend & ->). simpl.
  split; [|split].
  - apply settle_lookup_pending. by eapply wf_timer_promise.
  - apply lookup_delete_eq.
  - eexists. rewrite lookup_insert_eq. split; [done|]. simpl.
    apply sorted_middle_fresh. rewrite <-Hpend. by eapply wf_pending_sorted.
Qed.

(** ** Time-outs *)

(** C4.  [next(timeoutMs)] resolves at once with the oldest buffered event
    when the buffer is not empty.  Otherwise it registers a waiter with a
    timer of [timeoutMs ?? timeoutDefault] (the probe's default being
    [opts.timeoutMs ?? 1000]); as long as no event is emitted in the probe's
    scope the promise stays pending, and when the timer fires the promise is
    rejected with "Probe timeout after <ms>ms" and the waiter is taken out of
    [pending]. *)
Theorem next_resolves_or_times_out w sc p ms :
  reachable w → probes w !! sc = Some p →
  (∀ ev q, queue p = ev :: q →
     promises (snd (next sc ms w)) !! fst (next sc ms w) = Some (Fulfilled ev) ∧
     probes (snd (next sc ms w)) !! sc = Some (set_queue q p) ∧
     timers (snd (next sc ms w)) = timers w)
  ∧ (queue p = [] →
     let pr := fst (next sc ms w) in
     let w1 := snd (next sc ms w) in
     let t := fresh_timer w in
     let d := nullish ms (timeoutDefault p) in
     promises w1 !! pr = Some Pending ∧
     timers w1 !! t = Some (mkTimer sc pr d) ∧
     probes w1 !! sc = Some (set_pending (pending p ++ [mkWaiter pr t]) p) ∧
     ∀ tr, forallb (silent sc) tr = true → forallb (spares sc t) tr = true →
       let w2 := exec tr w1 in
       promises w2 !! pr = Some Pending ∧
       timers w2 !! t = Some (mkTimer sc pr d) ∧
       promises (fire t w2) !! pr = Some (Rejected (timeout_error d)) ∧
       message (timeout_error d) = "Probe timeout after " +:+ pretty d +:+ "ms" ∧
       ∃ p3, probes (fire t w2) !! sc = Some p3 ∧ mkWaiter pr t ∉ pending p3)
  ∧ (∀ o, ∃ p0,
       probes (snd (getProbe true o w)) !! fresh_symbol w = Some p0 ∧
       fst (getProbe true o w) = Normal (ProbeHandle (fresh_symbol w)) ∧
       timeoutDefault p0 = nullish (o ≫= Opts.timeoutMs) 1000%Z).
Proof.
  intros Hwf%reachable_wf Hp. split; [|split].
  - intros ev q Hq. rewrite (next_immediate _ _ _ _ _ _ Hp Hq). simpl.
    split; [|split; [|done]].
    + apply settle_lookup_pending. apply lookup_insert_eq.
    + apply lookup_insert_eq.
  - intros Hq. rewrite (next_wait _ _ _ _ Hp Hq). simpl.
    pose proof (wf_next_wait w sc p ms Hwf Hp Hq) as Hwf1.
    rewrite (next_wait _ _ _ _ Hp Hq) in Hwf1. simpl in Hwf1.
    set (w1 := set_probe sc _ _) in *.
    assert (Hp1 : probes w1 !! sc
                  = Some (set_pending (pending p ++ [mkWaiter (fresh_promise w) (fresh_timer w)]) p)).
    { subst w1. simpl. apply lookup_insert_eq. }
    assert (Ht1 : timers w1 !! fresh_timer w
                  = Some (mkTimer sc (fresh_promise w) (nullish ms (timeoutDefault p)))).
    { subst w1. simpl. apply lookup_insert_eq. }
    split; [|split; [done|split; [done|]]].
    { subst w1. simpl. apply lookup_insert_eq. }
    intros tr Hsilent Hspares.
    destruct (waiter_survives_exec sc (mkWaiter (fresh_promise w) (fresh_timer w))
                (mkTimer sc (fresh_promise w) (nullish ms (timeoutDefault p)))
                (opts p) (λ _, True) (silent sc)) with (tr := tr) (w := w1)
                (p := set_pending (pending p ++ [mkWaiter (fresh_promise w) (fresh_timer w)]) p)
      as (p2 & Hp2 & Hin2 & _ & Ht2 & Hpr2 & _); try done.
    { intros w' p' l v _ _ _ _ Hok. simpl in Hok.
      by rewrite bool_decide_false in Hok by (intros H; by apply H). }
    { simpl. apply elem_of_app. right. by apply list_elem_of_singleton. }
    pose proof (wf_exec tr _ Hwf1) as Hwf2.
    destruct (fire_rejects _ _ _ Hwf2 Ht2) as (Hrej & _ & p3 & Hp3 & Hnin).
    simpl in *. eauto 10.
  - intros o. rewrite getProbe_test by done. simpl.
    eexists. rewrite lookup_insert_eq. done.
Qed.

Lemma next_resolves_or_times_out_witness :
  promises (fire 0 (snd (next 0 None (exec [OGetProbe probe50] init_world)))) !! 0
  = Some (Rejected (mkError "Probe timeout after 50ms")).
Proof.
  destruct (next_resolves_or_times_out
              (exec [OGetProbe probe50] init_world) 0
              (mkProbe probe50 (integer 100) 50 0 [] []) None) as (_ & H & _).
  - by exists [OGetProbe probe50].
  - reflexivity.
  - destruct (H eq_refl) as (_ & _ & _ & H'). destruct (H' [] eq_refl eq_refl) as (_ & _ & Hr & _).
    exact Hr.
Defined.

(** ** What [dispose] changes *)

Lemma filter_idemp {A} (P : A → Prop) `{∀ x, Decision (P x)} (l : list A) :
  filter P (filter P l) = filter P l.
Proof.
  induction l as [|x l IH]; [done|].
  rewrite filter_cons. case_decide as Hx; [|done].
  rewrite filter_cons, decide_True by done. by rewrite IH.
Qed.

Lemma dispose_probes sc w p :
  probes w !! sc = Some p →
  probes (dispose sc w) = <[sc := set_queue [] (set_pending [] p)]> (probes w).
Proof.
  intros Hp. rewrite (dispose_unfold _ _ _ Hp). simpl.
  destruct (dispose_loop_frame
              (set_probe sc (set_pending [] p)
                 (set_subscribers (filter (λ s, s ≠ sc) <$> subscribers w) w))
              (pending p)) as (_ & _ & -> & _).
  simpl. by rewrite insert_insert_eq.
Qed.

Lemma dispose_unknown sc w : probes w !! sc = None → dispose sc w = w.
Proof. intros Hp. unfold dispose. by rewrite Hp. Qed.

Lemma dispose_subscribers sc w p :
  probes w !! sc = Some p →
  subscribers (dispose sc w) = filter (λ s, s ≠ sc) <$> subscribers w.
Proof.
  intros Hp. rewrite (dispose_unfold _ _ _ Hp). simpl.
  by destruct (dispose_loop_frame
            (set_probe sc (set_pending [] p)
               (set_subscribers (filter (λ s, s ≠ sc) <$> subscribers w) w))
            (pending p)) as (-> & _).
Qed.

Lemma dispose_counters sc w :
  als (dispose sc w) = als w ∧
  fresh_symbol (dispose sc w) = fresh_symbol w ∧
  fresh_promise (dispose sc w) = fresh_promise w ∧
  fresh_timer (dispose sc w) = fresh_timer w.
Proof.
  destruct (probes w !! sc) as [p|] eqn:Hp.
  - rewrite (dispose_unfold _ _ _ Hp). simpl.
    by destruct (dispose_loop_frame
              (set_probe sc (set_pending [] p)
                 (set_subscribers (filter (λ s, s ≠ sc) <$> subscribers w) w))
              (pending p)) as (_ & -> & _ & -> & -> & ->).
  - unfold dispose. by rewrite Hp.
Qed.

Lemma dispose_unsubscribes sc w p :
  probes w !! sc = Some p → ¬ subscribed sc (dispose sc w).
Proof.
  intros Hp (subs & Hs & Hin). rewrite (dispose_subscribers _ _ _ Hp) in Hs.
  destruct (subscribers w) as [subs0|]; simpl in Hs; [|done].
  injection Hs as <-. apply list_elem_of_filter in Hin as [Hne _]. done.
Qed.

Lemma world_eq w1 w2 :
  subscribers w1 = subscribers w2 → als w1 = als w2 →
  probes w1 = probes w2 → promises w1 = promises w2 → timers w1 = timers w2 →
  fresh_symbol w1 = fresh_symbol w2 → fresh_promise w1 = fresh_promise w2 →
  fresh_timer w1 = fresh_timer w2 → w1 = w2.
Proof. destruct w1, w2; simpl; intros; by subst. Qed.

Lemma dispose_twice sc w : dispose sc (dispose sc w) = dispose sc w.
Proof.
  destruct (probes w !! sc) as [p|] eqn:Hp.
  2: { by rewrite !dispose_unknown by (by rewrite ?dispose_unknown). }
  assert (Hp' : probes (dispose sc w) !! sc = Some (set_queue [] (set_pending [] p))).
  { rewrite (dispose_probes _ _ _ Hp). apply lookup_insert_eq. }
  rewrite (dispose_unfold _ (dispose sc w) _ Hp'). simpl.
  apply world_eq; simpl; try done.
  - rewrite (dispose_subscribers _ _ _ Hp).
    destruct (subscribers w); simpl; [|done]. by rewrite filter_idemp.
  - rewrite insert_insert_eq. by apply insert_id.
Qed.

(** The two ways a wait can fail are told apart by their seventh character. *)
Lemma disposed_not_timeout ms : disposed_error ≠ timeout_error ms.
Proof.
  intros H. apply (f_equal (λ e, String.get 6 (message e))) in H.
  cbv in H. discriminate H.
Qed.

(** ** The registry only grows by new probes *)

Lemma next_fresh_symbol sc ms w : fresh_symbol (snd (next sc ms w)) = fresh_symbol w.
Proof.
  unfold next. destruct (probes w !! sc) as [p|]; [|done]. by destruct (queue p).
Qed.

Lemma fire_fresh_symbol t w : fresh_symbol (fire t w) = fresh_symbol w.
Proof.
  unfold fire. destruct (timers w !! t) as [cb|]; [|done]. simpl.
  destruct (probes w !! t_owner cb) as [p|]; [|done].
  by destruct (findIndex _ (pending p)).
Qed.

Lemma broadcast_fresh_symbol e subs w :
  fresh_symbol (foldl (λ w' s, snd (sub s e w')) w subs) = fresh_symbol w.
Proof.
  revert w. induction subs as [|s subs IH]; intros w; simpl; [done|].
  rewrite IH. apply sub_frame.
Qed.

Lemma step_fresh_symbol o w : wf w → fresh_symbol w ≤ fresh_symbol (step o w).
Proof.
  intros Hwf. destruct o as [o|ctx l v|sc ms|sc|t]; unfold step.
  - rewrite getProbe_test by done. simpl. lia.
  - by rewrite emit_in_broadcast, broadcast_fresh_symbol.
  - by rewrite next_fresh_symbol.
  - by destruct (dispose_counters sc w) as (_ & -> & _).
  - by rewrite fire_fresh_symbol.
Qed.

Lemma exec_fresh_symbol tr w : wf w → fresh_symbol w ≤ fresh_symbol (exec tr w).
Proof.
  revert w. induction tr as [|o tr IH]; intros w Hwf; [done|].
  rewrite exec_cons. etrans; [by apply step_fresh_symbol|]. by apply IH, wf_step.
Qed.

Lemma broadcast_subscribers e subs w :
  subscribers (foldl (λ w' s, snd (sub s e w')) w subs) = subscribers w.
Proof.
  revert w. induction subs as [|s subs IH]; intros w; simpl; [done|].
  rewrite IH. apply sub_frame.
Qed.

Lemma next_subscribers sc ms w : subscribers (snd (next sc ms w)) = subscribers w.
Proof.
  unfold next. destruct (probes w !! sc) as [p|]; [|done]. by destruct (queue p).
Qed.

Lemma fire_subscribers t w : subscribers (fire t w) = subscribers w.
Proof.
  unfold fire. destruct (timers w !! t) as [cb|]; [|done]. simpl.
  destruct (probes w !! t_owner cb) as [p|]; [|done].
  by destruct (findIndex _ (pending p)).
Qed.

Lemma step_keeps_unsubscribed o w sc :
  wf w → sc < fresh_symbol w → ¬ subscribed sc w → ¬ subscribed sc (step o w).
Proof.
  intros Hwf Hsc Hun. rewrite subscribed_elem in *.
  destruct o as [o|ctx l v|sc' ms|sc'|t]; unfold step.
  - rewrite getProbe_test by done. simpl.
    intros [Hin| ->%list_elem_of_singleton]%elem_of_app; [done|]. lia.
  - by rewrite emit_in_broadcast, broadcast_subscribers.
  - by rewrite next_subscribers.
  - destruct (probes w !! sc') as [p'|] eqn:Hp'.
    + rewrite (dispose_subscribers _ _ _ Hp').
      destruct (subscribers w); simpl in *; [|done].
      by intros [_ ?]%list_elem_of_filter.
    + by rewrite dispose_unknown.
  - by rewrite fire_subscribers.
Qed.

(** A probe that is out of the registry stays out. *)
Lemma exec_keeps_unsubscribed tr w sc :
  wf w → sc < fresh_symbol w → ¬ subscribed sc w → ¬ subscribed sc (exec tr w).
Proof.
  revert w. induction tr as [|o tr IH]; intros w Hwf Hsc Hun; [done|].
  rewrite exec_cons. apply IH.
  - by apply wf_step.
  - pose proof (step_fresh_symbol o w Hwf). lia.
  - by apply step_keeps_unsubscribed.
Qed.

(** ** Disposal is final *)

(** C5.  [dispose()] takes the probe's callback out of the registry for
    good: whatever happens next, the probe is not registered and an emission
    in its scope changes nothing.  Every waiter that was pending has its
    timer cleared and its promise rejected with "Probe disposed", an error
    no time-out produces; buffer and [pending] are left empty; and disposing
    again changes nothing. *)
Theorem dispose_tears_down w sc p :
  reachable w → probes w !! sc = Some p →
  (∀ tr l v,
     ¬ subscribed sc (exec tr (dispose sc w)) ∧
     emit_in (Some sc) l v (exec tr (dispose sc w)) = exec tr (dispose sc w))
  ∧ (∀ wt, wt ∈ pending p →
       promises (dispose sc w) !! promise wt = Some (Rejected disposed_error) ∧
       timers (dispose sc w) !! timer wt = None)
  ∧ (∃ p', probes (dispose sc w) !! sc = Some p' ∧ queue p' = [] ∧ pending p' = [])
  ∧ dispose sc (dispose sc w) = dispose sc w
  ∧ (∀ ms, disposed_error ≠ timeout_error ms).
Proof.
  intros Hwf%reachable_wf Hp.
  pose proof (dispose_unsubscribes _ _ _ Hp) as Hunsub.
  split; [|split; [|split; [|split]]].
  - intros tr l v.
    assert (Hun : ¬ subscribed sc (exec tr (dispose sc w))).
    { apply exec_keeps_unsubscribed; [by apply wf_dispose| |done].
      destruct (dispose_counters sc w) as (_ & -> & _).
      apply (wf_symbol_fresh _ Hwf). eauto. }
    split; [done|]. rewrite emit_in_scope by (by apply wf_exec, wf_dispose).
    rewrite bool_decide_false; [done|]. by rewrite <-subscribed_elem.
  - intros wt Hin. rewrite (dispose_unfold _ _ _ Hp). simpl.
    destruct (wf_waiter_timer _ Hwf _ _ _ Hp Hin) as [ms E].
    split.
    + apply dispose_loop_rejects; [done|]. simpl.
      apply (wf_timer_promise _ Hwf _ _ E).
    + rewrite dispose_loop_timers. rewrite decide_True; [done|].
      by apply list_elem_of_fmap_2.
  - eexists. rewrite (dispose_probes _ _ _ Hp), lookup_insert_eq. done.
  - apply dispose_twice.
  - apply disposed_not_timeout.
Qed.

Lemma dispose_tears_down_witness :
  promises (dispose 0 two_waiters) !! 1 = Some (Rejected (mkError "Probe disposed")).
Proof.
  destruct (dispose_tears_down two_waiters 0
              (mkProbe None (integer 100) 1000 0 [] [mkWaiter 0 0; mkWaiter 1 1]))
    as (_ & H & _).
  - by exists [OGetProbe None; ONext 0 None; ONext 0 (Some 5%Z)].
  - reflexivity.
  - apply (H (mkWaiter 1 1)). apply elem_of_cons. right. apply elem_of_cons. by left.
Defined.

(** ** Filters *)

Lemma rejects_all_empty w sc p :
  wf w → probes w !! sc = Some p → rejects_all p → queue p = [].
Proof.
  intros Hwf Hp Hrej. pose proof (wf_queue_accepted _ Hwf _ _ Hp) as Hacc.
  destruct (queue p) as [|ev q]; [done|].
  apply Forall_cons in Hacc as [Hev _]. unfold accepts in Hev.
  rewrite Hrej in Hev. done.
Qed.

(** C9.  The callback of a probe drops an event of another scope whatever
    its filter would do with it, so the filter only ever sees events of the
    probe's own scope; an event the filter turns down changes nothing: it is
    not buffered and settles no waiter.  Hence, when the filter turns every
    event down, the buffer is empty, [next()] registers a waiter, and
    whatever is emitted while it waits, in the probe's scope or elsewhere, the
    promise is still pending when its timer fires and is then rejected with
    the time-out error. *)
Theorem filter_applies_after_scope w sc p :
  reachable w → probes w !! sc = Some p →
  (∀ e, __scope e ≠ Some sc → sub sc e w = (Normal tt, w))
  ∧ (∀ e, __scope e = Some sc →
       filtered_out (opts p) (mkProbeEvent (e_label e) (e_value e)) = Normal true →
       sub sc e w = (Normal tt, w))
  ∧ (rejects_all p → ∀ ms tr,
       forallb (spares sc (fresh_timer w)) tr = true →
       let pr := fst (next sc ms w) in
       let w1 := snd (next sc ms w) in
       queue p = [] ∧
       promises (exec tr w1) !! pr = Some Pending ∧
       promises (fire (fresh_timer w) (exec tr w1)) !! pr
       = Some (Rejected (timeout_error (nullish ms (timeoutDefault p))))).
Proof.
  intros Hwf%reachable_wf Hp.
  pose proof (wf_scope _ Hwf _ _ Hp) as Hscope.
  split; [|split].
  - intros e He. apply sub_foreign; [by apply wf_scope|done].
  - intros e He Hf. eapply sub_filtered; [done| |done]. by rewrite Hscope.
  - intros Hrej ms tr Hsp.
    pose proof (rejects_all_empty _ _ _ Hwf Hp Hrej) as Hq.
    pose proof (wf_next_wait w sc p ms Hwf Hp Hq) as Hwf1.
    rewrite (next_wait _ _ _ _ Hp Hq) in *. simpl in Hwf1 |- *.
    set (w1 := set_probe sc _ _) in *.
    destruct (waiter_survives_exec sc (mkWaiter (fresh_promise w) (fresh_timer w))
                (mkTimer sc (fresh_promise w) (nullish ms (timeoutDefault p)))
                (opts p) (λ _, True) (λ _, true)) with (tr := tr) (w := w1)
                (p := set_pending (pending p ++ [mkWaiter (fresh_promise w) (fresh_timer w)]) p)
      as (p2 & Hp2 & Hin2 & _ & Ht2 & Hpr2 & _); try done.
    { intros w' p' l v Hwf' _ Hp' Ho _. rewrite emit_in_scope by done.
      case_bool_decide; [|done].
      erewrite sub_filtered; [done|done|simpl; by rewrite (wf_scope _ Hwf' _ _ Hp')|].
      rewrite Ho. apply Hrej. }
    { subst w1. simpl. apply lookup_insert_eq. }
    { simpl. apply elem_of_app. right. by apply list_elem_of_singleton. }
    { subst w1. simpl. apply lookup_insert_eq. }
    { clear. by induction tr. }
    pose proof (wf_exec tr _ Hwf1) as Hwf2.
    destruct (fire_rejects _ _ _ Hwf2 Ht2) as (Hrej' & _).
    simpl in *. eauto.
Qed.

Lemma filter_applies_after_scope_witness :
  promises
    (exec [OGetProbe never; ONext 0 None; OEmit (Some 0) "x" (VNumber 1); OFire 0]
          init_world) !! 0
  = Some (Rejected (mkError "Probe timeout after 50ms")).
Proof.
  destruct (filter_applies_after_scope
              (exec [OGetProbe never] init_world) 0
              (mkProbe never (integer 100) 50 0 [] [])) as (_ & _ & H).
  - by exists [OGetProbe never].
  - reflexivity.
  - destruct (H (λ _, eq_refl) None [OEmit (Some 0) "x" (VNumber 1)] eq_refl)
      as (_ & _ & Hr).
    exact Hr.
Defined.

(** ** [next] after [dispose] *)

(** C10.  A [next()] issued after [dispose()] finds the buffer empty and
    registers a new waiter with a scheduled timer.  The probe is out of the
    registry for good, so no emission reaches it: until the probe is disposed
    again or the timer fires, the promise stays pending with its timer
    scheduled, and when the timer fires the promise is rejected with the
    time-out error, which is not the "disposed" one. *)
Theorem next_after_dispose_times_out w sc p ms :
  reachable w → probes w !! sc = Some p →
  let w1 := dispose sc w in
  let pr := fst (next sc ms w1) in
  let w2 := snd (next sc ms w1) in
  let t := fresh_timer w in
  let d := nullish ms (timeoutDefault p) in
  promises w2 !! pr = Some Pending ∧
  timers w2 !! t = Some (mkTimer sc pr d) ∧
  (∃ p2, probes w2 !! sc = Some p2 ∧ pending p2 = [mkWaiter pr t]) ∧
  ∀ tr, forallb (spares sc t) tr = true →
    ¬ subscribed sc (exec tr w2) ∧
    promises (exec tr w2) !! pr = Some Pending ∧
    timers (exec tr w2) !! t = Some (mkTimer sc pr d) ∧
    promises (fire t (exec tr w2)) !! pr = Some (Rejected (timeout_error d)) ∧
    timeout_error d ≠ disposed_error.
Proof.
  intros Hwf%reachable_wf Hp. simpl.
  pose proof (wf_dispose w sc Hwf) as Hwf1.
  pose proof (dispose_unsubscribes _ _ _ Hp) as Hun1.
  destruct (dispose_counters sc w) as (_ & _ & Hfp & Hft).
  assert (Hp1 : probes (dispose sc w) !! sc = Some (set_queue [] (set_pending [] p))).
  { rewrite (dispose_probes _ _ _ Hp). apply lookup_insert_eq. }
  pose proof (wf_next_wait _ sc _ ms Hwf1 Hp1 eq_refl) as Hwf2.
  rewrite (next_wait _ _ _ _ Hp1 eq_refl) in *. simpl in Hwf2 |- *.
  rewrite Hfp, Hft in *.
  set (w2 := set_probe sc _ _) in *.
  assert (Hp2 : probes w2 !! sc
                = Some (set_pending [mkWaiter (fresh_promise w) (fresh_timer w)]
                          (set_queue [] (set_pending [] p)))).
  { subst w2. simpl. apply lookup_insert_eq. }
  assert (Ht2 : timers w2 !! fresh_timer w
                = Some (mkTimer sc (fresh_promise w) (nullish ms (timeoutDefault p)))).
  { subst w2. simpl. apply lookup_insert_eq. }
  split; [|split; [done|split; [eauto|]]].
  { subst w2. simpl. apply lookup_insert_eq. }
  intros tr Hsp.
  destruct (waiter_survives_exec sc (mkWaiter (fresh_promise w) (fresh_timer w))
              (mkTimer sc (fresh_promise w) (nullish ms (timeoutDefault p)))
              (opts p) (λ w', ¬ subscribed sc w') (λ _, true)) with (tr := tr) (w := w2)
              (p := set_pending [mkWaiter (fresh_promise w) (fresh_timer w)]
                      (set_queue [] (set_pending [] p)))
    as (p3 & Hp3 & Hin3 & _ & Ht3 & Hpr3 & Hun3); try done.
  { intros o w' Hwf' Hun' Hsome. apply step_keeps_unsubscribed; [done| |done].
    by apply wf_symbol_fresh. }
  { intros w' p' l v Hwf' Hun' _ _ _. rewrite emit_in_scope by done.
    rewrite bool_decide_false; [done|]. by rewrite <-subscribed_elem. }
  { simpl. by apply list_elem_of_singleton. }
  { clear. by induction tr. }
  pose proof (wf_exec tr _ Hwf2) as Hwf3.
  destruct (fire_rejects _ _ _ Hwf3 Ht3) as (Hrej & _).
  split; [done|]. split; [done|]. split; [done|]. split; [done|].
  intros Heq. by apply (disposed_not_timeout (nullish ms (timeoutDefault p))).
Qed.

Lemma next_after_dispose_times_out_witness :
  promises
    (exec [OGetProbe probe50; ODispose 0; ONext 0 None;
           OEmit (Some 0) "x" (VNumber 1); OFire 0] init_world) !! 0
  = Some (Rejected (mkError "Probe timeout after 50ms")).
Proof.
  destruct (next_after_dispose_times_out
              (exec [OGetProbe probe50] init_world) 0
              (mkProbe probe50 (integer 100) 50 0 [] []) None) as (_ & _ & _ & H).
  - by exists [OGetProbe probe50].
  - reflexivity.
  - destruct (H [OEmit (Some 0) "x" (VNumber 1)] eq_refl) as (_ & _ & _ & Hr & _).
    exact Hr.
Defined.

(** ** Builds without tests *)

(** C6, the claim as stated: in a build of [index.ts] with [__TEST__] false
    the factory does not fail; it returns. *)
Lemma getProbe_production_returns :
  ¬ ∃ err, fst (getProbe false None init_world) = Throw err.
Proof. intros [err H]. discriminate H. Qed.

(** C6, amended.  The browser build's [getProbe] throws at the call.  The
    [getProbe] of [index.ts] built with [__TEST__] false returns a stub
    without touching anything; the failure comes when the stub is used:
    [next()] and a step of its iterator return a promise that is already
    rejected with "getProbe() used outside tests", while [dispose()] does
    nothing and [run(fn)] just calls [fn]. *)
Theorem getProbe_outside_tests o w ms :
  Browser.getProbe w = (Throw Browser.getProbe_error, w)
  ∧ getProbe false o w = (Normal StubHandle, w)
  ∧ promises (snd (handle_next StubHandle ms w)) !! fst (handle_next StubHandle ms w)
    = Some (Rejected outside_tests_error)
  ∧ promises (snd (handle_iterator_next StubHandle w)) !! fst (handle_iterator_next StubHandle w)
    = Some (Rejected outside_tests_error)
  ∧ handle_dispose StubHandle w = w
  ∧ (∀ A (fn : World → A * World), handle_run StubHandle fn w = fn w).
Proof.
  repeat split; simpl; try done; apply lookup_insert_eq.
Qed.

(** ** Isolation of failing subscribers *)

(** C7.  [probeEmit] returns normally in every build, for every label,
    value, ambient scope and registry, whatever the filters of the registered
    probes do.  In a test build the world it leaves is the one obtained by
    running every registered callback in turn on the event, each on the
    state left by the one before it; in particular, when the callback of a
    registered probe throws, the callbacks registered after it still run, on
    the state the ones before it left.  In the other builds the call does
    nothing. *)
Theorem probeEmit_never_throws b l v w :
  fst (probeEmit b l v w) = Normal tt
  ∧ snd (probeEmit true l v w)
    = foldl (λ w' s, snd (sub s (mkInternalEvent l v (currentScope w)) w'))
            w (nullish (subscribers w) [])
  ∧ (∀ subs1 s subs2 err,
       subscribers w = Some (subs1 ++ s :: subs2) →
       let e := mkInternalEvent l v (currentScope w) in
       let w1 := foldl (λ w' s, snd (sub s e w')) w subs1 in
       sub s e w1 = (Throw err, w1) →
       probeEmit true l v w
       = (Normal tt, foldl (λ w' s, snd (sub s e w')) w1 subs2))
  ∧ probeEmit false l v w = (Normal tt, w)
  ∧ Browser.probeEmit l v w = (Normal tt, w).
Proof.
  unfold probeEmit. split; [|split; [|split; [|done]]].
  - destruct b; [by rewrite emitImpl_test|done].
  - by rewrite emitImpl_test.
  - intros subs1 s subs2 err Hsubs Hthrow. rewrite emitImpl_test, Hsubs. simpl.
    rewrite foldl_app. simpl. by rewrite Hthrow.
Qed.

Lemma probeEmit_never_throws_witness :
  probeEmit true "x" (VNumber 1) (set_als (Some 0) throwing_first)
  = (Normal tt, set_als (Some 0) throwing_first).
Proof.
  destruct (probeEmit_never_throws true "x" (VNumber 1)
              (set_als (Some 0) throwing_first)) as (_ & _ & H & _).
  apply (H [] 0 [1] (mkError "boom")); reflexivity.
Defined.

(** A loop without the [try] would stop at the first callback that throws. *)
Lemma broadcast_needs_catch sc e w err subs :
  sub sc e w = (Throw err, w) → for_of (sc :: subs) (λ s, sub s e) w = (Throw err, w).
Proof. intros H. by apply for_of_throw. Qed.

(** ** Buffer and waiters exclude each other *)












(** ** Scope routing *)

(** An emission in the scope of one probe leaves every other probe, its
    waiters, their promises and their timers as they were. *)
Lemma emit_in_other w sc1 sc2 p2 l v :
  wf w → sc1 ≠ sc2 → probes w !! sc2 = Some p2 →
  probes (emit_in (Some sc1) l v w) !! sc2 = Some p2 ∧
  ∀ wt, wt ∈ pending p2 →
    promises (emit_in (Some sc1) l v w) !! promise wt = Some Pending ∧
    timers (emit_in (Some sc1) l v w) !! timer wt = timers w !! timer wt.
Proof.
  intros Hwf Hne Hp2.
  assert (Hpend : ∀ wt, wt ∈ pending p2 → promises w !! promise wt = Some Pending).
  { intros wt Hin. destruct (wf_waiter_timer _ Hwf _ _ _ Hp2 Hin) as [ms E].
    apply (wf_timer_promise _ Hwf _ _ E). }
  rewrite emit_in_scope by done. case_bool_decide; [|by eauto].
  destruct (sub_cases sc1 (mkInternalEvent l v (Some sc1)) w)
    as [E|err E|p1 wt1 rest Hp1 Hs Hf Hq|p1 Hp1 Hs Hf Hq].
  - rewrite E. eauto.
  - rewrite E. eauto.
  - rewrite (sub_handoff _ _ _ _ _ _ Hp1 Hs Hf Hq). simpl.
    rewrite lookup_insert_ne by done. split; [done|]. intros wt Hin.
    assert (Hin1 : wt1 ∈ pending p1) by (rewrite Hq; apply elem_of_cons; by left).
    split.
    + rewrite settle_lookup_ne; [by apply Hpend|].
      intros Heq. apply Hne. by eapply (wf_promise_owner w sc1 p1 wt1 sc2 p2 wt).
    + apply lookup_delete_ne.
      by apply (waiter_timer_owner w sc2 p2 wt sc1 p1 wt1).
  - rewrite (sub_buffer _ _ _ _ Hp1 Hs Hf Hq). simpl.
    rewrite lookup_insert_ne by done. eauto.
Qed.

(** C1.  The callback of a probe leaves the world alone when the event was
    not emitted in the probe's own scope, and takes the event (hands it to
    the oldest waiter, or buffers it as the newest entry) when it was and the
    probe's filter, if any, lets it through.  So an emission in the scope of
    one probe changes neither the state of another probe nor the promises
    and timers of its waiters, and an emission outside every scope changes
    nothing at all.  Two [getProbe] calls never return the same scope.  And
    an event emitted under [run] of a registered probe is tagged with that
    probe's scope and given to its callback: the emission is one call of the
    callback on the event so tagged, so the oldest waiter is resolved with
    the event, or the event is buffered. *)
Theorem scope_routing_exact w :
  reachable w →
  (∀ sc p e, probes w !! sc = Some p → __scope e ≠ Some sc →
     sub sc e w = (Normal tt, w))
  ∧ (∀ sc p e, probes w !! sc = Some p → __scope e = Some sc →
       accepts p (mkProbeEvent (e_label e) (e_value e)) →
       match pending p with
       | wt :: rest =>
           promises (snd (sub sc e w)) !! promise wt
           = Some (Fulfilled (mkProbeEvent (e_label e) (e_value e))) ∧
           probes (snd (sub sc e w)) !! sc = Some (set_pending rest p)
       | [] =>
           ∃ q, probes (snd (sub sc e w)) !! sc
                = Some (set_queue (q ++ [mkProbeEvent (e_label e) (e_value e)]) p) ∧
                (q = queue p ∨ q = tail (queue p))
       end)
  ∧ (∀ sc1 sc2 p2 l v, sc1 ≠ sc2 → probes w !! sc2 = Some p2 →
       probes (emit_in (Some sc1) l v w) !! sc2 = Some p2 ∧
       ∀ wt, wt ∈ pending p2 →
         promises (emit_in (Some sc1) l v w) !! promise wt = Some Pending ∧
         timers (emit_in (Some sc1) l v w) !! timer wt = timers w !! timer wt)
  ∧ (∀ l v, emit_in None l v w = w)
  ∧ (∀ o1 o2 tr,
       fst (getProbe true o1 w)
       ≠ fst (getProbe true o2 (exec tr (snd (getProbe true o1 w)))))
  ∧ (∀ sc p l v, probes w !! sc = Some p → subscribed sc w →
       snd (run sc (probeEmit true l v) w)
       = snd (sub sc (mkInternalEvent l v (Some sc)) w)
       ∧ (accepts p (mkProbeEvent l v) →
          match pending p with
          | wt :: rest =>
              promises (snd (run sc (probeEmit true l v) w)) !! promise wt
              = Some (Fulfilled (mkProbeEvent l v)) ∧
              probes (snd (run sc (probeEmit true l v) w)) !! sc
              = Some (set_pending rest p)
          | [] =>
              ∃ q, probes (snd (run sc (probeEmit true l v) w)) !! sc
                   = Some (set_queue (q ++ [mkProbeEvent l v]) p) ∧
                   (q = queue p ∨ q = tail (queue p))
          end)).
Proof.
  intros Hwf%reachable_wf.
  assert (Htake : ∀ sc p e, probes w !! sc = Some p → __scope e = Some sc →
       accepts p (mkProbeEvent (e_label e) (e_value e)) →
       match pending p with
       | wt :: rest =>
           promises (snd (sub sc e w)) !! promise wt
           = Some (Fulfilled (mkProbeEvent (e_label e) (e_value e))) ∧
           probes (snd (sub sc e w)) !! sc = Some (set_pending rest p)
       | [] =>
           ∃ q, probes (snd (sub sc e w)) !! sc
                = Some (set_queue (q ++ [mkProbeEvent (e_label e) (e_value e)]) p) ∧
                (q = queue p ∨ q = tail (queue p))
       end).
  { intros sc p e Hp He Hacc.
    assert (Hs : __scope e = Some (scope p)) by (by rewrite (wf_scope _ Hwf _ _ Hp)).
    destruct (pending p) as [|wt rest] eqn:Hq.
    + rewrite (sub_buffer _ _ _ _ Hp Hs Hacc Hq). simpl.
      eexists. rewrite lookup_insert_eq. split; [done|].
      destruct (length_ge _ _); auto.
    + rewrite (sub_handoff _ _ _ _ _ _ Hp Hs Hacc Hq). simpl.
      rewrite lookup_insert_eq. split; [|done].
      apply settle_lookup_pending.
      assert (Hin : wt ∈ pending p) by (rewrite Hq; apply elem_of_cons; by left).
      destruct (wf_waiter_timer _ Hwf _ _ _ Hp Hin) as [ms E].
      apply (wf_timer_promise _ Hwf _ _ E). }
  split; [|split; [done|split; [|split; [|split]]]].
  - intros sc p e Hp He. apply sub_foreign; [by apply wf_scope|done].
  - intros sc1 sc2 p2 l v Hne Hp2. by apply emit_in_other.
  - intros l v. by apply emit_in_no_scope.
  - intros o1 o2 tr. pose proof (wf_getProbe o1 w Hwf) as Hwf1.
    pose proof (exec_fresh_symbol tr _ Hwf1) as Hle.
    rewrite (getProbe_test o2) by (by apply wf_exec).
    rewrite (getProbe_test o1) in * by done. simpl in *.
    intros [= Heq]. lia.
  - intros sc p l v Hp Hsub.
    change (snd (run sc (probeEmit true l v) w)) with (emit_in (Some sc) l v w).
    rewrite emit_in_scope by done.
    rewrite bool_decide_true by (by apply subscribed_elem).
    split; [done|]. intros Hacc.
    apply (Htake sc p (mkInternalEvent l v (Some sc)) Hp eq_refl Hacc).
Qed.

Lemma scope_routing_exact_witness :
  promises (emit_in (Some 0) "t" (VString "a") two_probes) !! 0 = Some Pending
  ∧ promises (snd (run 1 (probeEmit true "t" (VString "b")) two_probes)) !! 0
    = Some (Fulfilled ev_b)
  ∧ snd (run 1 (probeEmit true "t" (VString "b")) two_probes)
    = snd (sub 1 (mkInternalEvent "t" (VString "b") (Some 1)) two_probes).
Proof.
  destruct (scope_routing_exact two_probes) as (_ & _ & H & _ & _ & Hrun).
  - by exists [OGetProbe None; OGetProbe None; ONext 1 None].
  - destruct (H 0 1 (mkProbe None (integer 100) 1000 1 [] [mkWaiter 0 0]) "t" (VString "a"))
      as [_ H']; [done|reflexivity|].
    destruct (Hrun 1 (mkProbe None (integer 100) 1000 1 [] [mkWaiter 0 0]) "t" (VString "b"))
      as [Heq Htake];
      [reflexivity
      |exists [0; 1]; split; [reflexivity|apply elem_of_cons; right; apply list_elem_of_here]|].
    split; [|split; [|exact Heq]].
    + apply (H' (mkWaiter 0 0)). apply elem_of_cons. by left.
    + by destruct (Htake eq_refl) as [Hres _].
Defined.

(** The scenario with two probes: ('t', 'a') emitted in the scope of the
    first and ('t', 'b') in the scope of the second reach their own probe,
    whichever is emitted first. *)
Example two_probes_each_their_own :
  let w1 := exec [OGetProbe None; OGetProbe None;
                  OEmit (Some 0) "t" (VString "a"); OEmit (Some 1) "t" (VString "b");
                  ONext 0 None; ONext 1 None] init_world in
  let w2 := exec [OGetProbe None; OGetProbe None;
                  OEmit (Some 1) "t" (VString "b"); OEmit (Some 0) "t" (VString "a");
                  ONext 0 None; ONext 1 None] init_world in
  promises w1 !! 0 = Some (Fulfilled ev_a) ∧ promises w1 !! 1 = Some (Fulfilled ev_b) ∧
  promises w2 !! 0 = Some (Fulfilled ev_a) ∧ promises w2 !! 1 = Some (Fulfilled ev_b).
Proof. repeat split. Qed.

(** ** First in, first out *)

Lemma fulfilled_with_eq w w' pr :
  promises w' !! pr = promises w !! pr → fulfilled_with w' pr = fulfilled_with w pr.
Proof. unfold fulfilled_with. by intros ->. Qed.

Lemma received_cons c cs w :
  received (c :: cs) w
  = match fulfilled_with w c with
    | Some e => e :: received cs w
    | None => received cs w
    end.
Proof. done. Qed.

Lemma received_app cs1 cs2 w :
  received (cs1 ++ cs2) w = received cs1 w ++ received cs2 w.
Proof. apply omap_app. Qed.

Lemma received_ext cs w w' :
  (∀ pr, pr ∈ cs → fulfilled_with w' pr = fulfilled_with w pr) →
  received cs w' = received cs w.
Proof.
  induction cs as [|c cs IH]; intros H; [done|]. rewrite !received_cons.
  rewrite H by (apply elem_of_cons; by left).
  rewrite IH; [done|]. intros pr Hpr. apply H. apply elem_of_cons. by right.
Qed.

Lemma received_none cs w :
  (∀ pr, pr ∈ cs → fulfilled_with w pr = None) → received cs w = [].
Proof.
  induction cs as [|c cs IH]; intros H; [done|]. rewrite received_cons.
  rewrite H by (apply elem_of_cons; by left).
  apply IH. intros pr Hpr. apply H. apply elem_of_cons. by right.
Qed.

(** When the promise of the oldest waiter is resolved, what the calls have
    received grows at its end. *)
Lemma received_handoff cs w w' pr0 ev :
  StronglySorted lt cs →
  (∀ pr, pr ∈ cs → pr0 ≤ pr → fulfilled_with w pr = None) →
  (∀ pr, pr ≠ pr0 → fulfilled_with w' pr = fulfilled_with w pr) →
  fulfilled_with w' pr0 = Some ev →
  received cs w' = received cs w ++ (if decide (pr0 ∈ cs) then [ev] else []).
Proof.
  intros Hs Hnone Hsame Hev. induction cs as [|c cs IH].
  { case_decide as H; [by apply elem_of_nil in H|done]. }
  apply StronglySorted_inv in Hs as [Hs Hall]. rewrite Forall_forall in Hall.
  destruct (decide (c = pr0)) as [->|Hne].
  - rewrite decide_True by (apply elem_of_cons; by left).
    rewrite !received_cons, Hev.
    rewrite (Hnone pr0) by (try lia; apply elem_of_cons; by left).
    rewrite (received_none cs w).
    2: { intros pr Hpr. apply Hnone; [apply elem_of_cons; by right|].
         pose proof (Hall _ Hpr). lia. }
    rewrite (received_none cs w'); [done|].
    intros pr Hpr. pose proof (Hall _ Hpr). rewrite Hsame by lia.
    apply Hnone; [apply elem_of_cons; by right|lia].
  - rewrite !received_cons, (Hsame c) by done.
    rewrite IH; [|done|].
    2: { intros pr Hpr. apply Hnone. apply elem_of_cons. by right. }
    assert (Hiff : (if decide (pr0 ∈ c :: cs) then [ev] else [])
                   = (if decide (pr0 ∈ cs) then [ev] else [])).
    { destruct (decide (pr0 ∈ cs)) as [Hin|Hnin].
      - rewrite decide_True; [done|]. apply elem_of_cons. by right.
      - rewrite decide_False; [done|]. intros [?|?]%elem_of_cons; [congruence|done]. }
    rewrite Hiff. destruct (fulfilled_with w c); simpl; [done|done].
Qed.

Lemma next_fst sc ms w : fst (next sc ms w) = fresh_promise w.
Proof.
  unfold next. destruct (probes w !! sc) as [p|]; [|done]. by destruct (queue p).
Qed.

(** What an operation other than an emission in the scope of [sc] and a
    [next] on [sc] does to that probe and to the promises of its calls. *)
Lemma step_frame o w sc p :
  wf w → probes w !! sc = Some p →
  (∀ l v, o ≠ OEmit (Some sc) l v) → (∀ ms, o ≠ ONext sc ms) →
  ∃ p', probes (step o w) !! sc = Some p' ∧
        queue p' `sublist_of` queue p ∧
        (∀ wt, wt ∈ pending p' → wt ∈ pending p) ∧
        fresh_promise w ≤ fresh_promise (step o w) ∧
        ∀ pr, pr < fresh_promise w →
              (promises w !! pr = Some Pending → pr ∈ promise <$> pending p) →
              fulfilled_with (step o w) pr = fulfilled_with w pr ∧
              (promises (step o w) !! pr = Some Pending → pr ∈ promise <$> pending p').
Proof.
  intros Hwf Hp Hnoemit Hnonext.
  assert (Hsame : ∃ p', probes w !! sc = Some p' ∧
        queue p' `sublist_of` queue p ∧
        (∀ wt, wt ∈ pending p' → wt ∈ pending p) ∧
        fresh_promise w ≤ fresh_promise w ∧
        ∀ pr, pr < fresh_promise w →
              (promises w !! pr = Some Pending → pr ∈ promise <$> pending p) →
              fulfilled_with w pr = fulfilled_with w pr ∧
              (promises w !! pr = Some Pending → pr ∈ promise <$> pending p')).
  { exists p. repeat split; auto. }
  destruct o as [o|ctx l v|sc' ms|sc'|t]; unfold step.
  - rewrite getProbe_test by done. simpl.
    exists p. rewrite lookup_insert_ne.
    2: { pose proof (wf_symbol_fresh _ Hwf _ (mk_is_Some _ _ Hp)). lia. }
    repeat split; auto.
  - destruct ctx as [sc'|]; [|by rewrite emit_in_no_scope].
    assert (sc' ≠ sc) as Hne by (intros ->; by eapply Hnoemit).
    rewrite emit_in_scope by done. case_bool_decide; [|done].
    destruct (sub_cases sc' (mkInternalEvent l v (Some sc')) w)
      as [E|err E|p1 wt1 rest Hp1 Hs Hf Hq|p1 Hp1 Hs Hf Hq].
    + by rewrite E.
    + by rewrite E.
    + rewrite (sub_handoff _ _ _ _ _ _ Hp1 Hs Hf Hq). simpl.
      exists p. rewrite lookup_insert_ne by done.
      split; [done|]. split; [done|]. split; [done|]. split; [done|].
      intros pr Hlt Hpend.
      assert (Hin1 : wt1 ∈ pending p1) by (rewrite Hq; apply elem_of_cons; by left).
      assert (pr ≠ promise wt1) as Hpr.
      { intros ->. destruct (wf_waiter_timer _ Hwf _ _ _ Hp1 Hin1) as [ms E].
        pose proof (wf_timer_promise _ Hwf _ _ E) as Hpd. simpl in Hpd.
        apply Hpend in Hpd. apply list_elem_of_fmap in Hpd as (wt & Heq & Hin).
        apply Hne. symmetry. by eapply (wf_promise_owner w sc p wt sc' p1 wt1). }
      split.
      * apply fulfilled_with_eq. simpl. by apply settle_lookup_ne.
      * simpl. rewrite settle_lookup_ne by done. done.
    + rewrite (sub_buffer _ _ _ _ Hp1 Hs Hf Hq). simpl.
      exists p. rewrite lookup_insert_ne by done. repeat split; auto.
  - assert (sc' ≠ sc) as Hne by (intros ->; by eapply Hnonext).
    destruct (probes w !! sc') as [p1|] eqn:Hp1.
    2: { unfold next. rewrite Hp1. simpl. exists p.
         split; [done|]. split; [done|]. split; [done|]. split; [lia|].
         intros pr Hlt Hpend. split.
         - apply fulfilled_with_eq. simpl. apply lookup_insert_ne. lia.
         - simpl. rewrite lookup_insert_ne by lia. done. }
    destruct (queue p1) as [|ev q] eqn:Hq.
    + rewrite (next_wait _ _ _ _ Hp1 Hq). simpl.
      exists p. rewrite lookup_insert_ne by done.
      split; [done|]. split; [done|]. split; [done|]. split; [lia|].
      intros pr Hlt Hpend. split.
      * apply fulfilled_with_eq. simpl. apply lookup_insert_ne. lia.
      * simpl. rewrite lookup_insert_ne by lia. done.
    + rewrite (next_immediate _ _ _ _ _ _ Hp1 Hq). simpl.
      exists p. rewrite lookup_insert_ne by done.
      split; [done|]. split; [done|]. split; [done|]. split; [lia|].
      intros pr Hlt Hpend. split.
      * apply fulfilled_with_eq. simpl.
        rewrite settle_lookup_ne by lia. apply lookup_insert_ne. lia.
      * simpl. rewrite settle_lookup_ne by lia. rewrite lookup_insert_ne by lia. done.
  - destruct (probes w !! sc') as [p1|] eqn:Hp1.
    2: { by rewrite dispose_unknown. }
    destruct (dispose_counters sc' w) as (_ & _ & Hfp & _).
    assert (Hprom : ∀ pr,
      (pr ∈ promise <$> pending p1 ∧ promises w !! pr = Some Pending ∧
       promises (dispose sc' w) !! pr = Some (Rejected disposed_error))
      ∨ ((pr ∉ promise <$> pending p1) ∧
         promises (dispose sc' w) !! pr = promises w !! pr)).
    { intros pr. rewrite (dispose_unfold _ _ _ Hp1). simpl.
      destruct (decide (pr ∈ promise <$> pending p1)) as [Hin|Hnin].
      - left. split; [done|]. apply list_elem_of_fmap in Hin as (wt & -> & Hin).
        destruct (wf_waiter_timer _ Hwf _ _ _ Hp1 Hin) as [ms E].
        pose proof (wf_timer_promise _ Hwf _ _ E) as Hpd. simpl in Hpd.
        split; [done|]. by apply dispose_loop_rejects.
      - right. split; [done|]. by rewrite dispose_loop_promises_other. }
    assert (∃ p', probes (dispose sc' w) !! sc = Some p' ∧
              queue p' `sublist_of` queue p ∧
              (∀ wt, wt ∈ pending p' → wt ∈ pending p) ∧
              (sc' ≠ sc → p' = p) ∧ (sc' = sc → p1 = p))
      as (p' & Hp' & Hq' & Hpd' & Hother & Hown).
    { rewrite (dispose_probes _ _ _ Hp1).
      destruct (decide (sc' = sc)) as [->|Hne].
      - rewrite lookup_insert_eq. eexists. split; [done|]. simpl.
        split; [apply sublist_nil_l|]. split; [by intros ? ?%elem_of_nil|].
        split; [done|]. congruence.
      - rewrite lookup_insert_ne by done. exists p.
        split; [done|]. split; [done|]. split; [done|]. split; [done|].
        intros ?. done. }
    exists p'. split; [done|]. split; [done|]. split; [done|]. split; [lia|].
    intros pr Hlt Hpend.
    destruct (Hprom pr) as [(Hin & Hw & Hw')|(Hnin & Heq)].
    + split.
      * unfold fulfilled_with. by rewrite Hw, Hw'.
      * rewrite Hw'. done.
    + split; [by apply fulfilled_with_eq|].
      rewrite Heq. intros Hpd. specialize (Hpend Hpd).
      destruct (decide (sc' = sc)) as [Heq'|Hne].
      * rewrite (Hown Heq') in Hnin. done.
      * by rewrite (Hother Hne).
  - destruct (timers w !! t) as [cb|] eqn:Hcb.
    2: { by rewrite fire_dead. }
    destruct (fire_live _ _ _ Hwf Hcb) as (p1 & l1 & l2 & Hp1 & Hpend1 & ->). simpl.
    pose proof (wf_timer_promise _ Hwf _ _ Hcb) as Hpd0.
    assert (∃ p', <[t_owner cb := set_pending (l1 ++ l2) p1]> (probes w) !! sc = Some p' ∧
              queue p' `sublist_of` queue p ∧
              (∀ wt, wt ∈ pending p' → wt ∈ pending p) ∧
              (∀ pr, pr ≠ t_promise cb → pr ∈ promise <$> pending p →
                     pr ∈ promise <$> pending p'))
      as (p' & Hp' & Hq' & Hpd' & Hkeep).
    { destruct (decide (t_owner cb = sc)) as [Heq|Hne].
      - rewrite Heq in *. rewrite lookup_insert_eq.
        assert (p1 = p) as -> by congruence.
        eexists. split; [done|]. simpl. split; [done|]. rewrite Hpend1. split.
        + intros wt [?|?]%elem_of_app; apply elem_of_app; [by left|].
          right. apply elem_of_cons. by right.
        + intros pr Hne (wt & -> & Hin)%list_elem_of_fmap. apply list_elem_of_fmap_2.
          apply elem_of_app in Hin as [?|Hin]; apply elem_of_app; [by left|].
          apply elem_of_cons in Hin as [->|?]; [done|by right].
      - rewrite lookup_insert_ne by done. exists p.
        split; [done|]. split; [done|]. split; [done|]. done. }
    exists p'. split; [done|]. split; [done|]. split; [done|]. split; [lia|].
    intros pr Hlt Hpend. destruct (decide (pr = t_promise cb)) as [->|Hne].
    + split.
      * unfold fulfilled_with. simpl. rewrite settle_lookup_pending by done. by rewrite Hpd0.
      * simpl. rewrite settle_lookup_pending by done. done.
    + split.
      * apply fulfilled_with_eq. simpl. by apply settle_lookup_ne.
      * simpl. rewrite settle_lookup_ne by done. intros Hpd. by apply Hkeep, Hpend.
Qed.

Lemma fifo_frame sc w w' cs E E' p p' :
  fifo_inv sc w cs E → probes w !! sc = Some p →
  wf w' → probes w' !! sc = Some p' →
  queue p' `sublist_of` queue p →
  (∀ wt, wt ∈ pending p' → wt ∈ pending p) →
  fresh_promise w ≤ fresh_promise w' →
  (∀ pr, pr ∈ cs → fulfilled_with w' pr = fulfilled_with w pr) →
  (∀ pr, pr ∈ cs → promises w' !! pr = Some Pending → pr ∈ promise <$> pending p') →
  E `sublist_of` E' →
  fifo_inv sc w' cs E'.
Proof.
  intros Hinv Hp Hwf' Hp' Hq Hpend Hfresh Hful Hstill HE.
  split; [done|eauto|..].
  - intros q Hq'. assert (q = p') as -> by congruence.
    rewrite (received_ext _ _ _ Hful). etrans; [|done]. etrans; [|by eapply fi_order].
    by apply sublist_app.
  - intros q wt pr Hq' Hin Hpr Hle. assert (q = p') as -> by congruence.
    rewrite Hful by done. eapply fi_tail; eauto.
  - intros pr Hpr. pose proof (fi_fresh _ _ _ _ Hinv _ Hpr). lia.
  - intros q pr Hq' Hpr Hpd. assert (q = p') as -> by congruence. by apply Hstill.
  - by eapply fi_sorted.
Qed.

Lemma fifo_pending_promise sc w cs E p wt :
  fifo_inv sc w cs E → probes w !! sc = Some p → wt ∈ pending p →
  promises w !! promise wt = Some Pending.
Proof.
  intros Hinv Hp Hin. pose proof (fi_wf _ _ _ _ Hinv) as Hwf.
  destruct (wf_waiter_timer _ Hwf _ _ _ Hp Hin) as [ms E'].
  apply (wf_timer_promise _ Hwf _ _ E').
Qed.

Lemma fifo_handoff sc w cs E p wt rest ev :
  fifo_inv sc w cs E → probes w !! sc = Some p → pending p = wt :: rest →
  fifo_inv sc
    (resolve (promise wt) ev
       (clearTimeout (timer wt) (set_probe sc (set_pending rest p) w)))
    cs (E ++ [ev]).
Proof.
  intros Hinv Hp Hq. pose proof (fi_wf _ _ _ _ Hinv) as Hwf.
  assert (Hin : wt ∈ pending p) by (rewrite Hq; apply elem_of_cons; by left).
  pose proof (fifo_pending_promise _ _ _ _ _ _ Hinv Hp Hin) as Hpd.
  pose proof (wf_pending_sorted _ Hwf _ _ Hp) as Hsorted.
  rewrite Hq, fmap_cons in Hsorted.
  apply StronglySorted_inv in Hsorted as [_ Hall]. rewrite Forall_forall in Hall.
  assert (Hempty : queue p = []).
  { destruct (wf_exclusive _ Hwf _ _ Hp) as [?|?]; [done|congruence]. }
  set (w' := resolve _ _ _).
  assert (Hother : ∀ pr, pr ≠ promise wt → promises w' !! pr = promises w !! pr).
  { intros pr Hne. subst w'. simpl. by apply settle_lookup_ne. }
  assert (Hnew : promises w' !! promise wt = Some (Fulfilled ev)).
  { subst w'. simpl. by apply settle_lookup_pending. }
  assert (Hp' : probes w' !! sc = Some (set_pending rest p)).
  { subst w'. simpl. apply lookup_insert_eq. }
  split.
  - by apply wf_handoff.
  - eauto.
  - intros q Hq'. assert (q = set_pending rest p) as -> by congruence. simpl.
    rewrite Hempty, app_nil_r.
    rewrite (received_handoff cs w w' (promise wt) ev).
    + apply sublist_app.
      * pose proof (fi_order _ _ _ _ Hinv _ Hp) as Ho.
        by rewrite Hempty, app_nil_r in Ho.
      * case_decide; [done|apply sublist_nil_l].
    + by eapply fi_sorted.
    + intros pr Hpr Hle. eapply fi_tail; eauto.
    + intros pr Hne. by apply fulfilled_with_eq, Hother.
    + unfold fulfilled_with. by rewrite Hnew.
  - intros q wt' pr Hq' Hin' Hpr Hle.
    assert (q = set_pending rest p) as -> by congruence. simpl in Hin'.
    assert (promise wt < promise wt') by (apply Hall; by apply list_elem_of_fmap_2).
    rewrite (fulfilled_with_eq w w') by (apply Hother; lia).
    apply (fi_tail _ _ _ _ Hinv p wt' pr Hp); [|done|done].
    rewrite Hq. apply elem_of_cons. by right.
  - intros pr Hpr. change (pr < fresh_promise w). by eapply fi_fresh.
  - intros q pr Hq' Hpr Hpd'. assert (q = set_pending rest p) as -> by congruence.
    simpl. assert (pr ≠ promise wt) as Hne by (intros ->; congruence).
    rewrite Hother in Hpd' by done.
    pose proof (fi_pending _ _ _ _ Hinv _ _ Hp Hpr Hpd') as Hin'.
    rewrite Hq, fmap_cons in Hin'. apply elem_of_cons in Hin' as [?|?]; done.
  - by eapply fi_sorted.
Qed.

Lemma fifo_buffer sc w cs E p q ev :
  fifo_inv sc w cs E → probes w !! sc = Some p → pending p = [] →
  q `sublist_of` queue p →
  wf (set_probe sc (set_queue (q ++ [ev]) p) w) →
  fifo_inv sc (set_probe sc (set_queue (q ++ [ev]) p) w) cs (E ++ [ev]).
Proof.
  intros Hinv Hp Hpd Hq Hwf'.
  assert (Hp' : probes (set_probe sc (set_queue (q ++ [ev]) p) w) !! sc
                = Some (set_queue (q ++ [ev]) p)) by apply lookup_insert_eq.
  split; [done|eauto|..].
  - intros p' Hq'. assert (p' = set_queue (q ++ [ev]) p) as -> by congruence. simpl.
    rewrite (received_ext cs w) by done. rewrite app_assoc.
    apply sublist_app; [|done]. etrans; [|by eapply fi_order]. by apply sublist_app.
  - intros p' wt pr Hq' Hin. assert (p' = set_queue (q ++ [ev]) p) as -> by congruence.
    simpl in Hin. rewrite Hpd in Hin. by apply elem_of_nil in Hin.
  - intros pr Hpr. change (pr < fresh_promise w). by eapply fi_fresh.
  - intros p' pr Hq' Hpr Hpd'. assert (p' = set_queue (q ++ [ev]) p) as -> by congruence.
    simpl. by eapply fi_pending.
  - by eapply fi_sorted.
Qed.

Lemma sorted_snoc (cs : list nat) (f : nat) :
  StronglySorted lt cs → (∀ pr, pr ∈ cs → pr < f) → StronglySorted lt (cs ++ [f]).
Proof.
  intros Hs Hlt. apply StronglySorted_app_2; [|done|repeat constructor].
  intros x1 x2 Hx1 ->%list_elem_of_singleton. by apply Hlt.
Qed.

Lemma fifo_next_immediate sc w cs E p ev q :
  fifo_inv sc w cs E → probes w !! sc = Some p → queue p = ev :: q →
  wf (resolve (fresh_promise w) ev
        (set_probe sc (set_queue q p) (snd (new_promise Pending w)))) →
  fifo_inv sc
    (resolve (fresh_promise w) ev
       (set_probe sc (set_queue q p) (snd (new_promise Pending w))))
    (cs ++ [fresh_promise w]) E.
Proof.
  intros Hinv Hp Hq Hwf'. pose proof (fi_wf _ _ _ _ Hinv) as Hwf.
  set (w' := resolve _ _ _) in *.
  assert (Hother : ∀ pr, pr ≠ fresh_promise w → promises w' !! pr = promises w !! pr).
  { intros pr Hne. subst w'. simpl. rewrite settle_lookup_ne by done.
    by apply lookup_insert_ne. }
  assert (Hnew : promises w' !! fresh_promise w = Some (Fulfilled ev)).
  { subst w'. simpl. apply settle_lookup_pending, lookup_insert_eq. }
  assert (Hp' : probes w' !! sc = Some (set_queue q p)).
  { subst w'. simpl. apply lookup_insert_eq. }
  assert (Hcs : ∀ pr, pr ∈ cs → pr ≠ fresh_promise w).
  { intros pr Hpr. pose proof (fi_fresh _ _ _ _ Hinv _ Hpr). lia. }
  assert (Hnopending : pending p = []).
  { destruct (wf_exclusive _ Hwf _ _ Hp) as [?|?]; [congruence|done]. }
  split; [done|eauto|..].
  - intros p' Hq'. assert (p' = set_queue q p) as -> by congruence. simpl.
    rewrite received_app, (received_ext cs w).
    2: { intros pr Hpr. by apply fulfilled_with_eq, Hother, Hcs. }
    rewrite received_cons. unfold fulfilled_with at 1. rewrite Hnew. simpl.
    rewrite <-app_assoc. simpl. rewrite <-Hq. by eapply fi_order.
  - intros p' wt pr Hq' Hin. assert (p' = set_queue q p) as -> by congruence.
    simpl in Hin. rewrite Hnopending in Hin. by apply elem_of_nil in Hin.
  - intros pr [Hpr| ->%list_elem_of_singleton]%elem_of_app; subst w'; simpl; [|lia].
    pose proof (fi_fresh _ _ _ _ Hinv _ Hpr). lia.
  - intros p' pr Hq' Hpr Hpd. assert (p' = set_queue q p) as -> by congruence. simpl.
    apply elem_of_app in Hpr as [Hpr| ->%list_elem_of_singleton]; [|congruence].
    rewrite Hother in Hpd by (by apply Hcs). by eapply fi_pending.
  - apply sorted_snoc; [by eapply fi_sorted|by eapply fi_fresh].
Qed.

Lemma fifo_next_wait sc w cs E p ms :
  fifo_inv sc w cs E → probes w !! sc = Some p → queue p = [] →
  fifo_inv sc (snd (next sc ms w)) (cs ++ [fresh_promise w]) E.
Proof.
  intros Hinv Hp Hq. pose proof (fi_wf _ _ _ _ Hinv) as Hwf.
  pose proof (wf_next_wait w sc p ms Hwf Hp Hq) as Hwf'.
  rewrite (next_wait _ _ _ _ Hp Hq) in *. simpl in Hwf' |- *.
  set (w' := set_probe _ _ _) in *.
  set (p1 := set_pending (pending p ++ [mkWaiter (fresh_promise w) (fresh_timer w)]) p).
  assert (Hother : ∀ pr, pr ≠ fresh_promise w → promises w' !! pr = promises w !! pr).
  { intros pr Hne. subst w'. simpl. by apply lookup_insert_ne. }
  assert (Hnew : promises w' !! fresh_promise w = Some Pending).
  { subst w'. simpl. apply lookup_insert_eq. }
  assert (Hp' : probes w' !! sc = Some p1).
  { subst w'. simpl. apply lookup_insert_eq. }
  assert (Hcs : ∀ pr, pr ∈ cs → pr ≠ fresh_promise w).
  { intros pr Hpr. pose proof (fi_fresh _ _ _ _ Hinv _ Hpr). lia. }
  split; [done|eauto|..].
  - intros p' Hq'. assert (p' = p1) as -> by congruence. simpl.
    rewrite received_app, (received_ext cs w).
    2: { intros pr Hpr. by apply fulfilled_with_eq, Hother, Hcs. }
    rewrite received_cons. unfold fulfilled_with at 1. rewrite Hnew. simpl.
    rewrite app_nil_r. by eapply fi_order.
  - intros p' wt pr Hq' Hin Hpr Hle. assert (p' = p1) as -> by congruence.
    apply elem_of_app in Hpr as [Hpr| ->%list_elem_of_singleton].
    2: { unfold fulfilled_with. by rewrite Hnew. }
    rewrite (fulfilled_with_eq w w') by (by apply Hother, Hcs).
    simpl in Hin. apply elem_of_app in Hin as [Hin| ->%list_elem_of_singleton].
    + eapply fi_tail; eauto.
    + simpl in Hle. pose proof (fi_fresh _ _ _ _ Hinv _ Hpr). lia.
  - intros pr [Hpr| ->%list_elem_of_singleton]%elem_of_app; subst w'; simpl; [|lia].
    pose proof (fi_fresh _ _ _ _ Hinv _ Hpr). lia.
  - intros p' pr Hq' Hpr Hpd. assert (p' = p1) as -> by congruence. simpl.
    rewrite fmap_app. apply elem_of_app.
    apply elem_of_app in Hpr as [Hpr| ->%list_elem_of_singleton].
    + left. rewrite Hother in Hpd by (by apply Hcs). by eapply fi_pending.
    + right. simpl. by apply list_elem_of_singleton.
  - apply sorted_snoc; [by eapply fi_sorted|by eapply fi_fresh].
Qed.

Lemma fifo_weaken sc w cs E E' :
  fifo_inv sc w cs E → E `sublist_of` E' → fifo_inv sc w cs E'.
Proof.
  intros Hinv HE. destruct (fi_probe _ _ _ _ Hinv) as [p Hp].
  eapply (fifo_frame sc w w cs E E' p p); eauto.
  - by eapply fi_wf.
  - intros pr Hpr Hpd. by eapply fi_pending.
Qed.

Lemma fifo_frame_step sc o w cs E :
  fifo_inv sc w cs E →
  (∀ l v, o ≠ OEmit (Some sc) l v) → (∀ ms, o ≠ ONext sc ms) →
  fifo_inv sc (step o w) cs E.
Proof.
  intros Hinv Hnoemit Hnonext. destruct (fi_probe _ _ _ _ Hinv) as [p Hp].
  pose proof (fi_wf _ _ _ _ Hinv) as Hwf.
  destruct (step_frame o w sc p Hwf Hp Hnoemit Hnonext)
    as (p' & Hp' & Hq & Hpend & Hfresh & Hprom).
  eapply (fifo_frame sc w (step o w) cs E E p p'); eauto.
  - by apply wf_step.
  - intros pr Hpr. apply Hprom; [by eapply fi_fresh|]. by eapply fi_pending.
  - intros pr Hpr. apply Hprom; [by eapply fi_fresh|]. by eapply fi_pending.
Qed.

Lemma calls_of_other sc o w : (∀ ms, o ≠ ONext sc ms) → calls_of sc [o] w = [].
Proof.
  intros H. destruct o as [?|? ? ?|sc' ms|?|?]; try done.
  cbn [calls_of]. rewrite bool_decide_false; [done|]. intros ->. by eapply H.
Qed.

Lemma calls_of_next sc ms w : calls_of sc [ONext sc ms] w = [fresh_promise w].
Proof. cbn [calls_of]. rewrite bool_decide_true by done. by rewrite next_fst. Qed.

Lemma emitted_other sc o : (∀ l v, o ≠ OEmit (Some sc) l v) → emitted sc [o] = [].
Proof.
  intros H. destruct o as [?|[sc'|] l v|? ?|?|?]; try done.
  unfold emitted. cbn [omap list_omap]. rewrite bool_decide_false; [done|].
  intros ->. by eapply H.
Qed.

Lemma emitted_own sc l v : emitted sc [OEmit (Some sc) l v] = [mkProbeEvent l v].
Proof. unfold emitted. cbn [omap list_omap]. by rewrite bool_decide_true. Qed.

Lemma fifo_step sc o w cs E :
  fifo_inv sc w cs E →
  fifo_inv sc (step o w) (cs ++ calls_of sc [o] w) (E ++ emitted sc [o]).
Proof.
  intros Hinv. destruct (fi_probe _ _ _ _ Hinv) as [p Hp].
  pose proof (fi_wf _ _ _ _ Hinv) as Hwf.
  assert (Hemit : (∃ l v, o = OEmit (Some sc) l v) ∨ (∀ l v, o ≠ OEmit (Some sc) l v)).
  { destruct o as [?|[sc'|] l v|? ?|?|?]; try (by right).
    destruct (decide (sc' = sc)) as [->|]; [left; eauto|right; congruence]. }
  assert (Hnext : (∃ ms, o = ONext sc ms) ∨ (∀ ms, o ≠ ONext sc ms)).
  { destruct o as [?|? ? ?|sc' ms|?|?]; try (by right).
    destruct (decide (sc' = sc)) as [->|]; [left; eauto|right; congruence]. }
  destruct Hemit as [(l & v & ->)|Hnoemit'].
  { rewrite calls_of_other by done. rewrite emitted_own, app_nil_r.
    assert (Hweak : fifo_inv sc w cs (E ++ [mkProbeEvent l v])).
    { eapply fifo_weaken; [done|]. by apply sublist_inserts_r. }
    unfold step. rewrite emit_in_scope by done. case_bool_decide; [|done].
    pose proof (wf_sub w sc (mkInternalEvent l v (Some sc)) Hwf) as Hwf'.
    destruct (sub_cases sc (mkInternalEvent l v (Some sc)) w)
      as [E0|err E0|p1 wt rest Hp1 Hs Hf Hq|p1 Hp1 Hs Hf Hq].
    - by rewrite E0.
    - by rewrite E0.
    - rewrite (sub_handoff _ _ _ _ _ _ Hp1 Hs Hf Hq). simpl. by apply fifo_handoff.
    - rewrite (sub_buffer _ _ _ _ Hp1 Hs Hf Hq) in *. simpl in *.
      apply fifo_buffer; try done.
      destruct (length_ge _ _); [|done]. destruct (queue p1); [done|]. by apply sublist_cons. }
  rewrite emitted_other, app_nil_r by done.
  destruct Hnext as [(ms & ->)|Hnonext'].
  { rewrite calls_of_next. unfold step. destruct (queue p) as [|ev q] eqn:Hq.
    - by eapply fifo_next_wait.
    - pose proof (wf_next w sc ms Hwf) as Hwf'.
      rewrite (next_immediate _ _ _ _ _ _ Hp Hq) in *. simpl in Hwf' |- *.
      by apply fifo_next_immediate. }
  rewrite calls_of_other, app_nil_r by done.
  by apply fifo_frame_step.
Qed.

Lemma calls_of_cons sc o tr w :
  calls_of sc (o :: tr) w = calls_of sc [o] w ++ calls_of sc tr (step o w).
Proof. simpl. by rewrite app_nil_r. Qed.

Lemma emitted_cons sc o tr : emitted sc (o :: tr) = emitted sc [o] ++ emitted sc tr.
Proof. unfold emitted. by rewrite (omap_app _ [o] tr). Qed.

Lemma fifo_exec sc tr w cs E :
  fifo_inv sc w cs E →
  fifo_inv sc (exec tr w) (cs ++ calls_of sc tr w) (E ++ emitted sc tr).
Proof.
  revert w cs E. induction tr as [|o tr IH]; intros w cs E Hinv.
  { simpl. by rewrite !app_nil_r. }
  rewrite exec_cons, calls_of_cons, emitted_cons, !app_assoc.
  by apply IH, fifo_step.
Qed.

Lemma fifo_init sc w p :
  wf w → probes w !! sc = Some p → fifo_inv sc w [] (queue p).
Proof.
  intros Hwf Hp. split; [done|eauto|..].
  - intros q Hq. by assert (q = p) as -> by congruence.
  - by intros ? ? ? _ _ ?%elem_of_nil.
  - by intros ? ?%elem_of_nil.
  - by intros ? ? _ ?%elem_of_nil.
  - constructor.
Qed.

(** What the calls of a run have received is, in call order, a subsequence
    of what was buffered at its start followed by what the run emitted. *)
Lemma received_in_order sc tr w p :
  wf w → probes w !! sc = Some p →
  received (calls_of sc tr w) (exec tr w) `sublist_of` queue p ++ emitted sc tr.
Proof.
  intros Hwf Hp.
  pose proof (fifo_exec sc tr w [] (queue p) (fifo_init _ _ _ Hwf Hp)) as Hinv.
  simpl in Hinv. destruct (fi_probe _ _ _ _ Hinv) as [p' Hp'].
  etrans; [|by eapply (fi_order _ _ _ _ Hinv)]. by apply sublist_inserts_r.
Qed.

(** *** Waiters are served oldest first *)

Lemma sub_keeps_settled sc e w pr s :
  promises w !! pr = Some s → s ≠ Pending →
  promises (snd (sub sc e w)) !! pr = Some s.
Proof.
  intros Hpr Hs. destruct (sub_cases sc e w) as [E|err E|p wt rest Hp Hsc Hf Hq|p Hp Hsc Hf Hq].
  - by rewrite E.
  - by rewrite E.
  - rewrite (sub_handoff _ _ _ _ _ _ Hp Hsc Hf Hq). simpl. by apply settle_keeps.
  - by rewrite (sub_buffer _ _ _ _ Hp Hsc Hf Hq).
Qed.

Lemma emit_in_keeps_settled ctx l v w pr s :
  promises w !! pr = Some s → s ≠ Pending →
  promises (emit_in ctx l v w) !! pr = Some s.
Proof.
  intros Hpr Hs. rewrite emit_in_broadcast. generalize (nullish (subscribers w) []).
  intros subs. revert w Hpr. induction subs as [|x subs IH]; intros w Hpr; simpl; [done|].
  by apply IH, sub_keeps_settled.
Qed.

Lemma emits_keeps_settled sc es w pr s :
  promises w !! pr = Some s → s ≠ Pending →
  promises (emits sc es w) !! pr = Some s.
Proof.
  intros Hpr Hs. revert w Hpr. induction es as [|e es IH]; intros w Hpr; [done|].
  simpl. by apply IH, emit_in_keeps_settled.
Qed.

Lemma event_eta (e : ProbeEvent) : mkProbeEvent (label e) (value e) = e.
Proof. by destruct e. Qed.

(** Accepted events emitted in the scope of a registered probe go, one each
    and in order, to the waiters in [pending], oldest first. *)
Lemma emits_handoff sc es w p :
  wf w → subscribed sc w → probes w !! sc = Some p → Forall (accepts p) es →
  ∀ i wt, pending p !! i = Some wt →
    promises (emits sc es w) !! promise wt
    = Some (match es !! i with Some e => Fulfilled e | None => Pending end).
Proof.
  revert w p. induction es as [|e es IH]; intros w p Hwf Hsub Hp Hacc i wt Hi.
  { simpl. apply list_elem_of_lookup_2 in Hi.
    destruct (wf_waiter_timer _ Hwf _ _ _ Hp Hi) as [ms E].
    apply (wf_timer_promise _ Hwf _ _ E). }
  apply Forall_cons in Hacc as [Hacc1 Hacc].
  destruct (pending p) as [|wt0 rest] eqn:Hq; [done|].
  assert (Hs : __scope (mkInternalEvent (label e) (value e) (Some sc)) = Some (scope p)).
  { simpl. by rewrite (wf_scope _ Hwf _ _ Hp). }
  assert (Hacc1' : accepts p (mkProbeEvent (label e) (value e))) by (by rewrite event_eta).
  pose proof (wf_sub w sc (mkInternalEvent (label e) (value e) (Some sc)) Hwf) as Hwf1.
  simpl. rewrite emit_in_scope by done.
  rewrite bool_decide_true by (by apply subscribed_elem).
  rewrite (sub_handoff _ _ _ _ _ _ Hp Hs Hacc1' Hq) in *. simpl in Hwf1 |- *.
  rewrite event_eta in *.
  set (w1 := resolve _ _ _) in *.
  assert (Hin0 : wt0 ∈ pending p) by (rewrite Hq; apply elem_of_cons; by left).
  destruct i as [|j]; simpl in Hi |- *.
  - injection Hi as ->. apply emits_keeps_settled; [|done].
    subst w1. simpl. apply settle_lookup_pending.
    destruct (wf_waiter_timer _ Hwf _ _ _ Hp Hin0) as [ms E].
    apply (wf_timer_promise _ Hwf _ _ E).
  - apply (IH w1 (set_pending rest p)); try done.
    subst w1. simpl. apply lookup_insert_eq.
Qed.

(** [n] calls of [next] on an empty buffer add [n] waiters, in call order,
    behind those already waiting. *)
Lemma nexts_waiters sc n w p :
  wf w → probes w !! sc = Some p → queue p = [] →
  ∃ p1, probes (snd (nexts sc n w)) !! sc = Some p1 ∧ opts p1 = opts p ∧
        promise <$> pending p1 = (promise <$> pending p) ++ fst (nexts sc n w) ∧
        length (fst (nexts sc n w)) = n ∧ wf (snd (nexts sc n w)) ∧
        subscribers (snd (nexts sc n w)) = subscribers w.
Proof.
  revert w p. induction n as [|n IH]; intros w p Hwf Hp Hq.
  { simpl. exists p. by rewrite app_nil_r. }
  pose proof (wf_next_wait w sc p None Hwf Hp Hq) as Hwf1.
  pose proof (next_subscribers sc None w) as Hsubs.
  simpl. rewrite (next_wait _ _ _ _ Hp Hq) in *. simpl in Hwf1, Hsubs.
  set (w1 := set_probe _ _ _) in *.
  destruct (IH w1 (set_pending (pending p ++ [mkWaiter (fresh_promise w) (fresh_timer w)]) p))
    as (p1 & Hp1 & Ho & Hpend & Hlen & Hwf2 & Hsubs2); try done.
  { subst w1. simpl. apply lookup_insert_eq. }
  destruct (nexts sc n w1) as [prs w2]. simpl in *.
  exists p1. split; [done|]. split; [done|]. split; [|split; [lia|split; [done|congruence]]].
  rewrite Hpend, fmap_app, <-app_assoc. done.
Qed.

Lemma sorted_lt_NoDup (l : list nat) : StronglySorted lt l → NoDup l.
Proof.
  induction 1 as [|x l Hs IH Hall]; constructor; [|done].
  rewrite Forall_forall in Hall. intros Hin. specialize (Hall _ Hin). lia.
Qed.

(** C2.  What the [next] calls of a run on one probe have resolved to is, in
    call order, a subsequence of the events buffered at the start of the run
    followed by those emitted in the probe's scope during it, in emission
    order.  And when [n] calls are made in a row on an empty buffer, each
    gets a waiter of its own behind those already waiting; the accepted
    events emitted next go to the waiters oldest first, the [i]-th event to
    the [i]-th waiter, and the waiters left over stay pending. *)
Theorem fifo_delivery w sc p :
  reachable w → probes w !! sc = Some p →
  (∀ tr, received (calls_of sc tr w) (exec tr w) `sublist_of` queue p ++ emitted sc tr)
  ∧ (subscribed sc w → queue p = [] → ∀ n es, Forall (accepts p) es →
       let prs := fst (nexts sc n w) in
       let w1 := snd (nexts sc n w) in
       length prs = n ∧ NoDup ((promise <$> pending p) ++ prs) ∧
       ∀ i pr, ((promise <$> pending p) ++ prs) !! i = Some pr →
         promises (emits sc es w1) !! pr
         = Some (match es !! i with Some e => Fulfilled e | None => Pending end)).
Proof.
  intros Hwf%reachable_wf Hp. split.
  - intros tr. by apply received_in_order.
  - intros Hsub Hq n es Hacc. simpl.
    destruct (nexts_waiters sc n w p Hwf Hp Hq)
      as (p1 & Hp1 & Ho & Hpend & Hlen & Hwf1 & Hsubs).
    split; [done|]. rewrite <-Hpend. split.
    + apply sorted_lt_NoDup. by eapply wf_pending_sorted.
    + intros i pr Hi. apply list_lookup_fmap_Some in Hi as (wt & -> & Hwt).
      apply (emits_handoff sc es _ p1); try done.
      * apply subscribed_elem. rewrite Hsubs. by apply subscribed_elem.
      * unfold accepts in *. by rewrite Ho.
Qed.

Lemma fifo_delivery_witness :
  promises (emits 0 [ev_a; ev_b] (snd (nexts 0 3 (exec [OGetProbe None] init_world)))) !! 1
  = Some (Fulfilled ev_b).
Proof.
  destruct (fifo_delivery (exec [OGetProbe None] init_world) 0
              (mkProbe None (integer 100) 1000 0 [] [])) as [_ H].
  - by exists [OGetProbe None].
  - reflexivity.
  - destruct (H (ex_intro _ [0] (conj eq_refl (list_elem_of_here 0 []))) eq_refl 3 [ev_a; ev_b])
      as (_ & _ & H').
    + by repeat constructor.
    + apply (H' 1 1). reflexivity.
Defined.

(** ** The bounded buffer *)

Lemma next_keeps_settled sc ms w pr s :
  wf w → promises w !! pr = Some s → s ≠ Pending →
  promises (snd (next sc ms w)) !! pr = Some s.
Proof.
  intros Hwf Hpr Hs.
  pose proof (wf_promise_fresh _ Hwf _ (mk_is_Some _ _ Hpr)) as Hlt.
  unfold next. destruct (probes w !! sc) as [p|].
  2: { simpl. rewrite lookup_insert_ne by lia. done. }
  destruct (queue p); simpl.
  - rewrite lookup_insert_ne by lia. done.
  - rewrite settle_lookup_ne by lia. rewrite lookup_insert_ne by lia. done.
Qed.

Lemma nexts_keeps_settled sc n w pr s :
  wf w → promises w !! pr = Some s → s ≠ Pending →
  promises (snd (nexts sc n w)) !! pr = Some s.
Proof.
  revert w. induction n as [|n IH]; intros w Hwf Hpr Hs; [done|].
  simpl. pose proof (wf_next w sc None Hwf) as Hwf1.
  pose proof (next_keeps_settled sc None w pr s Hwf Hpr Hs) as Hpr1.
  destruct (next sc None w) as [pr0 w1]. simpl in *.
  specialize (IH w1 Hwf1 Hpr1 Hs). by destruct (nexts sc n w1).
Qed.

(** [n] calls of [next] on a buffer of at least [n] events resolve at once,
    the [i]-th call to the [i]-th oldest event. *)
Lemma nexts_drain sc n w p :
  wf w → probes w !! sc = Some p → n ≤ length (queue p) →
  ∀ i pr, fst (nexts sc n w) !! i = Some pr →
    ∃ e, queue p !! i = Some e ∧
         promises (snd (nexts sc n w)) !! pr = Some (Fulfilled e).
Proof.
  revert w p. induction n as [|n IH]; intros w p Hwf Hp Hlen i pr Hi; [done|].
  destruct (queue p) as [|ev q] eqn:Hq; [simpl in Hlen; lia|].
  pose proof (wf_next w sc None Hwf) as Hwf1.
  simpl in Hi |- *. rewrite (next_immediate _ _ _ _ _ _ Hp Hq) in *.
  simpl in Hwf1. set (w1 := resolve _ _ _) in *.
  assert (Hp1 : probes w1 !! sc = Some (set_queue q p)).
  { subst w1. simpl. apply lookup_insert_eq. }
  assert (Hnew : promises w1 !! fresh_promise w = Some (Fulfilled ev)).
  { subst w1. simpl. apply settle_lookup_pending, lookup_insert_eq. }
  pose proof (nexts_keeps_settled sc n w1 _ _ Hwf1 Hnew) as Hkeep.
  specialize (IH w1 (set_queue q p) Hwf1 Hp1).
  destruct (nexts sc n w1) as [prs w2]. simpl in *.
  destruct i as [|j]; simpl in Hi.
  - injection Hi as <-. exists ev. split; [done|]. by apply Hkeep.
  - apply IH; [lia|done].
Qed.

(** When a push evicts from length [t] on, [t] at least one, accepted events
    emitted while nobody waits leave in the buffer the last [t] of what was
    buffered and what was emitted. *)
Lemma emits_buffer sc es w p t :
  wf w → subscribed sc w → probes w !! sc = Some p → pending p = [] →
  Forall (accepts p) es → evict_from (bufferSize p) = Some t → (1 ≤ t)%Z →
  ∃ p', probes (emits sc es w) !! sc = Some p' ∧ pending p' = [] ∧
        queue p' = drop (length (queue p ++ es) - Z.to_nat t) (queue p ++ es) ∧
        wf (emits sc es w).
Proof.
  revert w p. induction es as [|e es IH]; intros w p Hwf Hsub Hp Hpd Hacc Ht HN.
  { pose proof (wf_queue_bound _ Hwf _ _ Hp t Ht) as Hb.
    exists p. simpl. rewrite app_nil_r. split; [done|]. split; [done|]. split; [|done].
    replace (length (queue p) - Z.to_nat t) with 0 by lia. done. }
  apply Forall_cons in Hacc as [Hacc1 Hacc].
  pose proof (wf_queue_bound _ Hwf _ _ Hp t Ht) as Hb.
  assert (Hs : __scope (mkInternalEvent (label e) (value e) (Some sc)) = Some (scope p)).
  { simpl. by rewrite (wf_scope _ Hwf _ _ Hp). }
  assert (Hacc1' : accepts p (mkProbeEvent (label e) (value e))) by (by rewrite event_eta).
  pose proof (wf_sub w sc (mkInternalEvent (label e) (value e) (Some sc)) Hwf) as Hwf1.
  simpl. rewrite emit_in_scope by done.
  rewrite bool_decide_true by (by apply subscribed_elem).
  rewrite (sub_buffer _ _ _ _ Hp Hs Hacc1' Hpd) in *. simpl in Hwf1 |- *.
  rewrite event_eta in *. rewrite length_ge_spec, Ht in *.
  set (q1 := (if bool_decide _ then _ else _) ++ [e]) in *.
  set (w1 := set_probe _ _ _) in *.
  destruct (IH w1 (set_queue q1 p)) as (p' & Hp' & Hpd' & Hq' & Hwf'); try done.
  { subst w1. simpl. apply lookup_insert_eq. }
  exists p'. split; [done|]. split; [done|]. split; [|done].
  rewrite Hq'. simpl. subst q1. case_bool_decide as Hfull.
  - destruct (queue p) as [|x q0] eqn:Hq; [simpl in *; lia|].
    simpl in *. rewrite <-!app_assoc. simpl.
    rewrite !length_app in *. simpl in *.
    replace (S (length q0 + S (length es)) - Z.to_nat t)
      with (S (length q0 + S (length es) - Z.to_nat t)) by lia.
    done.
  - rewrite <-!app_assoc. done.
Qed.

(** Drop-oldest: of the accepted events emitted into an empty buffer while
    nobody waits, the last [t] are kept, and as many [next] calls resolve to
    them in emission order. *)
Lemma drop_oldest sc es w p t :
  wf w → subscribed sc w → probes w !! sc = Some p →
  pending p = [] → queue p = [] → Forall (accepts p) es →
  evict_from (bufferSize p) = Some t → (1 ≤ t)%Z →
  let kept := drop (length es - Z.to_nat t) es in
  let w1 := emits sc es w in
  (∃ p1, probes w1 !! sc = Some p1 ∧ queue p1 = kept) ∧
  length kept = length es `min` Z.to_nat t ∧
  ∀ i pr, fst (nexts sc (length kept) w1) !! i = Some pr →
    ∃ e, kept !! i = Some e ∧
         promises (snd (nexts sc (length kept) w1)) !! pr = Some (Fulfilled e).
Proof.
  intros Hwf Hsub Hp Hpd Hq Hacc Ht HN. simpl.
  destruct (emits_buffer sc es w p t Hwf Hsub Hp Hpd Hacc Ht HN)
    as (p1 & Hp1 & _ & Hq1 & Hwf1).
  rewrite Hq in Hq1. simpl in Hq1.
  split; [eauto|]. split; [rewrite length_drop; lia|].
  intros i pr Hi. rewrite <-Hq1 in *.
  by apply (nexts_drain sc _ _ p1 Hwf1 Hp1).
Qed.

Lemma buffer_bounded w sc p t :
  reachable w → probes w !! sc = Some p →
  evict_from (bufferSize p) = Some t → (1 ≤ t)%Z →
  (Z.of_nat (length (queue p)) ≤ t)%Z.
Proof.
  intros Hwf%reachable_wf Hp Ht HN. pose proof (wf_queue_bound _ Hwf _ _ Hp t Ht). lia.
Qed.

(** The ceiling of a number that is at least one is at least one, and is
    less than the number plus one; the ceiling of an integer is itself. *)
Lemma ceiling_ge_one q : (1 <= q)%Q → (1 ≤ Qceiling q)%Z.
Proof.
  intros H. apply Qceiling_resp_le in H. exact H.
Qed.

Lemma ceiling_below_succ q : (inject_Z (Qceiling q) < q + 1)%Q.
Proof.
  pose proof (Qceiling_lt q) as H.
  unfold Z.sub in H. rewrite inject_Z_plus in H.
  change (inject_Z (- (1))) with (- (1))%Q in H. lra.
Qed.

Lemma ceiling_of_integer q z : (q == inject_Z z)%Q → Qceiling q = z.
Proof. intros H. by rewrite (Qceiling_comp _ _ H), Qceiling_Z. Qed.

(** The scenario with [bufferSize: 1]: after ('x', 1) and ('x', 2) the next
    [next()] resolves to ('x', 2). *)
Example buffer_one_keeps_latest :
  let w := exec [OGetProbe (buffer_of 1); OEmit (Some 0) "x" (VNumber 1);
                 OEmit (Some 0) "x" (VNumber 2)] init_world in
  promises (snd (next 0 None w)) !! fst (next 0 None w)
  = Some (Fulfilled (mkProbeEvent "x" (VNumber 2))).
Proof. reflexivity. Qed.

(** The scenario with [bufferSize: 1.5]: of three events the buffer keeps
    two. *)
Example buffer_fraction_keeps_ceiling :
  (queue <$> probes three_into_half !! 0) = Some [ev_x 2; ev_x 3].
Proof. reflexivity. Qed.

(** C3 at [bufferSize: 0].  One event emitted in the probe's scope while
    nobody waits: the check [queue.length >= bufferSize] shifts an empty
    buffer and the event is pushed, so the buffer holds one event, more than
    [bufferSize], the event is not lost, and the next [next()] resolves to
    it. *)
Theorem buffer_zero_keeps_one :
  let w := exec [OGetProbe (buffer_of 0); OEmit (Some 0) "x" (VNumber 1)] init_world in
  (bufferSize <$> probes w !! 0) = Some (integer 0)
  ∧ (queue <$> probes w !! 0) = Some [mkProbeEvent "x" (VNumber 1)]
  ∧ promises (snd (next 0 None w)) !! fst (next 0 None w)
    = Some (Fulfilled (mkProbeEvent "x" (VNumber 1))).
Proof. repeat split. Qed.

(** * Further properties of the engine *)

(** ** The buffer *)

(** X1.  In every world the engine reaches, the buffer of a probe created
    with a finite [bufferSize] of at least one, integer or not, holds at most
    as many events as the ceiling of [bufferSize]: fewer than [bufferSize]
    plus one, and at most [bufferSize] when that is an integer.  (At 1.5 a
    buffer can hold two.) *)
Theorem buffer_within_bound w sc p q :
  reachable w → probes w !! sc = Some p →
  bufferSize p = Finite q → (1 <= q)%Q →
  (Z.of_nat (length (queue p)) ≤ Qceiling q)%Z
  ∧ (inject_Z (Z.of_nat (length (queue p))) < q + 1)%Q
  ∧ (∀ z, (q == inject_Z z)%Q → (Z.of_nat (length (queue p)) ≤ z)%Z).
Proof.
  intros Hr Hp Hb Hq.
  assert (Z.of_nat (length (queue p)) ≤ Qceiling q)%Z as Hlen.
  { apply (buffer_bounded w sc p); [done|done|by rewrite Hb|by apply ceiling_ge_one]. }
  split; [done|]. split.
  - eapply Qle_lt_trans; [|apply ceiling_below_succ]. by rewrite <-Zle_Qle.
  - intros z Hz. by rewrite <-(ceiling_of_integer q z Hz).
Qed.

Lemma buffer_within_bound_witness :
  ((Z.of_nat (length [ev_x 2; ev_x 3]) ≤ 2)%Z
   ∧ (Z.of_nat (length [ev_x 2; ev_x 3]) ≤ Qceiling (3 # 2))%Z)
  ∧ (inject_Z (Z.of_nat (length [ev_x 2; ev_x 3])) < (3 # 2) + 1)%Q.
Proof.
  destruct (buffer_within_bound three_into_two 0
              (mkProbe (buffer_of 2) (integer 2) 1000 0 [ev_x 2; ev_x 3] []) (inject_Z 2))
    as (_ & _ & Hint).
  - by exists [OGetProbe (buffer_of 2); OEmit (Some 0) "x" (VNumber 1);
               OEmit (Some 0) "x" (VNumber 2); OEmit (Some 0) "x" (VNumber 3)].
  - reflexivity.
  - reflexivity.
  - unfold Qle; simpl; lia.
  - destruct (buffer_within_bound three_into_half 0
                (mkProbe (buffer_of_number (Finite (3 # 2))) (Finite (3 # 2)) 1000 0
                   [ev_x 2; ev_x 3] []) (3 # 2))
      as (Hceil & Hlt & _).
    + by exists [OGetProbe (buffer_of_number (Finite (3 # 2)));
                 OEmit (Some 0) "x" (VNumber 1);
                 OEmit (Some 0) "x" (VNumber 2); OEmit (Some 0) "x" (VNumber 3)].
    + reflexivity.
    + reflexivity.
    + unfold Qle; simpl; lia.
    + split; [split|]; [apply (Hint 2%Z); reflexivity|exact Hceil|exact Hlt].
Defined.

(** X2.  Drop-oldest for a finite [bufferSize] of at least one, integer or
    not: when events the filter accepts are emitted in the scope of a
    registered probe whose buffer is empty and on which nobody waits, the
    buffer ends up holding the last [n] of them (all of them if they are
    fewer), where [n] is the ceiling of [bufferSize], which is [bufferSize]
    itself when that is an integer; and as many [next()] calls resolve at
    once, the [i]-th call to the [i]-th kept event. *)
Theorem keeps_most_recent w sc p es q :
  reachable w → subscribed sc w → probes w !! sc = Some p →
  pending p = [] → queue p = [] → Forall (accepts p) es →
  bufferSize p = Finite q → (1 <= q)%Q →
  let n := Z.to_nat (Qceiling q) in
  let kept := drop (length es - n) es in
  let w1 := emits sc es w in
  (∃ p1, probes w1 !! sc = Some p1 ∧ queue p1 = kept) ∧
  length kept = length es `min` n ∧
  (∀ z, (q == inject_Z z)%Q → n = Z.to_nat z) ∧
  ∀ i pr, fst (nexts sc (length kept) w1) !! i = Some pr →
    ∃ e, kept !! i = Some e ∧
         promises (snd (nexts sc (length kept) w1)) !! pr = Some (Fulfilled e).
Proof.
  intros Hwf%reachable_wf Hsub Hp Hpd Hq Hacc Hb Hone.
  destruct (drop_oldest sc es w p (Qceiling q)) as (H1 & H2 & H3); try done.
  { by rewrite Hb. }
  { by apply ceiling_ge_one. }
  split; [done|]. split; [done|]. split; [|done].
  intros z Hz. by rewrite (ceiling_of_integer q z Hz).
Qed.

Lemma keeps_most_recent_witness :
  (∃ p1, probes (emits 0 [ev_x 1; ev_x 2; ev_x 3] (exec [OGetProbe (buffer_of 2)] init_world)) !! 0
         = Some p1 ∧ queue p1 = [ev_x 2; ev_x 3])
  ∧ (∃ p1, probes (emits 0 [ev_x 1; ev_x 2; ev_x 3]
                     (exec [OGetProbe (buffer_of_number (Finite (3 # 2)))] init_world)) !! 0
           = Some p1 ∧ queue p1 = [ev_x 2; ev_x 3]).
Proof.
  split.
  - destruct (keeps_most_recent (exec [OGetProbe (buffer_of 2)] init_world) 0
                (mkProbe (buffer_of 2) (integer 2) 1000 0 [] []) [ev_x 1; ev_x 2; ev_x 3]
                (inject_Z 2))
      as (H & _).
    + by exists [OGetProbe (buffer_of 2)].
    + exists [0]. split; [reflexivity|]. apply list_elem_of_here.
    + reflexivity.
    + reflexivity.
    + reflexivity.
    + by repeat constructor.
    + reflexivity.
    + unfold Qle; simpl; lia.
    + exact H.
  - destruct (keeps_most_recent
                (exec [OGetProbe (buffer_of_number (Finite (3 # 2)))] init_world) 0
                (mkProbe (buffer_of_number (Finite (3 # 2))) (Finite (3 # 2)) 1000 0 [] [])
                [ev_x 1; ev_x 2; ev_x 3] (3 # 2))
      as (H & _).
    + by exists [OGetProbe (buffer_of_number (Finite (3 # 2)))].
    + exists [0]. split; [reflexivity|]. apply list_elem_of_here.
    + reflexivity.
    + reflexivity.
    + reflexivity.
    + by repeat constructor.
    + reflexivity.
    + unfold Qle; simpl; lia.
    + exact H.
Defined.

(** X3.  A buffer only ever holds events of the probe's own filter's liking:
    in every world the engine reaches, each buffered event is one on which
    the probe's filter, if it has one, returns true. *)
Theorem buffer_holds_accepted w sc p ev :
  reachable w → probes w !! sc = Some p → ev ∈ queue p →
  match opts p ≫= Opts.filter with
  | Some f => f ev = Normal true
  | None => True
  end.
Proof.
  intros Hwf%reachable_wf Hp Hin.
  pose proof (wf_queue_accepted _ Hwf _ _ Hp) as Hacc.
  rewrite Forall_forall in Hacc. specialize (Hacc _ Hin).
  unfold accepts, filtered_out in Hacc.
  destruct (opts p ≫= Opts.filter) as [f|]; [|done].
  destruct (f ev) as [[|]|]; by simplify_eq.
Qed.

Lemma buffer_holds_accepted_witness :
  Normal (bool_decide (value (ev_x 3) = VNumber 1 ∨ value (ev_x 3) = VNumber 3))
  = Normal true.
Proof.
  assert (Hr : reachable seen_two_three).
  { by exists [OGetProbe odd_only; OEmit (Some 0) "x" (VNumber 2);
               OEmit (Some 0) "x" (VNumber 3)]. }
  exact (buffer_holds_accepted seen_two_three 0
           (mkProbe odd_only (integer 100) 1000 0 [ev_x 3] []) (ev_x 3)
           Hr eq_refl (list_elem_of_here _ _)).
Defined.

(** ** Timers *)

(** X4.  No timer is left behind and no waiter is without one: in every
    world the engine reaches, a scheduled timer belongs to a waiter that is
    still in [pending] of its probe and whose promise is still pending, and
    every waiter in [pending] has its own timer scheduled; and after
    [dispose()] no scheduled timer belongs to the disposed probe. *)
Theorem timers_match_waiters w :
  reachable w →
  (∀ t cb, timers w !! t = Some cb →
     promises w !! t_promise cb = Some Pending ∧
     ∃ p, probes w !! t_owner cb = Some p ∧ mkWaiter (t_promise cb) t ∈ pending p)
  ∧ (∀ sc p wt, probes w !! sc = Some p → wt ∈ pending p →
       ∃ ms, timers w !! timer wt = Some (mkTimer sc (promise wt) ms))
  ∧ (∀ sc t cb, timers (dispose sc w) !! t = Some cb → t_owner cb ≠ sc).
Proof.
  intros Hwf%reachable_wf. split; [|split].
  - intros t cb Hcb. split; [by eapply wf_timer_promise|by eapply wf_timer_waiter].
  - intros sc p wt. by apply wf_waiter_timer.
  - intros sc t cb Hcb Heq.
    pose proof (wf_dispose w sc Hwf) as Hwf'.
    destruct (wf_timer_waiter _ Hwf' _ _ Hcb) as (p' & Hp' & Hin).
    rewrite Heq in Hp'.
    destruct (probes w !! sc) as [p|] eqn:Hp.
    + rewrite (dispose_probes _ _ _ Hp), lookup_insert_eq in Hp'.
      injection Hp' as <-. by apply elem_of_nil in Hin.
    + rewrite dispose_unknown in Hcb, Hp' by done. congruence.
Qed.

Lemma timers_match_waiters_witness :
  ∃ ms, timers two_waiters !! 1 = Some (mkTimer 0 1 ms).
Proof.
  destruct (timers_match_waiters two_waiters) as (_ & H & _).
  - by exists [OGetProbe None; ONext 0 None; ONext 0 (Some 5%Z)].
  - apply (H 0 (mkProbe None (integer 100) 1000 0 [] [mkWaiter 0 0; mkWaiter 1 1]) (mkWaiter 1 1)).
    + reflexivity.
    + apply elem_of_cons. right. apply list_elem_of_here.
Defined.

(** ** Nested scopes *)

Lemma als_run_nested {A} sc1 sc2 (fn : World → A * World) w :
  run sc1 (run sc2 fn) w = run sc2 fn w.
Proof.
  unfold run, als_run. simpl.
  change (set_als (Some sc2) (set_als (Some sc1) w)) with (set_als (Some sc2) w).
  by destruct (fn (set_als (Some sc2) w)).
Qed.

Lemma run_then {A B} sc1 sc2 (f : World → A * World) (g : World → B * World) w :
  snd (run sc1 (λ w0, g (snd (run sc2 f w0))) w)
  = snd (als_run (Some sc1) g (snd (als_run (Some sc2) f w))).
Proof.
  unfold run, als_run. simpl.
  change (set_als (Some sc2) (set_als (Some sc1) w)) with (set_als (Some sc2) w).
  destruct (f (set_als (Some sc2) w)) as [a w']. simpl.
  change (set_als (Some sc1) (set_als (als w) w')) with (set_als (Some sc1) w').
  by destruct (g (set_als (Some sc1) w')).
Qed.

Lemma als_run_als {A} ctx (f : World → A * World) w :
  als (snd (als_run ctx f w)) = als w.
Proof. unfold als_run. by destruct (f (set_als ctx w)). Qed.

(** X5.  [run] inside [run]: what is emitted in the inner call is tagged
    with the inner probe's scope only, so the outer probe (another one) gets
    nothing of it: its buffer and waiters are as before.  When the inner
    call has returned, the outer scope is current again, and after the outer
    call the caller's context is back. *)
Theorem nested_run_innermost w sc1 sc2 p1 l v :
  reachable w → sc1 ≠ sc2 → probes w !! sc1 = Some p1 →
  snd (run sc1 (run sc2 (probeEmit true l v)) w) = emit_in (Some sc2) l v w
  ∧ probes (snd (run sc1 (run sc2 (probeEmit true l v)) w)) !! sc1 = Some p1
  ∧ (∀ l' v',
       snd (run sc1 (λ w0, probeEmit true l' v' (snd (run sc2 (probeEmit true l v) w0))) w)
       = emit_in (Some sc1) l' v' (emit_in (Some sc2) l v w))
  ∧ als (snd (run sc1 (run sc2 (probeEmit true l v)) w)) = als w.
Proof.
  intros Hwf%reachable_wf Hne Hp1.
  assert (Heq : snd (run sc1 (run sc2 (probeEmit true l v)) w) = emit_in (Some sc2) l v w).
  { by rewrite als_run_nested. }
  split; [done|]. split; [|split].
  - rewrite Heq. by apply emit_in_other.
  - intros l' v'. apply (run_then sc1 sc2 (probeEmit true l v) (probeEmit true l' v')).
  - rewrite Heq. apply als_run_als.
Qed.

Lemma nested_run_innermost_witness :
  probes (snd (run 1 (run 0 (probeEmit true "t" (VString "a"))) two_probes)) !! 1
  = Some (mkProbe None (integer 100) 1000 1 [] [mkWaiter 0 0]).
Proof.
  destruct (nested_run_innermost two_probes 1 0
              (mkProbe None (integer 100) 1000 1 [] [mkWaiter 0 0]) "t" (VString "a"))
    as (_ & H & _).
  - by exists [OGetProbe None; OGetProbe None; ONext 1 None].
  - done.
  - reflexivity.
  - exact H.
Defined.

(** ** Disposing and timing out next to others *)

(** X6.  [dispose()] of one probe leaves every other probe as it was: its
    buffer and waiters, its place in the registry, and the promises and
    timers of its waiters. *)
Theorem dispose_leaves_others w sc sc' p :
  reachable w → sc' ≠ sc → probes w !! sc = Some p →
  probes (dispose sc' w) !! sc = Some p
  ∧ (subscribed sc w → subscribed sc (dispose sc' w))
  ∧ ∀ wt, wt ∈ pending p →
      promises (dispose sc' w) !! promise wt = Some Pending ∧
      timers (dispose sc' w) !! timer wt = timers w !! timer wt.
Proof.
  intros Hwf%reachable_wf Hne Hp.
  destruct (probes w !! sc') as [p'|] eqn:Hp'.
  2: { rewrite dispose_unknown by done. split; [done|]. split; [done|].
       intros wt Hin. split; [|done].
       destruct (wf_waiter_timer _ Hwf _ _ _ Hp Hin) as [ms E].
       apply (wf_timer_promise _ Hwf _ _ E). }
  split; [|split].
  - rewrite (dispose_probes _ _ _ Hp'). by rewrite lookup_insert_ne.
  - intros (subs & Hs & Hin). exists (filter (λ s, s ≠ sc') subs).
    rewrite (dispose_subscribers _ _ _ Hp'), Hs. split; [done|].
    apply list_elem_of_filter. split; [congruence|done].
  - intros wt Hin. rewrite (dispose_unfold _ _ _ Hp'). simpl.
    destruct (wf_waiter_timer _ Hwf _ _ _ Hp Hin) as [ms E]. split.
    + rewrite dispose_loop_promises_other; [by apply (wf_timer_promise _ Hwf _ _ E)|].
      intros (wt' & Heq & Hin')%list_elem_of_fmap.
      apply Hne. symmetry. by eapply (wf_promise_owner w sc p wt sc' p' wt').
    + rewrite dispose_loop_timers. rewrite decide_False; [done|].
      intros (wt' & Heq & Hin')%list_elem_of_fmap.
      by eapply (waiter_timer_owner w sc p wt sc' p' wt').
Qed.

Lemma dispose_leaves_others_witness :
  probes (dispose 0 two_probes) !! 1 = Some (mkProbe None (integer 100) 1000 1 [] [mkWaiter 0 0]).
Proof.
  destruct (dispose_leaves_others two_probes 1 0
              (mkProbe None (integer 100) 1000 1 [] [mkWaiter 0 0])) as (H & _).
  - by exists [OGetProbe None; OGetProbe None; ONext 1 None].
  - done.
  - reflexivity.
  - exact H.
Defined.

(** X7.  When the timer of a waiter fires, that waiter alone leaves
    [pending]: the others stay, in their order, and the buffer is not
    touched.  And an event that arrives after the only waiter has timed out
    is not lost: it is buffered, and the next [next()] resolves to it at
    once. *)
Theorem timeout_spares_the_rest w sc p wt :
  reachable w → subscribed sc w → probes w !! sc = Some p → wt ∈ pending p →
  (∃ l1 l2 p', pending p = l1 ++ wt :: l2 ∧
       probes (fire (timer wt) w) !! sc = Some p' ∧
       pending p' = l1 ++ l2 ∧ queue p' = queue p ∧
       ∃ ms, promises (fire (timer wt) w) !! promise wt
             = Some (Rejected (timeout_error ms)))
  ∧ (pending p = [wt] → ∀ e ms, accepts p e →
       let w1 := emit_in (Some sc) (label e) (value e) (fire (timer wt) w) in
       promises (snd (next sc ms w1)) !! fst (next sc ms w1) = Some (Fulfilled e)).
Proof.
  intros Hwf%reachable_wf Hsub Hp Hin.
  destruct (wf_waiter_timer _ Hwf _ _ _ Hp Hin) as [ms0 Hcb].
  destruct (fire_live _ _ _ Hwf Hcb) as (p0 & l1 & l2 & Hp0 & Hpend & Hfire).
  simpl in Hp0, Hpend, Hfire. assert (p0 = p) as -> by congruence.
  assert (mkWaiter (promise wt) (timer wt) = wt) as Heta by (by destruct wt).
  rewrite Heta in Hpend.
  pose proof (wf_timer_promise _ Hwf _ _ Hcb) as Hpd. simpl in Hpd.
  assert (Hp' : probes (fire (timer wt) w) !! sc = Some (set_pending (l1 ++ l2) p)).
  { rewrite Hfire. simpl. apply lookup_insert_eq. }
  split.
  - exists l1, l2, (set_pending (l1 ++ l2) p). repeat split; try done.
    exists ms0. rewrite Hfire. simpl. by apply settle_lookup_pending.
  - intros Hone e ms Hacc. simpl.
    assert (l1 = [] ∧ l2 = []) as [-> ->].
    { rewrite Hone in Hpend. apply (f_equal length) in Hpend.
      rewrite length_app in Hpend. simpl in Hpend.
      destruct l1, l2; simpl in Hpend; try lia. done. }
    simpl in Hp'.
    pose proof (wf_fire w (timer wt) Hwf) as Hwf1.
    assert (Hq : queue p = []).
    { destruct (wf_exclusive _ Hwf _ _ Hp) as [?|Hq]; [done|]. rewrite Hq in Hin.
      by apply elem_of_nil in Hin. }
    rewrite emit_in_scope by done.
    rewrite bool_decide_true by (rewrite fire_subscribers; by apply subscribed_elem).
    rewrite (sub_buffer _ _ _ (set_pending [] p)); try done.
    2: { simpl. by rewrite (wf_scope _ Hwf _ _ Hp). }
    2: { simpl. by rewrite event_eta. }
    simpl. rewrite Hq. simpl. rewrite event_eta.
    replace (if length_ge 0 (bufferSize p) then [] else []) with (@nil ProbeEvent)
      by (by destruct (length_ge 0 (bufferSize p))).
    simpl.
    erewrite next_immediate; [|simpl; apply lookup_insert_eq|simpl; done].
    simpl. apply settle_lookup_pending, lookup_insert_eq.
Qed.

Lemma timeout_spares_the_rest_witness :
  promises (snd (next 0 None (emit_in (Some 0) "x" (VNumber 1) (fire 0 one_waiter)))) !! 1
  = Some (Fulfilled (ev_x 1)).
Proof.
  destruct (timeout_spares_the_rest one_waiter 0
              (mkProbe None (integer 100) 1000 0 [] [mkWaiter 0 0]) (mkWaiter 0 0)) as (_ & H).
  - by exists [OGetProbe None; ONext 0 None].
  - exists [0]. split; [reflexivity|]. apply list_elem_of_here.
  - reflexivity.
  - apply list_elem_of_here.
  - exact (H eq_refl (ev_x 1) None eq_refl).
Defined.

(** X8.  No [next()] call hangs: at any point of a run, a call made during
    the run on a probe and not yet settled is a waiter of that probe with a
    timer scheduled in its name, and when that timer fires the call is
    rejected with the time-out error of the timer's delay. *)
Theorem pending_call_times_out w sc p tr pr :
  reachable w → probes w !! sc = Some p →
  pr ∈ calls_of sc tr w → promises (exec tr w) !! pr = Some Pending →
  ∃ t ms, timers (exec tr w) !! t = Some (mkTimer sc pr ms) ∧
          (∃ p', probes (exec tr w) !! sc = Some p' ∧ mkWaiter pr t ∈ pending p') ∧
          promises (fire t (exec tr w)) !! pr = Some (Rejected (timeout_error ms)).
Proof.
  intros Hwf%reachable_wf Hp Hcall Hpd.
  pose proof (fifo_exec sc tr w [] (queue p) (fifo_init _ _ _ Hwf Hp)) as Hinv.
  simpl in Hinv. destruct (fi_probe _ _ _ _ Hinv) as [p' Hp'].
  pose proof (fi_wf _ _ _ _ Hinv) as Hwf'.
  pose proof (fi_pending _ _ _ _ Hinv _ _ Hp' Hcall Hpd) as Hin.
  apply list_elem_of_fmap in Hin as (wt & -> & Hin).
  destruct (wf_waiter_timer _ Hwf' _ _ _ Hp' Hin) as [ms Hcb].
  exists (timer wt), ms. split; [done|]. split.
  - exists p'. split; [done|]. by destruct wt.
  - by destruct (fire_rejects _ _ _ Hwf' Hcb) as (Hr & _).
Qed.

Lemma pending_call_times_out_witness :
  ∃ t ms, timers (exec [ONext 0 None; ONext 0 (Some 5%Z)]
                       (exec [OGetProbe None] init_world)) !! t
          = Some (mkTimer 0 1 ms).
Proof.
  destruct (pending_call_times_out (exec [OGetProbe None] init_world) 0
              (mkProbe None (integer 100) 1000 0 [] []) [ONext 0 None; ONext 0 (Some 5%Z)] 1)
    as (t & ms & H & _).
  - by exists [OGetProbe None].
  - reflexivity.
  - apply elem_of_cons. right. apply list_elem_of_here.
  - reflexivity.
  - by exists t, ms.
Defined.

(** ** Nothing is lost below the buffer's bound *)

Lemma step_keeps_probe o w sc p :
  wf w → probes w !! sc = Some p →
  (∀ l v, o ≠ OEmit (Some sc) l v) → (∀ ms, o ≠ ONext sc ms) → o ≠ ODispose sc →
  ∃ p', probes (step o w) !! sc = Some p' ∧ queue p' = queue p ∧
        opts p' = opts p ∧ bufferSize p' = bufferSize p ∧
        (subscribed sc w → subscribed sc (step o w)).
Proof.
  intros Hwf Hp Hnoemit Hnonext Hnodispose.
  destruct o as [o|ctx l v|sc' ms|sc'|t]; unfold step.
  - rewrite getProbe_test by done. simpl.
    exists p. rewrite lookup_insert_ne.
    2: { pose proof (wf_symbol_fresh _ Hwf _ (mk_is_Some _ _ Hp)). lia. }
    repeat split; try done. rewrite !subscribed_elem. simpl.
    intros ?. apply elem_of_app. by left.
  - exists p. destruct ctx as [sc'|]; [|by rewrite emit_in_no_scope].
    assert (sc' ≠ sc) as Hne by (intros ->; by eapply Hnoemit).
    destruct (emit_in_other w sc' sc p l v Hwf Hne Hp) as [Hp' _].
    repeat split; try done.
    rewrite !subscribed_elem. by rewrite emit_in_broadcast, broadcast_subscribers.
  - assert (sc' ≠ sc) as Hne by (intros ->; by eapply Hnonext).
    exists p. repeat split; try done.
    2: { rewrite !subscribed_elem. by rewrite next_subscribers. }
    destruct (probes w !! sc') as [p1|] eqn:Hp1.
    2: { unfold next. by rewrite Hp1. }
    destruct (queue p1) as [|ev q] eqn:Hq.
    + rewrite (next_wait _ _ _ _ Hp1 Hq). simpl. by rewrite lookup_insert_ne.
    + rewrite (next_immediate _ _ _ _ _ _ Hp1 Hq). simpl. by rewrite lookup_insert_ne.
  - assert (sc' ≠ sc) as Hne by congruence.
    exists p. destruct (probes w !! sc') as [p1|] eqn:Hp1.
    2: { by rewrite dispose_unknown. }
    repeat split; try done.
    + rewrite (dispose_probes _ _ _ Hp1). by rewrite lookup_insert_ne.
    + intros (subs & Hs & Hin). exists (filter (λ s, s ≠ sc') subs).
      rewrite (dispose_subscribers _ _ _ Hp1), Hs. split; [done|].
      apply list_elem_of_filter. split; [congruence|done].
  - destruct (timers w !! t) as [cb|] eqn:Hcb.
    2: { rewrite fire_dead by done. by exists p. }
    pose proof (fire_subscribers t w) as Hsubs.
    destruct (fire_live _ _ _ Hwf Hcb) as (p1 & l1 & l2 & Hp1 & Hpend1 & Hfire).
    rewrite Hfire in *. simpl in Hsubs |- *.
    destruct (decide (t_owner cb = sc)) as [Heq|Hne].
    + rewrite Heq in *. rewrite lookup_insert_eq. assert (p1 = p) as -> by congruence.
      eexists. repeat split; try done.
    + rewrite lookup_insert_ne by done. exists p. repeat split; try done.
Qed.

Lemma lossless_step sc o0 N o w cs E :
  lossless_inv sc o0 N w cs E → keeps sc o = true →
  (∀ l v, o = OEmit (Some sc) l v → filtered_out o0 (mkProbeEvent l v) = Normal false) →
  length_le (length (E ++ emitted sc [o])) N = true →
  lossless_inv sc o0 N (step o w) (cs ++ calls_of sc [o] w) (E ++ emitted sc [o]).
Proof.
  intros (Hinv & Hsub & p & Hp & Ho & HN & Heq & Hwaiters) Hkeeps Hacc Hlen.
  pose proof (fi_wf _ _ _ _ Hinv) as Hwf.
  split; [by apply fifo_step|].
  assert (Hemit : (∃ l v, o = OEmit (Some sc) l v) ∨ (∀ l v, o ≠ OEmit (Some sc) l v)).
  { destruct o as [?|[sc'|] l v|? ?|?|?]; try (by right).
    destruct (decide (sc' = sc)) as [->|]; [left; eauto|right; congruence]. }
  assert (Hnext : (∃ ms, o = ONext sc ms) ∨ (∀ ms, o ≠ ONext sc ms)).
  { destruct o as [?|? ? ?|sc' ms|?|?]; try (by right).
    destruct (decide (sc' = sc)) as [->|]; [left; eauto|right; congruence]. }
  assert (Hcs : ∀ pr, pr ∈ cs → pr ≠ fresh_promise w).
  { intros pr Hpr. pose proof (fi_fresh _ _ _ _ Hinv _ Hpr). lia. }
  destruct Hemit as [(l & v & ->)|Hnoemit].
  { rewrite calls_of_other by done. rewrite emitted_own, app_nil_r in *.
    specialize (Hacc l v eq_refl).
    assert (Hs : __scope (mkInternalEvent l v (Some sc)) = Some (scope p)).
    { simpl. by rewrite (wf_scope _ Hwf _ _ Hp). }
    assert (Hacc' : accepts p (mkProbeEvent l v)) by (unfold accepts; by rewrite Ho).
    unfold step. rewrite emit_in_scope by done.
    rewrite bool_decide_true by (by apply subscribed_elem).
    destruct (pending p) as [|wt rest] eqn:Hq.
    - rewrite (sub_buffer _ _ _ _ Hp Hs Hacc' Hq). simpl.
      split; [done|]. eexists. rewrite lookup_insert_eq. split; [done|]. simpl.
      split; [done|]. split; [done|]. split; [|by rewrite Hq].
      replace (length_ge (length (queue p)) (bufferSize p)) with false.
      2: { symmetry. apply not_true_is_false. intros Hge.
           rewrite <-HN, length_app in Hlen. simpl in Hlen.
           replace (length E + 1) with (S (length E)) in Hlen by lia.
           apply length_le_not_ge in Hlen.
           rewrite (length_ge_mono (length (queue p)) (length E) (bufferSize p)) in Hlen;
             [done| |done].
           rewrite <-Heq, length_app. lia. }
      rewrite (received_ext cs w) by done. by rewrite app_assoc, Heq.
    - rewrite (sub_handoff _ _ _ _ _ _ Hp Hs Hacc' Hq). simpl.
      split; [done|]. eexists. rewrite lookup_insert_eq. split; [done|]. simpl.
      split; [done|]. split; [done|].
      assert (Hin : wt ∈ pending p) by (rewrite Hq; apply elem_of_cons; by left).
      pose proof (fifo_pending_promise _ _ _ _ _ _ Hinv Hp Hin) as Hpd.
      assert (Hempty : queue p = []).
      { destruct (wf_exclusive _ Hwf _ _ Hp) as [?|?]; [done|congruence]. }
      split.
      + rewrite Hempty, app_nil_r in *.
        rewrite (received_handoff cs w _ (promise wt) (mkProbeEvent l v)).
        * rewrite decide_True by apply Hwaiters, list_elem_of_here. by rewrite Heq.
        * by eapply fi_sorted.
        * intros pr Hpr Hle. by apply (fi_tail _ _ _ _ Hinv p wt pr Hp).
        * intros pr Hne. apply fulfilled_with_eq. simpl. by apply settle_lookup_ne.
        * unfold fulfilled_with. simpl. by rewrite settle_lookup_pending.
      + intros wt' Hin'. apply Hwaiters. apply elem_of_cons. by right. }
  rewrite emitted_other, app_nil_r in * by done.
  destruct Hnext as [(ms & ->)|Hnonext].
  { rewrite calls_of_next. unfold step.
    split; [by rewrite !subscribed_elem, next_subscribers in *|].
    destruct (queue p) as [|ev q] eqn:Hq.
    - rewrite (next_wait _ _ _ _ Hp Hq). simpl.
      eexists. rewrite lookup_insert_eq. split; [done|]. simpl.
      split; [done|]. split; [done|]. split.
      + rewrite received_app, (received_ext cs w).
        2: { intros pr Hpr. apply fulfilled_with_eq. simpl.
             apply lookup_insert_ne. by apply not_eq_sym, Hcs. }
        rewrite received_cons. unfold fulfilled_with at 1. simpl.
        rewrite lookup_insert_eq. simpl. by rewrite app_nil_r, Hq.
      + intros wt [Hin| ->%list_elem_of_singleton]%elem_of_app; apply elem_of_app.
        * left. by apply Hwaiters.
        * right. simpl. apply list_elem_of_here.
    - rewrite (next_immediate _ _ _ _ _ _ Hp Hq). simpl.
      eexists. rewrite lookup_insert_eq. split; [done|]. simpl.
      split; [done|]. split; [done|]. split.
      + rewrite received_app, (received_ext cs w).
        2: { intros pr Hpr. apply fulfilled_with_eq. simpl.
             rewrite settle_lookup_ne by (by apply not_eq_sym, Hcs).
             apply lookup_insert_ne. by apply not_eq_sym, Hcs. }
        rewrite received_cons. unfold fulfilled_with at 1. simpl.
        rewrite settle_lookup_pending by apply lookup_insert_eq. simpl.
        rewrite <-app_assoc. simpl. exact Heq.
      + intros wt Hin. apply elem_of_app. left. by apply Hwaiters. }
  rewrite calls_of_other, app_nil_r by done.
  assert (o ≠ ODispose sc) as Hnodispose.
  { intros ->. simpl in Hkeeps. by rewrite bool_decide_false in Hkeeps by (intros H; by apply H). }
  destruct (step_keeps_probe o w sc p Hwf Hp Hnoemit Hnonext Hnodispose)
    as (p' & Hp' & Hq' & Ho' & HN' & Hsub').
  destruct (step_frame o w sc p Hwf Hp Hnoemit Hnonext)
    as (p'' & Hp'' & _ & Hpend & _ & Hprom).
  assert (p'' = p') as -> by congruence.
  split; [by apply Hsub'|]. exists p'. split; [done|].
  split; [congruence|]. split; [congruence|]. split.
  - rewrite Hq', (received_ext cs w); [done|].
    intros pr Hpr. apply Hprom; [by eapply fi_fresh|]. by eapply fi_pending.
  - intros wt Hin. by apply Hwaiters, Hpend.
Qed.

Lemma lossless_exec sc o0 N tr w cs E :
  lossless_inv sc o0 N w cs E → forallb (keeps sc) tr = true →
  Forall (λ e, filtered_out o0 e = Normal false) (emitted sc tr) →
  length_le (length (E ++ emitted sc tr)) N = true →
  lossless_inv sc o0 N (exec tr w) (cs ++ calls_of sc tr w) (E ++ emitted sc tr).
Proof.
  revert w cs E. induction tr as [|o tr IH]; intros w cs E Hinv Hkeeps Hacc Hlen.
  { simpl. by rewrite !app_nil_r. }
  simpl in Hkeeps. apply andb_true_iff in Hkeeps as [Hk1 Hk2].
  rewrite emitted_cons in Hacc, Hlen. apply Forall_app in Hacc as [Hacc1 Hacc2].
  rewrite exec_cons, calls_of_cons, emitted_cons, !app_assoc.
  apply IH; try done.
  - apply lossless_step; try done.
    + intros l v ->. rewrite emitted_own in Hacc1. by apply (proj1 (Forall_singleton _ _)) in Hacc1.
    + eapply length_le_mono; [|exact Hlen]. rewrite !length_app. lia.
  - by rewrite <-app_assoc.
Qed.

(** X9.  Nothing is lost below the bound.  Take a registered probe with an
    empty buffer and nobody waiting, and a run that does not dispose it, in
    which every event emitted in its scope passes its filter and these
    events are no more than [bufferSize].  Then, whatever timers fired on the
    way, what the run's [next()] calls on the probe resolved to (in call
    order) followed by what is still buffered is exactly what was emitted,
    in emission order. *)
Theorem nothing_lost_below_bound w sc p tr :
  reachable w → subscribed sc w → probes w !! sc = Some p →
  queue p = [] → pending p = [] →
  forallb (keeps sc) tr = true →
  Forall (accepts p) (emitted sc tr) →
  length_le (length (emitted sc tr)) (bufferSize p) = true →
  ∃ p', probes (exec tr w) !! sc = Some p' ∧
        received (calls_of sc tr w) (exec tr w) ++ queue p' = emitted sc tr.
Proof.
  intros Hwf%reachable_wf Hsub Hp Hq Hpd Hkeeps Hacc Hlen.
  destruct (lossless_exec sc (opts p) (bufferSize p) tr w [] []) as (_ & _ & p' & Hp' & _ & _ & Heq & _);
    try done.
  - split; [|split; [done|]].
    + rewrite <-Hq. by apply fifo_init.
    + exists p. repeat split; try done. rewrite Hpd. by intros ? ?%elem_of_nil.
  - eauto.
Qed.

Lemma nothing_lost_below_bound_witness :
  ∃ p', probes (exec busy_run (exec [OGetProbe None] init_world)) !! 0 = Some p' ∧
        received (calls_of 0 busy_run (exec [OGetProbe None] init_world))
                 (exec busy_run (exec [OGetProbe None] init_world)) ++ queue p'
        = [ev_x 1; ev_x 2; ev_x 3].
Proof.
  apply (nothing_lost_below_bound (exec [OGetProbe None] init_world) 0
           (mkProbe None (integer 100) 1000 0 [] []) busy_run).
  - by exists [OGetProbe None].
  - exists [0]. split; [reflexivity|]. apply list_elem_of_here.
  - reflexivity.
  - reflexivity.
  - reflexivity.
  - reflexivity.
  - by repeat constructor.
  - reflexivity.
Defined.

(** * Properties of the build plugin *)

(** ** Host strings *)

Lemma append_cons a s t : String a s +:+ t = String a (s +:+ t).
Proof. done. Qed.

Lemma append_nil_l s : "" +:+ s = s.
Proof. done. Qed.

Lemma append_nil_r s : s +:+ "" = s.
Proof. induction s as [|a s IH]; [done|]. by rewrite append_cons, IH. Qed.

Lemma append_assoc s t u : (s +:+ t) +:+ u = s +:+ (t +:+ u).
Proof. induction s as [|a s IH]; [done|]. by rewrite !append_cons, IH. Qed.

Lemma startsWith_spec p s :
  Directive.startsWith p s = true ↔ ∃ r, s = p +:+ r.
Proof.
  revert s. induction p as [|a p IH]; intros s; simpl.
  - split; [eauto|done].
  - destruct s as [|b s].
    + split; [done|]. by intros [r Hr].
    + rewrite andb_true_iff, IH. split.
      * intros [->%Ascii.eqb_eq [r ->]]. by exists r.
      * intros [r Hr]. rewrite append_cons in Hr. injection Hr as -> ->.
        split; [apply Ascii.eqb_refl|eauto].
Qed.

Lemma includes_spec sub s :
  Directive.includes sub s = true ↔ ∃ a b, s = a +:+ sub +:+ b.
Proof.
  induction s as [|c s IH]; simpl.
  - rewrite orb_false_r, startsWith_spec. split.
    + intros [r Hr]. by exists "", r.
    + intros (a & b & Hab). destruct a as [|? ?]; [|done]. eauto.
  - rewrite orb_true_iff, startsWith_spec, IH. split.
    + intros [[r Hr]|(a & b & ->)]; [by exists "", r|by exists (String c a), b].
    + intros (a & b & Hab). destruct a as [|c' a].
      * left. eauto.
      * rewrite append_cons in Hab. injection Hab as -> ->. right. eauto.
Qed.

Lemma endsWith_spec suf s :
  Directive.endsWith suf s = true ↔ ∃ a, s = a +:+ suf.
Proof.
  induction s as [|c s IH]; simpl.
  - rewrite orb_false_r, String.eqb_eq. split.
    + intros ->. by exists "".
    + intros [a Ha]. destruct a; [done|]. by rewrite append_cons in Ha.
  - rewrite orb_true_iff, String.eqb_eq, IH. split.
    + intros [->|[a ->]]; [by exists ""|by exists (String c a)].
    + intros [[|c' a] Ha].
      * by left.
      * rewrite append_cons in Ha. injection Ha as -> ->. right. eauto.
Qed.

Lemma test_spec r s :
  Directive.test r s = true ↔
  ∃ a b, s = a +:+ b ∧ Directive.matcher r b (λ _, true) = true.
Proof.
  induction s as [|c s IH]; simpl.
  - rewrite orb_false_r. split.
    + intros H. by exists "", "".
    + intros (a & b & Hab & H). destruct a; [|done].
      rewrite append_nil_l in Hab. by subst.
  - rewrite orb_true_iff, IH. split.
    + intros [H|(a & b & -> & H)]; [by exists "", (String c s)|by exists (String c a), b].
    + intros ([|c' a] & b & Hab & H).
      * left. rewrite append_nil_l in Hab. by subst.
      * rewrite append_cons in Hab. injection Hab as -> ->. right. eauto.
Qed.

Ltac chase H :=
  repeat (cbn [Directive.matcher andb orb] in H;
          match type of H with
          | context [match ?s with EmptyString => _ | String _ _ => _ end] =>
              is_var s; destruct s
          | context [Ascii.eqb ?a ?c] =>
              destruct (Ascii.eqb_spec a c) as [?|?]; [subst|]
          end);
  cbn [Directive.matcher andb orb] in H.

Lemma extsRE_matches t :
  Directive.matcher Directive.extsRE t (λ _, true) = true ↔ t ∈ script_extensions.
Proof.
  split.
  - intros H. unfold Directive.extsRE in H. chase H; try discriminate;
      unfold script_extensions; set_solver.
  - unfold script_extensions. set_unfold. intros H.
    repeat (destruct H as [->|H]; [reflexivity|]). done.
Qed.

Lemma extsRE_test_spec id :
  Directive.test Directive.extsRE id = true ↔
  ∃ e, e ∈ script_extensions ∧ Directive.endsWith e id = true.
Proof.
  rewrite test_spec. split.
  - intros (a & b & -> & H%extsRE_matches). exists b. split; [done|].
    apply endsWith_spec. eauto.
  - intros (e & He & [a ->]%endsWith_spec). exists a, e. split; [done|].
    by apply extsRE_matches.
Qed.

(** *** [norm] *)

Lemma norm_cons a s :
  Directive.norm (String a s)
  = String (if Ascii.eqb a "\" then "/"%char else a) (Directive.norm s).
Proof. done. Qed.

Lemma norm_idem s : Directive.norm (Directive.norm s) = Directive.norm s.
Proof.
  induction s as [|a s IH]; [done|]. rewrite !norm_cons, IH.
  destruct (Ascii.eqb a "\") eqn:E; [done|]. by rewrite E.
Qed.

Lemma norm_app s t : Directive.norm (s +:+ t) = Directive.norm s +:+ Directive.norm t.
Proof.
  induction s as [|a s IH]; [done|]. by rewrite append_cons, !norm_cons, IH.
Qed.

Lemma norm_length s : String.length (Directive.norm s) = String.length s.
Proof. induction s as [|a s IH]; [done|]. rewrite norm_cons. simpl. by rewrite IH. Qed.

Lemma matcher_norm r s k k' :
  slash_free r = true → (∀ s, k' (Directive.norm s) = k s) →
  Directive.matcher r (Directive.norm s) k' = Directive.matcher r s k.
Proof.
  revert s k k'. induction r as [c|r1 IH1 r2 IH2|r1 IH1 r2 IH2|r IH|];
    intros s k k' Hr Hk; simpl in *.
  - destruct s as [|a s]; [done|]. rewrite norm_cons, Hk.
    apply andb_true_iff in Hr as [H1 H2].
    destruct (Ascii.eqb_spec a "\") as [->|]; [|done].
    destruct (Ascii.eqb_spec c "\"); [done|]. destruct (Ascii.eqb_spec c "/"); [done|].
    rewrite !(proj2 (Ascii.eqb_neq _ _)); [done|congruence|congruence].
  - apply andb_true_iff in Hr as [H1 H2]. apply IH1; [done|].
    intros s'. by apply IH2.
  - apply andb_true_iff in Hr as [H1 H2].
    by rewrite (IH1 s k k'), (IH2 s k k').
  - by rewrite (IH s k k'), Hk.
  - destruct s; [|done]. apply (Hk "").
Qed.

Lemma test_norm r s :
  slash_free r = true → Directive.test r (Directive.norm s) = Directive.test r s.
Proof.
  intros Hr. induction s as [|a s IH].
  - done.
  - rewrite norm_cons. cbn [Directive.test]. rewrite <-norm_cons, IH.
    by rewrite (matcher_norm r _ (λ _, true) (λ _, true)).
Qed.

Lemma isVirtual_norm id : Directive.isVirtual (Directive.norm id) = Directive.isVirtual id.
Proof.
  unfold Directive.isVirtual. f_equal.
  - destruct id as [|a s]; [done|]. rewrite norm_cons. cbn.
    by destruct (Ascii.eqb_spec a "\") as [->|].
  - induction id as [|a s IH]; [done|]. rewrite norm_cons.
    cbn [Directive.includes]. rewrite IH. f_equal. cbn.
    by destruct (Ascii.eqb_spec a "\") as [->|].
Qed.

Lemma includes_norm sub s :
  Directive.includes sub s = true →
  Directive.includes (Directive.norm sub) (Directive.norm s) = true.
Proof.
  rewrite !includes_spec. intros (a & b & ->).
  exists (Directive.norm a), (Directive.norm b). by rewrite !norm_app.
Qed.

(** *** [cleanId] *)

Lemma cleanId_cons a s :
  Directive.cleanId (String a s)
  = if Ascii.eqb a "?" then "" else String a (Directive.cleanId s).
Proof. done. Qed.

Lemma includes_char_cons c a s :
  Directive.includes (String c "") (String a s)
  = Ascii.eqb c a || Directive.includes (String c "") s.
Proof. cbn. by rewrite andb_true_r. Qed.

(** ** Eligible ids *)

(** X10.  Which files are eligible.  [extsRE] accepts an id exactly when it
    ends in one of the twelve script extensions, and [transform] leaves every
    other id alone, whatever the options: in particular an id with anything
    after the extension, such as a query. *)
Theorem only_script_ids cwd isAbs join lineRe opts code id injected :
  (Directive.test Directive.extsRE id = true
   ↔ ∃ e, e ∈ script_extensions ∧ Directive.endsWith e id = true)
  ∧ ((∀ e, e ∈ script_extensions → Directive.endsWith e id = false) →
     Directive.transform cwd isAbs join lineRe opts code id injected = (None, injected)).
Proof.
  split; [apply extsRE_test_spec|]. intros Hno.
  assert (Directive.test Directive.extsRE id = false) as Ht.
  { apply not_true_is_false. intros (e & He & Hend)%extsRE_test_spec.
    by rewrite (Hno e He) in Hend. }
  unfold Directive.transform. by rewrite Ht.
Qed.

(** X11.  [cleanId] cuts the query off: what it returns has no [?]; an id
    without [?] is returned as it is; and of an id with one, what comes
    before the first [?] is returned. *)
Theorem cleanId_cuts_query id :
  Directive.includes "?" (Directive.cleanId id) = false
  ∧ (Directive.includes "?" id = false → Directive.cleanId id = id)
  ∧ (∀ a b, id = a +:+ "?" +:+ b → Directive.includes "?" a = false →
       Directive.cleanId id = a).
Proof.
  split; [|split].
  - induction id as [|c s IH]; [done|]. rewrite cleanId_cons.
    destruct (Ascii.eqb_spec c "?") as [->|Hne]; [done|].
    rewrite includes_char_cons, IH, orb_false_r.
    apply Ascii.eqb_neq. congruence.
  - induction id as [|c s IH]; [done|]. rewrite includes_char_cons.
    intros [Hc Hs]%orb_false_iff. rewrite cleanId_cons, Ascii.eqb_sym, Hc.
    by rewrite IH.
  - intros a b ->. induction a as [|c a IH]; [done|].
    rewrite includes_char_cons. intros [Hc Ha]%orb_false_iff.
    rewrite append_cons, cleanId_cons, Ascii.eqb_sym, Hc. by rewrite IH.
Qed.

(** ** Passes of [transform] *)

Section plugin_facts.
Variable process_cwd : string.
Variable path_isAbsolute : string → bool.
Variable path_join : string → string → string.
Variable lineRe_exec : string → list Directive.Match.
Variable opts : Directive.ProbeDirectiveOptions.

Local Abbreviation transform :=
  (Directive.transform process_cwd path_isAbsolute path_join lineRe_exec opts).
Local Abbreviation transforms :=
  (Directive.transforms process_cwd path_isAbsolute path_join lineRe_exec opts).
Local Abbreviation includePred :=
  (Directive.includePred process_cwd path_isAbsolute path_join opts).
Local Abbreviation rewrite_call := (Directive.rewrite_call opts).

Lemma rewrites_no_import ms : existsb is_append (rewrite_call <$> ms) = false.
Proof. by induction ms. Qed.

(** The three ways a pass can end. *)
Lemma transform_cases code id injected :
  transform code id injected = (None, injected)
  ∨ ((Directive.cleanId id ∉ injected) ∧
     transform code id injected
     = (Some ((rewrite_call <$> lineRe_exec code)
              ++ [Directive.AppendLeft (Z.to_nat (Directive.shebangEnd code))
                    (Directive.import_line opts)]),
        {[Directive.cleanId id]} ∪ injected))
  ∨ (Directive.cleanId id ∈ injected ∧
     transform code id injected = (Some (rewrite_call <$> lineRe_exec code), injected)).
Proof.
  unfold Directive.transform.
  destruct (negb _); [by left|]. destruct (_ || _); [by left|].
  destruct (bool_decide (lineRe_exec code = [])); [by left|].
  destruct (decide (Directive.cleanId id ∈ injected)) as [Hin|Hin].
  - right; right. by rewrite bool_decide_false by (by intros ?).
  - right; left. by rewrite bool_decide_true.
Qed.

Lemma transform_passes code id injected :
  is_Some (fst (transform code id injected)) →
  Directive.test Directive.extsRE id = true ∧ includePred id = true ∧
  Directive.excludePred opts id = false.
Proof.
  unfold Directive.transform.
  destruct (Directive.test _ id); simpl; [|by intros [? ?]].
  destruct (includePred id); simpl; [|by intros [? ?]].
  by destruct (Directive.excludePred opts id); simpl; [intros [? ?]|].
Qed.

Lemma transform_marked code id injected :
  Directive.cleanId id ∈ injected →
  has_import (fst (transform code id injected)) = false.
Proof.
  intros Hin.
  destruct (transform_cases code id injected) as [->|[[Hn _]|[_ ->]]]; try done.
  simpl. apply rewrites_no_import.
Qed.

Lemma transform_import code id injected :
  has_import (fst (transform code id injected)) = true →
  Directive.cleanId id ∈ snd (transform code id injected).
Proof.
  destruct (transform_cases code id injected) as [->|[[_ ->]|[_ ->]]]; simpl.
  - done.
  - intros _. set_solver.
  - by rewrite rewrites_no_import.
Qed.

Lemma transform_grows code id injected :
  injected ⊆ snd (transform code id injected).
Proof.
  destruct (transform_cases code id injected) as [->|[[_ ->]|[_ ->]]]; simpl;
    set_solver.
Qed.

Lemma transform_new code id injected cid :
  cid ∈ snd (transform code id injected) →
  cid ∈ injected
  ∨ (cid = Directive.cleanId id ∧ has_import (fst (transform code id injected)) = true).
Proof.
  destruct (transform_cases code id injected) as [->|[[_ ->]|[_ ->]]]; simpl;
    [by left| |by left].
  intros [->%elem_of_singleton|?]%elem_of_union; [right|by left].
  split; [done|]. rewrite existsb_app. simpl. by rewrite orb_true_r.
Qed.

Lemma transforms_cons code id rest injected :
  transforms ((code, id) :: rest) injected
  = (fst (transform code id injected)
       :: fst (transforms rest (snd (transform code id injected))),
     snd (transforms rest (snd (transform code id injected)))).
Proof.
  simpl. destruct (transform code id injected) as [r inj1]. simpl.
  by destruct (transforms rest inj1).
Qed.

Lemma transforms_marked calls injected j code id r :
  Directive.cleanId id ∈ injected →
  calls !! j = Some (code, id) → fst (transforms calls injected) !! j = Some r →
  has_import r = false.
Proof.
  revert injected j. induction calls as [|[c0 id0] rest IH]; intros injected j Hin Hj Hr.
  { done. }
  rewrite transforms_cons in Hr. simpl in Hr. destruct j as [|j]; simpl in *.
  - injection Hj as -> ->. injection Hr as <-. by apply transform_marked.
  - apply (IH (snd (transform c0 id0 injected)) j); [|done..].
    by apply transform_grows.
Qed.

(** X12.  The import is added at most once for a file.  Through any series
    of passes of one plugin instance, when the result of a pass carries the
    import line, no later pass over an id with the same cleaned id carries
    it again, whatever source text that pass is given: its directive lines
    are rewritten to calls, and nothing is imported. *)
Theorem import_at_most_once calls injected i j ci idi cj idj ri rj :
  i < j → calls !! i = Some (ci, idi) → calls !! j = Some (cj, idj) →
  Directive.cleanId idi = Directive.cleanId idj →
  fst (transforms calls injected) !! i = Some ri →
  fst (transforms calls injected) !! j = Some rj →
  has_import ri = true →
  has_import rj = false
  ∧ (is_Some rj → rj = Some (rewrite_call <$> lineRe_exec cj)).
Proof.
  revert injected i j. induction calls as [|[c0 id0] rest IH];
    intros injected i j Hij Hi Hj Hcid Hri Hrj Himp; [done|].
  rewrite transforms_cons in Hri, Hrj. simpl in Hri, Hrj.
  destruct j as [|j]; [lia|]. destruct i as [|i]; simpl in *.
  - injection Hi as -> ->. injection Hri as <-.
    apply transform_import in Himp. rewrite Hcid in Himp.
    split; [by eapply transforms_marked|].
    clear Hij. revert Himp Hj Hrj. generalize (snd (transform ci idi injected)).
    clear. revert j. induction rest as [|[c1 id1] rest IH]; intros j inj Hin Hj Hrj Hsome; [done|].
    rewrite transforms_cons in Hrj. simpl in Hrj. destruct j as [|j]; simpl in *.
    + injection Hj as -> ->. injection Hrj as <-.
      destruct (transform_cases cj idj inj) as [E|[[Hn _]|[_ E]]]; [|done|].
      * rewrite E in Hsome. by destruct Hsome.
      * by rewrite E.
    + apply (IH j (snd (transform c1 id1 inj))); [|done..]. by apply transform_grows.
  - apply (IH (snd (transform c0 id0 injected)) i j); [lia|done..].
Qed.

(** X13.  No rewritten call is left without its import.  When a pass
    returns rewritten source, either that result carries the import line, or
    the cleaned id was marked before the series began, or the result of an
    earlier pass over the same cleaned id carried it: a pass that found no
    directive line marks nothing. *)
Theorem import_never_missed calls injected j code id edits :
  calls !! j = Some (code, id) →
  fst (transforms calls injected) !! j = Some (Some edits) →
  has_import (Some edits) = true
  ∨ Directive.cleanId id ∈ injected
  ∨ ∃ i ci idi ri, i < j ∧ calls !! i = Some (ci, idi) ∧
      Directive.cleanId idi = Directive.cleanId id ∧
      fst (transforms calls injected) !! i = Some ri ∧ has_import ri = true.
Proof.
  revert injected j. induction calls as [|[c0 id0] rest IH]; intros injected j Hj Hr; [done|].
  rewrite transforms_cons. rewrite transforms_cons in Hr. simpl in Hr.
  destruct j as [|j]; simpl in *.
  - injection Hj as -> ->. injection Hr as Hr.
    destruct (transform_cases code id injected) as [E|[[_ E]|[Hin _]]].
    + by rewrite E in Hr.
    + left. rewrite E in Hr. simpl in Hr. injection Hr as <-.
      rewrite existsb_app. simpl. by rewrite orb_true_r.
    + by right; left.
  - destruct (IH _ _ Hj Hr) as [H|[H|(i & ci & idi & ri & Hlt & Hi & Hc & Hri & Himp)]].
    + by left.
    + apply transform_new in H as [H|[Hc Himp]]; [by right; left|].
      right; right. exists 0, c0, id0, (fst (transform c0 id0 injected)).
      repeat split; [lia|done..].
    + right; right. exists (S i), ci, idi, ri. repeat split; [lia|done..].
Qed.

(** X14.  With the default excludes kept, an id that gets through has no
    query part: cleaning it changes nothing, so the key under which the
    import is remembered is the id itself, and the only id a pass can mark is
    its own. *)
Theorem kept_defaults_key_is_id code id injected :
  Directive.keepDefaultExcludes opts ≠ Some false →
  is_Some (fst (transform code id injected)) →
  Directive.isVirtual id = false ∧ Directive.cleanId id = id ∧
  snd (transform code id injected) ⊆ {[id]} ∪ injected.
Proof.
  intros Hkeep (_ & _ & Hex)%transform_passes.
  unfold Directive.excludePred, Directive.keepDefaults in Hex.
  assert (nullish (Directive.keepDefaultExcludes opts) true = true) as Hk.
  { by destruct (Directive.keepDefaultExcludes opts) as [[|]|]. }
  rewrite Hk in Hex. apply orb_false_iff in Hex as [Hd _].
  apply orb_false_iff in Hd as [_ Hv]. split; [done|].
  assert (Directive.cleanId id = id) as Hc.
  { apply orb_false_iff in Hv as [_ Hq]. clear -Hq.
    induction id as [|a s IH]; [done|].
    rewrite includes_char_cons in Hq. apply orb_false_iff in Hq as [Ha Hq].
    rewrite cleanId_cons, Ascii.eqb_sym, Ha. by rewrite IH. }
  split; [done|].
  destruct (transform_cases code id injected) as [->|[[_ ->]|[_ ->]]]; simpl;
    rewrite ?Hc; set_solver.
Qed.

(** X15.  The default excludes cannot be switched off by accident.  Unless
    [keepDefaultExcludes] is [false], an id that contains [?], starts with
    the NUL character, or has [/node_modules/] in it (written with either
    slash) is never transformed, whatever [include] and [exclude] say. *)
Theorem default_excludes_always_apply code id injected :
  Directive.keepDefaultExcludes opts ≠ Some false →
  Directive.isVirtual id = true
  ∨ Directive.includes "/node_modules/" id = true
  ∨ Directive.includes "\node_modules\" id = true →
  transform code id injected = (None, injected).
Proof.
  intros Hkeep Hid.
  assert (Directive.excludePred opts id = true) as Hex.
  { unfold Directive.excludePred, Directive.keepDefaults.
    assert (nullish (Directive.keepDefaultExcludes opts) true = true) as ->.
    { by destruct (Directive.keepDefaultExcludes opts) as [[|]|]. }
    apply orb_true_iff. left. unfold Directive.defaultExcludePred.
    apply orb_true_iff.
    destruct Hid as [?|[H|H]]; [by right|left; by apply includes_norm in H..]. }
  unfold Directive.transform. rewrite Hex, orb_true_r. by destruct (negb _).
Qed.

(** X16.  Either slash will do.  When [include] and [exclude] are not user
    functions, an id written with backslashes is transformed exactly when
    the same id written with forward slashes is. *)
Theorem slashes_do_not_matter code id injected :
  (∀ f, Directive.include opts ≠ Some (Directive.IncludeFn f)) →
  (∀ f, Directive.exclude opts ≠ Some (Directive.ExcludeFn f)) →
  is_Some (fst (transform code (Directive.norm id) injected))
  ↔ is_Some (fst (transform code id injected)).
Proof.
  intros Hinc Hexc.
  assert (includePred (Directive.norm id) = includePred id) as Hi.
  { unfold Directive.includePred.
    destruct (Directive.include opts) as [[f|re|inc]|]; [by destruct (Hinc f)|..];
      by rewrite ?norm_idem, ?test_norm. }
  assert (Directive.excludePred opts (Directive.norm id) = Directive.excludePred opts id) as He.
  { unfold Directive.excludePred, Directive.defaultExcludePred, Directive.userExcludePred.
    rewrite isVirtual_norm, norm_idem.
    by destruct (Directive.exclude opts) as [[re|f]|]; [|destruct (Hexc f)|]. }
  unfold Directive.transform. rewrite Hi, He, test_norm by done.
  destruct (negb _); [done|]. destruct (_ || _); [done|].
  destruct (bool_decide (lineRe_exec code = [])); [done|].
  by do 2 destruct (bool_decide _).
Qed.

(** X18.  A string [include] means a directory.  A transformed id lies,
    once its backslashes are normalised, under the included base with a [/]
    between the base and what follows, so a sibling directory whose name
    only begins like the base is not taken; with no [include] the base is
    [src] under the working directory. *)
Theorem include_respects_directories code id injected :
  is_Some (fst (transform code id injected)) →
  match Directive.include opts with
  | Some (Directive.IncludeStr inc) =>
      let base := Directive.norm (if path_isAbsolute inc then inc
                                  else path_join (Directive.norm process_cwd) inc) in
      ∃ rest, Directive.norm id = base +:+ rest ∧
              (Directive.endsWith "/" base = true ∨ Directive.startsWith "/" rest = true)
  | None =>
      ∃ rest, Directive.norm id
              = Directive.norm (path_join (Directive.norm process_cwd) "src") +:+ "/" +:+ rest
  | Some _ => True
  end.
Proof.
  intros (_ & Hinc & _)%transform_passes. unfold Directive.includePred in Hinc.
  destruct (Directive.include opts) as [[f|re|inc]|]; [done|done|..].
  - apply andb_true_iff in Hinc as [_ [r Hr]%startsWith_spec].
    unfold Directive.cwd in Hr. cbv zeta.
    destruct (Directive.endsWith "/" _) eqn:He.
    + exists r. split; [exact Hr|by left].
    + cbv iota in Hr. exists ("/" +:+ r). split; [by rewrite Hr, append_assoc|by right].
  - apply andb_true_iff in Hinc as [_ [r Hr]%startsWith_spec].
    unfold Directive.cwd in Hr. exists r. by rewrite Hr, norm_app, append_assoc.
Qed.

End plugin_facts.

(** ** The shebang line *)

Lemma indexOf_cons c a s :
  Directive.indexOf c (String a s)
  = if Ascii.eqb a c then 0%Z
    else if (Directive.indexOf c s <? 0)%Z then (-1)%Z
    else (Directive.indexOf c s + 1)%Z.
Proof. done. Qed.

Lemma indexOf_range c s :
  (-1 ≤ Directive.indexOf c s < Z.of_nat (String.length s))%Z.
Proof.
  induction s as [|a s IH]; [done|]. rewrite indexOf_cons.
  cbn [String.length]. destruct (Ascii.eqb a c); [lia|].
  destruct (Z.ltb_spec (Directive.indexOf c s) 0); lia.
Qed.

Lemma indexOf_absent c s :
  Directive.includes (String c "") s = false → Directive.indexOf c s = (-1)%Z.
Proof.
  induction s as [|a s IH]; [done|]. rewrite includes_char_cons, indexOf_cons.
  intros [Hc Hs]%orb_false_iff. rewrite Ascii.eqb_sym, Hc, IH by done. done.
Qed.

Lemma indexOf_first c line rest :
  Directive.includes (String c "") line = false →
  Directive.indexOf c (line +:+ String c rest) = Z.of_nat (String.length line).
Proof.
  induction line as [|a s IH].
  - intros _. rewrite append_nil_l, indexOf_cons. by rewrite Ascii.eqb_refl.
  - rewrite includes_char_cons. intros [Hc Hs]%orb_false_iff.
    rewrite append_cons, indexOf_cons, Ascii.eqb_sym, Hc, IH by done.
    cbn [String.length]. destruct (Z.ltb_spec (Z.of_nat (String.length s)) 0); lia.
Qed.

(** X17.  Where the import goes.  [shebangEnd] is a position of the source
    text; it is 0 when the text does not start with [#!]; when it does, it is
    the position just after the first line, and 0 again when the text has no
    line feed at all. *)
Theorem shebangEnd_after_first_line code :
  (0 ≤ Directive.shebangEnd code ≤ Z.of_nat (String.length code))%Z
  ∧ (Directive.startsWith "#!" code = false → Directive.shebangEnd code = 0%Z)
  ∧ (Directive.includes Directive.newline code = false → Directive.shebangEnd code = 0%Z)
  ∧ (∀ line rest,
       Directive.startsWith "#!" code = true →
       code = line +:+ Directive.newline +:+ rest →
       Directive.includes Directive.newline line = false →
       Directive.shebangEnd code = (Z.of_nat (String.length line) + 1)%Z).
Proof.
  unfold Directive.shebangEnd. repeat split.
  - destruct (Directive.startsWith _ _); [|lia].
    pose proof (indexOf_range "010" code).
    destruct (Z.eqb_spec (Directive.indexOf "010" code + 1) 0); lia.
  - destruct (Directive.startsWith _ _); [|lia].
    pose proof (indexOf_range "010" code).
    destruct (Z.eqb_spec (Directive.indexOf "010" code + 1) 0); lia.
  - by intros ->.
  - intros Hno. destruct (Directive.startsWith _ _); [|done].
    by rewrite (indexOf_absent _ _ Hno).
  - intros line rest -> -> Hline. unfold Directive.newline.
    rewrite append_cons, append_nil_l, (indexOf_first _ _ _ Hline).
    destruct (Z.eqb_spec (Z.of_nat (String.length line) + 1) 0); lia.
Qed.

Lemma only_script_ids_witness :
  Directive.transform "/work" posix_isAbsolute join_segments exec_one
    default_options one_directive "/work/src/a.ts?raw" ∅ = (None, ∅).
Proof.
  apply (only_script_ids "/work" posix_isAbsolute join_segments exec_one
           default_options one_directive "/work/src/a.ts?raw" ∅).
  unfold script_extensions. intros e He. set_unfold.
  repeat (destruct He as [->|He]; [reflexivity|]). done.
Defined.

Lemma cleanId_cuts_query_witness :
  Directive.cleanId "/src/App.vue?vue&type=script&lang.ts" = "/src/App.vue".
Proof.
  apply (proj2 (proj2 (cleanId_cuts_query "/src/App.vue?vue&type=script&lang.ts"))
           "/src/App.vue" "vue&type=script&lang.ts"); reflexivity.
Defined.

Lemma default_excludes_always_apply_witness :
  Directive.transform "C:\work" posix_isAbsolute join_segments exec_one
    default_options one_directive "C:\work\node_modules\pkg\index.js" ∅ = (None, ∅).
Proof.
  apply default_excludes_always_apply; [done|]. right; right. reflexivity.
Defined.

Lemma slashes_do_not_matter_witness :
  is_Some (fst (Directive.transform "C:\work" posix_isAbsolute join_segments exec_one
                  default_options one_directive "C:\work\src\a.ts" ∅)).
Proof.
  apply (slashes_do_not_matter "C:\work" posix_isAbsolute join_segments exec_one
           default_options one_directive "C:\work\src\a.ts" ∅); [done|done|].
  vm_compute. eauto.
Defined.

Lemma import_at_most_once_witness :
  has_import (Some [rewritten]) = false
  ∧ (is_Some (Some [rewritten]) →
     Some [rewritten] = Some (Directive.rewrite_call default_options <$> exec_one one_directive)).
Proof.
  apply (import_at_most_once "/work" posix_isAbsolute join_segments exec_one
           default_options two_passes ∅ 0 1 one_directive "/work/src/a.ts"
           one_directive "/work/src/a.ts" (Some [rewritten; imported]) (Some [rewritten]));
    [lia|reflexivity|reflexivity|reflexivity|vm_compute; reflexivity
    |vm_compute; reflexivity|reflexivity].
Defined.

Lemma import_never_missed_witness :
  has_import (Some [rewritten]) = true
  ∨ Directive.cleanId "/work/src/a.ts" ∈ (∅ : gset string)
  ∨ ∃ i ci idi ri, i < 1 ∧ two_passes !! i = Some (ci, idi) ∧
      Directive.cleanId idi = Directive.cleanId "/work/src/a.ts" ∧
      fst (Directive.transforms "/work" posix_isAbsolute join_segments exec_one
             default_options two_passes ∅) !! i = Some ri ∧ has_import ri = true.
Proof.
  apply (import_never_missed "/work" posix_isAbsolute join_segments exec_one
           default_options two_passes ∅ 1 one_directive "/work/src/a.ts" [rewritten]);
    [reflexivity|vm_compute; reflexivity].
Defined.

Lemma kept_defaults_key_is_id_witness :
  Directive.isVirtual "/work/src/a.ts" = false
  ∧ Directive.cleanId "/work/src/a.ts" = "/work/src/a.ts"
  ∧ snd (Directive.transform "/work" posix_isAbsolute join_segments exec_one
           default_options one_directive "/work/src/a.ts" ∅) ⊆ {["/work/src/a.ts"]} ∪ ∅.
Proof.
  apply kept_defaults_key_is_id; [done|]. vm_compute. eauto.
Defined.

Lemma shebangEnd_after_first_line_witness :
  Directive.shebangEnd ("#!/usr/bin/env node" +:+ Directive.newline +:+ one_directive) = 20%Z.
Proof.
  apply (proj2 (proj2 (proj2 (shebangEnd_after_first_line
           ("#!/usr/bin/env node" +:+ Directive.newline +:+ one_directive))))
           "#!/usr/bin/env node" one_directive); reflexivity.
Defined.

Lemma include_respects_directories_witness :
  ∃ rest, Directive.norm "C:\work\src\a.ts"
          = Directive.norm (join_segments (Directive.norm "C:\work") "src") +:+ "/" +:+ rest.
Proof.
  apply (include_respects_directories "C:\work" posix_isAbsolute join_segments exec_one
           default_options one_directive "C:\work\src\a.ts" ∅).
  vm_compute. eauto.
Defined.
